(** * markdown-to-anki: the flashcard synchroniser [anki2.py]

    A shallow embedding of [anki2.py] and of the parts of the Python
    runtime it calls ([str] methods, the [re] module on the three patterns
    of the program, [zlib.crc32], [str.encode], [base64.b64encode],
    [os.path]), followed by the properties of the extraction,
    change-detection and marker-rewriting algorithm, of the requests of a
    run and of the attachment manager. *)

From Stdlib Require Import Ascii String DecimalString DecimalPos.
From Stdlib Require Import ZArith NArith Lia Bool Arith List.
Import ListNotations.
Local Open Scope list_scope.

Set Implicit Arguments.

(* ================================================================== *)
(** * The Python runtime used by the program *)
(* ================================================================== *)

Module Py.

(** A Python [str] is a sequence of Unicode code points. *)
Definition char := N.
Definition str := list char.

Definition lit (s : string) : str :=
  map N_of_ascii (list_ascii_of_string s).
Arguments lit s%_string.

Definition chr_eqb (a b : char) : bool := N.eqb a b.

Fixpoint str_eqb (a b : str) : bool :=
  match a, b with
  | [], [] => true
  | x :: a', y :: b' => chr_eqb x y && str_eqb a' b'
  | _, _ => false
  end.

Local Open Scope N_scope.

Definition in_range (lo hi c : char) : bool :=
  (N.leb lo c && N.leb c hi)%bool.

(** [Py_UNICODE_ISSPACE]: the class behind [str.strip()] and [\s]. *)
Definition is_space (c : char) : bool :=
  (in_range 9 13 c || in_range 28 32 c || chr_eqb c 133 || chr_eqb c 160
   || chr_eqb c 5760 || in_range 8192 8202 c || chr_eqb c 8232
   || chr_eqb c 8233 || chr_eqb c 8239 || chr_eqb c 8287
   || chr_eqb c 12288)%bool.

(** Unicode category Nd (Unicode 14.0, the database of CPython 3.11): every
    run starts at a digit zero and holds a multiple of ten code points. *)
Definition decimal_runs : list (char * char) :=
  [(48, 57); (1632, 1641); (1776, 1785); (1984, 1993); (2406, 2415);
   (2534, 2543); (2662, 2671); (2790, 2799); (2918, 2927); (3046, 3055);
   (3174, 3183); (3302, 3311); (3430, 3439); (3558, 3567); (3664, 3673);
   (3792, 3801); (3872, 3881); (4160, 4169); (4240, 4249); (6112, 6121);
   (6160, 6169); (6470, 6479); (6608, 6617); (6784, 6793); (6800, 6809);
   (6992, 7001); (7088, 7097); (7232, 7241); (7248, 7257); (42528, 42537);
   (43216, 43225); (43264, 43273); (43472, 43481); (43504, 43513);
   (43600, 43609); (44016, 44025); (65296, 65305); (66720, 66729);
   (68912, 68921); (69734, 69743); (69872, 69881); (69942, 69951);
   (70096, 70105); (70384, 70393); (70736, 70745); (70864, 70873);
   (71248, 71257); (71360, 71369); (71472, 71481); (71904, 71913);
   (72016, 72025); (72784, 72793); (73040, 73049); (73120, 73129);
   (92768, 92777); (92864, 92873); (93008, 93017); (120782, 120831);
   (123200, 123209); (123632, 123641); (125264, 125273);
   (130032, 130041)].

(** [Py_UNICODE_ISDECIMAL]: the class behind [\d] on a [str] pattern. *)
Definition is_decimal (c : char) : bool :=
  existsb (fun r => in_range (fst r) (snd r) c) decimal_runs.

(** The value [int()] gives a decimal digit. *)
Definition digit_value (c : char) : Z :=
  match find (fun r => in_range (fst r) (snd r) c) decimal_runs with
  | Some r => Z.of_N ((c - fst r) mod 10)
  | None => 0%Z
  end.

Local Close Scope N_scope.

(** ** [str] methods *)

Fixpoint lstrip (s : str) : str :=
  match s with
  | c :: s' => if is_space c then lstrip s' else s
  | [] => []
  end.

Definition rstrip (s : str) : str := rev (lstrip (rev s)).

(** [s.strip()] *)
Definition strip (s : str) : str := rstrip (lstrip s).

(** [strip_prefix p s] is the rest of [s] after its prefix [p]. *)
Fixpoint strip_prefix (p s : str) : option str :=
  match p, s with
  | [], _ => Some s
  | a :: p', b :: s' => if chr_eqb a b then strip_prefix p' s' else None
  | _ :: _, [] => None
  end.

(** ** Leftmost, non-overlapping occurrences

    [str.split], [str.replace], [re.split], [re.sub], [re.search] and
    [re.findall] all walk the subject from the left, take the match that
    starts at the current position if there is one, and resume after it.
    [m s] is the match at the head of [s]: its length and its groups.  A
    match of length zero is not taken: no pattern of this program matches
    the empty string, and the one [str] method that is handed a pattern at
    run time, [replace], treats the empty pattern apart. *)

Inductive piece (G : Type) : Type :=
| Gap (c : char)
| Hit (text : str) (groups : G).
Arguments Gap {G} c.
Arguments Hit {G} text groups.

Fixpoint pieces_from (G : Type) (m : str -> option (nat * G))
    (skip : nat) (s : str) : list (piece G) :=
  match s with
  | [] => []
  | c :: s' =>
      match skip with
      | S k => pieces_from m k s'
      | O =>
          match m s with
          | Some (S n, g) => Hit (firstn (S n) s) g :: pieces_from m n s'
          | _ => Gap c :: pieces_from m 0 s'
          end
      end
  end.

Definition pieces (G : Type) (m : str -> option (nat * G)) (s : str)
  : list (piece G) := pieces_from m 0 s.

(** The texts between the hits: the result of a split. *)
Fixpoint parts (G : Type) (ps : list (piece G)) : list str :=
  match ps with
  | [] => [[]]
  | Gap c :: ps' =>
      match parts ps' with
      | p :: r => (c :: p) :: r
      | [] => [[c]]
      end
  | Hit _ _ :: ps' => [] :: parts ps'
  end.

(** The subject with every hit replaced by [f text groups]. *)
Definition substitute (G : Type) (f : str -> G -> str)
    (ps : list (piece G)) : str :=
  flat_map (fun p => match p with
                     | Gap c => [c]
                     | Hit t g => f t g
                     end) ps.

Fixpoint hits (G : Type) (ps : list (piece G)) : list (str * G) :=
  match ps with
  | [] => []
  | Gap _ :: ps' => hits ps'
  | Hit t g :: ps' => (t, g) :: hits ps'
  end.

(** Match of a literal at the head of the subject. *)
Definition lit_at (p s : str) : option (nat * unit) :=
  match strip_prefix p s with
  | Some _ => Some (length p, tt)
  | None => None
  end.

(** [s.split(sep)] for a non-empty [sep] (the program passes a constant). *)
Definition split (sep s : str) : list str := parts (pieces (lit_at sep) s).

(** [s.replace(old, new)]; the empty pattern matches before every character
    and at the end. *)
Definition replace (old new s : str) : str :=
  match old with
  | [] => new ++ flat_map (fun c => c :: new) s
  | _ => substitute (fun _ _ => new) (pieces (lit_at old) s)
  end.

(** ** The [re] module

    The patterns of the program use literals, character classes, optional
    groups, capture groups and the repetition of one class, greedy or lazy.
    [run] is the backtracking matcher of [re]: it tries the alternatives in
    the order [re] does and hands the rest of the subject and the captures
    to the continuation; a continuation that fails makes it backtrack. *)

Inductive regex : Type :=
| Eps
| Cls (f : char -> bool)
| Cat (r1 r2 : regex)
| Opt (r : regex)
| Star (f : char -> bool)
| LazyStar (f : char -> bool)
| Grp (i : nat) (r : regex).

Definition captures := list (nat * str).

Fixpoint group (i : nat) (caps : captures) : option str :=
  match caps with
  | [] => None
  | (j, t) :: caps' => if Nat.eqb i j then Some t else group i caps'
  end.

Section Run.
Variable A : Type.

Fixpoint greedy (f : char -> bool) (k : str -> option A) (s : str)
  : option A :=
  match s with
  | c :: s' =>
      if f c then
        match greedy f k s' with
        | Some a => Some a
        | None => k s
        end
      else k s
  | [] => k s
  end.

Fixpoint lazy (f : char -> bool) (k : str -> option A) (s : str)
  : option A :=
  match k s with
  | Some a => Some a
  | None =>
      match s with
      | c :: s' => if f c then lazy f k s' else None
      | [] => None
      end
  end.

Fixpoint run (r : regex) (s : str) (caps : captures)
    (k : str -> captures -> option A) : option A :=
  match r with
  | Eps => k s caps
  | Cls f =>
      match s with
      | c :: s' => if f c then k s' caps else None
      | [] => None
      end
  | Cat r1 r2 => run r1 s caps (fun s' caps' => run r2 s' caps' k)
  | Opt r1 =>
      match run r1 s caps k with
      | Some a => Some a
      | None => k s caps
      end
  | Star f => greedy f (fun s' => k s' caps) s
  | LazyStar f => lazy f (fun s' => k s' caps) s
  | Grp i r1 =>
      run r1 s caps
        (fun s' caps' =>
           k s' ((i, firstn (length s - length s') s) :: caps'))
  end.
End Run.

(** The match of [r] that starts at the head of [s]. *)
Definition match_at (r : regex) (s : str) : option (nat * captures) :=
  run r s [] (fun s' caps => Some (length s - length s', caps)).

Definition Lit (p : str) : regex :=
  fold_right (fun c r => Cat (Cls (chr_eqb c)) r) Eps p.

Definition Plus (f : char -> bool) : regex := Cat (Cls f) (Star f).

(** A cased ASCII letter [l] (given in lower case) under [(?i)] on a [str]
    pattern: the characters whose lower case is [l], and for [i], [k] and
    [s] the characters [sre] lists as their equivalents. *)
Definition ignore_case (l : char) (c : char) : bool :=
  (chr_eqb c l || chr_eqb c (l - 32)
   || (chr_eqb l 105 && (chr_eqb c 304 || chr_eqb c 305))
   || (chr_eqb l 107 && chr_eqb c 8490)
   || (chr_eqb l 115 && chr_eqb c 383))%N%bool.

Definition is_lower_ascii (c : char) : bool := in_range 97%N 122%N c.

(** A literal under [(?i)]; uncased characters match themselves. *)
Definition LitI (p : str) : regex :=
  fold_right
    (fun c r =>
       Cat (Cls (if is_lower_ascii c then ignore_case c else chr_eqb c)) r)
    Eps p.

(** [.] without [re.DOTALL] *)
Definition dot (c : char) : bool := negb (chr_eqb c 10%N).

(** [re.search(r, s)]: the groups and the text of the leftmost match. *)
Definition search (r : regex) (s : str) : option (str * captures) :=
  match hits (pieces (match_at r) s) with
  | h :: _ => Some h
  | [] => None
  end.

(** [re.sub(r, repl, s)], [repl] a function of the match. *)
Definition sub (r : regex) (repl : str -> captures -> str) (s : str)
  : str := substitute repl (pieces (match_at r) s).

(** [re.split(r, s)] for a pattern without capture groups. *)
Definition re_split (r : regex) (s : str) : list str :=
  parts (pieces (match_at r) s).

(** [re.findall(r, s)] for a pattern with one capture group. *)
Definition findall (r : regex) (s : str) : list str :=
  map (fun h => match group 1 (snd h) with
                | Some t => t
                | None => []
                end) (hits (pieces (match_at r) s)).

(** ** [str.encode('utf-8')] and [zlib.crc32]

    A text that was decoded from a UTF-8 file holds no surrogate, so
    [encode] cannot raise on the texts of this program; a surrogate is
    encoded like any other code point of its range. *)

Definition byte := Z.

Local Open Scope Z_scope.

Definition utf8_char (c : char) : list byte :=
  let z := Z.of_N c in
  if z <? 128 then [z]
  else if z <? 2048 then
    [Z.lor 192 (Z.shiftr z 6); Z.lor 128 (Z.land z 63)]
  else if z <? 65536 then
    [Z.lor 224 (Z.shiftr z 12); Z.lor 128 (Z.land (Z.shiftr z 6) 63);
     Z.lor 128 (Z.land z 63)]
  else
    [Z.lor 240 (Z.land (Z.shiftr z 18) 7);
     Z.lor 128 (Z.land (Z.shiftr z 12) 63);
     Z.lor 128 (Z.land (Z.shiftr z 6) 63); Z.lor 128 (Z.land z 63)].

Definition encode_utf8 (s : str) : list byte := flat_map utf8_char s.

(** CRC-32 of zlib (reflected polynomial [0xEDB88320]), bit by bit. *)
Definition crc_shift (crc : Z) : Z :=
  if Z.testbit crc 0 then Z.lxor (Z.shiftr crc 1) 0xEDB88320
  else Z.shiftr crc 1.

Definition crc_byte (crc b : Z) : Z :=
  Nat.iter 8 crc_shift (Z.lxor crc (Z.land b 255)).

Definition crc32 (bs : list byte) : Z :=
  Z.lxor (fold_left crc_byte bs 0xFFFFFFFF) 0xFFFFFFFF.

(** ** [str(n)] and [int(s)] *)

Definition str_of_int (z : Z) : str :=
  lit (NilZero.string_of_int (Z.to_int z)).

(** The value of a run of decimal digits, most significant first. *)
Definition digits_value (s : str) : Z :=
  fold_left (fun acc c => 10 * acc + digit_value c) s 0.

Local Close Scope Z_scope.

(** The default of [sys.get_int_max_str_digits()]. *)
Definition int_max_str_digits : nat := 4300.

End Py.

Import Py.

(* ================================================================== *)
(** * The program [anki2.py] *)
(* ================================================================== *)

(** ** Exceptions and the state of a run

    A run reads and writes the documents of the note folder and posts
    requests to the AnkiConnect endpoint.  Exceptions are never caught on
    the paths modelled here: a raised exception ends the run. *)

Inductive exn : Type :=
| TypeError
| ValueError
| OSError
| RequestException.

Inductive result (A : Type) : Type :=
| Ok (a : A)
| Raise (e : exn).
Arguments Ok {A} a.
Arguments Raise {A} e.

(** The body of a request, as [AnkiConnect] builds it; a field that holds
    [None] is sent as [null]. *)
Inductive request : Type :=
| deckNames
| createDeck (deck : str)
| updateNoteFields (id : Z) (Front Back : option str)
| addNote (deckName modelName : str) (Front Back : option str)
| storeMediaFile (filename data : str).

Record World : Type := mkWorld {
  disk : list (str * str);     (* the entries of the note folder *)
  posted : list request        (* the requests posted so far *)
}.

Definition M (A : Type) : Type := World -> result A * World.

Definition ret (A : Type) (a : A) : M A := fun w => (Ok a, w).

Definition raise (A : Type) (e : exn) : M A := fun w => (Raise e, w).
Arguments raise {A} e.

Definition bind (A B : Type) (c : M A) (k : A -> M B) : M B :=
  fun w =>
    match c w with
    | (Ok a, w') => k a w'
    | (Raise e, w') => (Raise e, w')
    end.

Notation "x <- c ;; k" := (bind c (fun x => k))
  (at level 61, c at next level, right associativity).
Notation "c ;;; k" := (bind c (fun _ => k))
  (at level 61, right associativity).

(** [for x in l: body x], the loop variable being rebound to what the body
    leaves in it. *)
Fixpoint for_each (A B : Type) (body : A -> M B) (l : list A)
  : M (list B) :=
  match l with
  | [] => ret []
  | x :: l' => y <- body x ;; ys <- for_each body l' ;; ret (y :: ys)
  end.

(** ** The collaborators outside the repository

    [markdown] is [markdown2.markdown] with the two extras of the program.
    The endpoint answers a request, given the requests it has received:
    [fails] tells that [requests.post] or [response.json()] raises;
    [deck_list] and [note_id] are the member [result] of the answer to
    [deckNames] and to [addNote] (outer [None]: the answer has no such
    member; inner [None]: it is [null]).  [attachment] is what
    [AttachmentManager.get_file_base64_content] returns for a file name. *)

Record Server : Type := mkServer {
  fails : list request -> request -> bool;
  deck_list : list request -> option (option (list str));
  note_id : list request -> request -> option (option Z)
}.

Record Env : Type := mkEnv {
  markdown : str -> str;
  server : Server;
  attachment : str -> option str
}.

(** ** Class constants *)

(** [r'!\[\[(.*?)\]\]'] *)
Definition EMBED_FILENAME_REGEX : regex :=
  Cat (Lit (lit "![[")) (Cat (Grp 1 (LazyStar dot)) (Lit (lit "]]"))).

(** ['---'] *)
Definition FLASHCARD_SEPARATOR : str := lit "---".

(** [r'<!--Meta:id=(\d+)(?:;sum=(-?\d+))?-->'] *)
Definition ANKI_META_REGEX : regex :=
  Cat (Lit (lit "<!--Meta:id="))
    (Cat (Grp 1 (Plus is_decimal))
       (Cat (Opt (Cat (Lit (lit ";sum="))
                    (Grp 2 (Cat (Opt (Cls (chr_eqb 45%N)))
                              (Plus is_decimal)))))
          (Lit (lit "-->")))).

(** [r'(?i)#flashcard\s*'] *)
Definition FLASHCARD_REGEX : regex :=
  Cat (LitI (lit "#flashcard")) (Star is_space).

(** ** [class Flashcard] *)

Inductive State : Type := STATE_INSERT | STATE_UPDATE.

(** [anki_id] holds the digits of the marker, or the number the endpoint
    assigned. *)
Inductive ident : Type :=
| IdText (s : str)
| IdNum (z : Z).

Record Flashcard : Type := mkFlashcard {
  medias : list str;            (* a set: no duplicates *)
  front : str;
  back : str;
  state : option State;
  back_html : option str;
  front_html : option str;
  card_sum : option Z;
  checksum : option str;
  anki_id : option ident;
  _meta_value : option str
}.

Definition option_str_eqb (a b : option str) : bool :=
  match a, b with
  | Some x, Some y => str_eqb x y
  | None, None => true
  | _, _ => false
  end.

(** [set.update] *)
Definition set_update (s : list str) (xs : list str) : list str :=
  fold_left (fun acc x => if existsb (str_eqb x) acc then acc
                          else acc ++ [x]) xs s.

(** [str()] of the two values an f-string of [update_meta] formats. *)
Definition format_id (i : option ident) : str :=
  match i with
  | None => lit "None"
  | Some (IdText s) => s
  | Some (IdNum z) => str_of_int z
  end.

Definition format_sum (n : option Z) : str :=
  match n with
  | None => lit "None"
  | Some z => str_of_int z
  end.

Module Flashcard.

(** [__init__] *)
Definition init (front back : str) : Flashcard :=
  {| medias := []; front := front; back := back; state := None;
     back_html := None; front_html := None; card_sum := None;
     checksum := None; anki_id := None; _meta_value := None |}.

Definition _extract_anki_meta (text : str)
  : option ident * option str * option str :=
  match search ANKI_META_REGEX text with
  | Some (m, caps) =>
      (option_map IdText (group 1 caps), group 2 caps, Some m)
  | None => (None, None, None)
  end.

Definition _generate_card_sum (c : Flashcard) : Z :=
  let data := strip (sub ANKI_META_REGEX (fun _ _ => []) (back c)) in
  crc32 (encode_utf8 (front c ++ data)).

Definition _convert_to_html (E : Env) (markdown_text : str) : str :=
  let html := markdown E markdown_text in
  sub EMBED_FILENAME_REGEX
    (fun _ caps =>
       lit "<img src='"
       ++ match group 1 caps with Some t => t | None => [] end
       ++ lit "' />") html.

Definition _extract_medias (c : Flashcard) : list str :=
  set_update
    (set_update (medias c) (findall EMBED_FILENAME_REGEX (front c)))
    (findall EMBED_FILENAME_REGEX (back c)).

Definition analyze (E : Env) (c : Flashcard) : Flashcard :=
  let '(id, sum, meta) := _extract_anki_meta (back c) in
  let crc := _generate_card_sum c in
  let decide (st : option State) : Flashcard :=
    {| medias := medias c; front := front c; back := back c;
       state := st; back_html := back_html c;
       front_html := front_html c; card_sum := Some crc;
       checksum := sum; anki_id := id; _meta_value := meta |} in
  let render (c1 : Flashcard) : Flashcard :=
    {| medias := _extract_medias c1; front := front c1; back := back c1;
       state := state c1;
       back_html := Some (_convert_to_html E (back c1));
       front_html := Some (_convert_to_html E (front c1));
       card_sum := card_sum c1; checksum := checksum c1;
       anki_id := anki_id c1; _meta_value := _meta_value c1 |} in
  match id with
  | None => render (decide (Some STATE_INSERT))
  | Some _ =>
      if negb (option_str_eqb (Some (str_of_int crc)) sum)
      then render (decide (Some STATE_UPDATE))
      else decide (state c)
  end.

Definition update_meta (c : Flashcard) (origin : str) : result str :=
  match state c with
  | None => Ok origin
  | Some _ =>
      let meta_value :=
        lit "<!--Meta:id=" ++ format_id (anki_id c) ++ lit ";sum="
        ++ format_sum (card_sum c) ++ lit "-->" in
      match _meta_value c with
      | Some old => Ok (replace old meta_value origin)
      | None => Raise TypeError
      end
  end.

End Flashcard.

(** ** [class MarkdownFlashcardExtractor] *)

Module MarkdownFlashcardExtractor.

Definition _read_file (file_path : str) : M str :=
  fun w =>
    match find (fun e => str_eqb (fst e) file_path) (disk w) with
    | Some e => (Ok (snd e), w)
    | None => (Raise OSError, w)
    end.

Definition _parse_flashcards (content : str) : list Flashcard :=
  let cards_raw := split FLASHCARD_SEPARATOR content in
  flat_map
    (fun card_raw =>
       match re_split FLASHCARD_REGEX card_raw with
       | [front; back] => [Flashcard.init (strip front) (strip back)]
       | _ => []
       end) cards_raw.

Definition extract_flashcards (file_path : str)
  : M (list Flashcard * str) :=
  content <- _read_file file_path ;;
  ret (_parse_flashcards content, content).

End MarkdownFlashcardExtractor.

(** ** [class AnkiConnect] *)

Record AnkiConnect : Type := mkAnkiConnect {
  deck_name : str;
  model_name : str
}.

Module AnkiConnect.

(** [invoke]: the request is posted; the call raises when the transport
    or the decoding of the answer does, and returns the part of the
    answer that the caller reads otherwise. *)
Definition invoke (A : Type) (E : Env)
    (answer : Server -> list request -> A) (req : request) : M A :=
  fun w =>
    let w' := {| disk := disk w; posted := posted w ++ [req] |} in
    if fails (server E) (posted w) req
    then (Raise RequestException, w')
    else (Ok (answer (server E) (posted w)), w').

(** [deck_names]: [None] is Python's [None]. *)
Definition deck_names (E : Env) : M (option (list str)) :=
  resp <- invoke E deck_list deckNames ;;
  match resp with
  | Some decks => ret decks
  | None => ret (Some [])
  end.

(** [create_deck(self)] takes no argument besides [self]; [args] are the
    positional arguments of the call. *)
Definition create_deck (E : Env) (self : AnkiConnect) (args : list str)
  : M unit :=
  match args with
  | [] => invoke E (fun _ _ => tt) (createDeck (deck_name self))
  | _ :: _ => raise TypeError
  end.

Definition update_note (E : Env) (note_id : Z) (front back : option str)
  : M unit :=
  invoke E (fun _ _ => tt) (updateNoteFields note_id front back).

Definition add_note (E : Env) (self : AnkiConnect)
    (front back : option str) : M (option (option Z)) :=
  let req := addNote (deck_name self) (model_name self) front back in
  invoke E (fun s h => note_id s h req) req.

(** [os.path.basename] *)
Definition basename (path : str) : str :=
  last (split (lit "/") path) [].

Definition add_media_file (E : Env) (filename file_base64 : str)
  : M unit :=
  invoke E (fun _ _ => tt) (storeMediaFile (basename filename) file_base64).

End AnkiConnect.

(** ** [class CardMarker] *)

(** [int(s)] on a run of decimal digits; CPython refuses a run longer
    than [int_max_str_digits].  The other spellings [int] accepts (sign,
    blanks, underscores) do not occur in a matched [\d+]. *)
Definition int_of_str (s : str) : result Z :=
  match s with
  | [] => Raise ValueError
  | _ =>
      if forallb is_decimal s && Nat.leb (length s) int_max_str_digits
      then Ok (digits_value s)
      else Raise ValueError
  end.

(** [int(flashcard.anki_id)] *)
Definition int_of_id (i : option ident) : result Z :=
  match i with
  | None => Raise TypeError
  | Some (IdText s) => int_of_str s
  | Some (IdNum z) => Ok z
  end.

Definition lift (A : Type) (r : result A) : M A := fun w => (r, w).

Definition set_anki_id (c : Flashcard) (i : option ident) : Flashcard :=
  {| medias := medias c; front := front c; back := back c;
     state := state c; back_html := back_html c;
     front_html := front_html c; card_sum := card_sum c;
     checksum := checksum c; anki_id := i; _meta_value := _meta_value c |}.

Module CardMarker.

Definition sync_card (E : Env) (anki : AnkiConnect) (flashcard : Flashcard)
  : M Flashcard :=
  match state flashcard with
  | Some STATE_UPDATE =>
      id <- lift (int_of_id (anki_id flashcard)) ;;
      AnkiConnect.update_note E id (front_html flashcard)
        (back_html flashcard) ;;;
      ret flashcard
  | Some STATE_INSERT =>
      result <- AnkiConnect.add_note E anki (front_html flashcard)
                  (back_html flashcard) ;;
      match result with
      | Some new_id => ret (set_anki_id flashcard (option_map IdNum new_id))
      | None => ret flashcard
      end
  | None => ret flashcard
  end.

(** The body of the loop of [make_cards]. *)
Definition make_card (E : Env) (anki : AnkiConnect) (flashcard : Flashcard)
  : M Flashcard :=
  let flashcard := Flashcard.analyze E flashcard in
  match state flashcard with
  | None => ret flashcard
  | Some _ => sync_card E anki flashcard
  end.

Definition make_cards (E : Env) (anki : AnkiConnect) (markdown_file : str)
  : M (list Flashcard * str) :=
  extracted <- MarkdownFlashcardExtractor.extract_flashcards markdown_file ;;
  let '(flashcards, original_content) := extracted in
  flashcards' <- for_each (make_card E anki) flashcards ;;
  ret (flashcards', original_content).

(** The set of all media names is walked in an order the runtime
    chooses; the model walks it in the order of first appearance. *)
Definition sync_medias (E : Env) (flashcards : list Flashcard) : M unit :=
  let all := fold_left (fun acc c => set_update acc (medias c))
               flashcards [] in
  match all with
  | [] => ret tt
  | _ =>
      for_each
        (fun media =>
           match attachment E media with
           | Some ((_ :: _) as base64_attach) =>
               AnkiConnect.add_media_file E media base64_attach
           | _ => ret tt
           end) all ;;;
      ret tt
  end.

End CardMarker.

(** ** Module-level functions *)

Definition prepare_deck (E : Env) (name : str) (anki : AnkiConnect)
  : M unit :=
  decks <- AnkiConnect.deck_names E ;;
  match decks with
  | None => raise TypeError
  | Some names =>
      if negb (existsb (str_eqb name) names)
      then AnkiConnect.create_deck E anki [name]
      else ret tt
  end.

(** The text [update_content] accumulates. *)
Fixpoint rewrite_markers (flashcards : list Flashcard) (data : str)
  : result str :=
  match flashcards with
  | [] => Ok data
  | flashcard :: rest =>
      match Flashcard.update_meta flashcard data with
      | Ok data' => rewrite_markers rest data'
      | Raise e => Raise e
      end
  end.

Definition write_file (file_path data : str) : M unit :=
  fun w =>
    (Ok tt,
     {| disk := map (fun e => if str_eqb (fst e) file_path
                              then (fst e, data) else e) (disk w);
        posted := posted w |}).

Definition update_content (flashcards : list Flashcard)
    (original_content file_path : str) : M unit :=
  data <- lift (rewrite_markers flashcards original_content) ;;
  if negb (str_eqb data original_content)
  then write_file file_path data
  else ret tt.

(** [s.endswith(suffix)] *)
Definition endswith (suffix s : str) : bool :=
  match strip_prefix (rev suffix) (rev s) with
  | Some _ => true
  | None => false
  end.

(** The body of the loop of [main]. *)
Definition sync_file (E : Env) (anki : AnkiConnect) (markdown_file : str)
  : M unit :=
  made <- CardMarker.make_cards E anki markdown_file ;;
  let '(flashcards, content) := made in
  CardMarker.sync_medias E flashcards ;;;
  update_content flashcards content markdown_file.

(** [main]: the entries of the folder stand for [os.listdir]. *)
Definition main (E : Env) (deck model : str) : M unit :=
  fun w =>
    let markdown_files :=
      filter (fun file => endswith (lit ".md") file
                          || endswith (lit ".markdown") file)
        (map fst (disk w)) in
    let anki_connect := {| deck_name := deck; model_name := model |} in
    (prepare_deck E deck anki_connect ;;;
     for_each (sync_file E anki_connect) markdown_files ;;;
     ret tt) w.

(* ================================================================== *)
(** * The attachments of the vault *)
(* ================================================================== *)

(** ** [base64.b64encode] and [os.path.join] *)

Definition b64_alphabet : str :=
  lit "ABCDEFGHIJKLMNOPQRSTUVWXYZabcdefghijklmnopqrstuvwxyz0123456789+/".

Definition b64_char (i : Z) : char := nth (Z.to_nat i) b64_alphabet 0%N.

(** [base64.b64encode(bs).decode('utf-8')]: three bytes give four
    characters; a last group of one or two bytes is padded with [=]. *)
Fixpoint b64encode (bs : list byte) : str :=
  match bs with
  | [] => []
  | [a] =>
      [b64_char (Z.shiftr a 2); b64_char (Z.shiftl (Z.land a 3) 4);
       61%N; 61%N]
  | [a; b] =>
      [b64_char (Z.shiftr a 2);
       b64_char (Z.lor (Z.shiftl (Z.land a 3) 4) (Z.shiftr b 4));
       b64_char (Z.shiftl (Z.land b 15) 2); 61%N]
  | a :: b :: c :: rest =>
      b64_char (Z.shiftr a 2)
      :: b64_char (Z.lor (Z.shiftl (Z.land a 3) 4) (Z.shiftr b 4))
      :: b64_char (Z.lor (Z.shiftl (Z.land b 15) 2) (Z.shiftr c 6))
      :: b64_char (Z.land c 63) :: b64encode rest
  end.

(** [s.startswith(prefix)] *)
Definition startswith (prefix s : str) : bool :=
  match strip_prefix prefix s with
  | Some _ => true
  | None => false
  end.

(** [os.path.join(a, b)] of [posixpath] *)
Definition path_join (a b : str) : str :=
  if startswith (lit "/") b then b
  else
    match a with
    | [] => a ++ b
    | _ => if endswith (lit "/") a then a ++ b else a ++ lit "/" ++ b
    end.

(** ** The vault on disk

    A value that [json.load] returns; of a number the program can only
    see whether it is zero. *)
#[local] Unset Elimination Schemes.
Inductive json : Type :=
| JNull
| JBool (b : bool)
| JNumber (nonzero : bool)
| JString (s : str)
| JArray (items : list json)
| JObject (members : list (str * json)).
#[local] Set Elimination Schemes.

(** What [open] and [json.load] do on [.obsidian/app.json]. *)
Inductive exn' : Type :=
| AttributeError
| PathTypeError          (* [TypeError] of [os.path.join] *)
| OtherError.            (* an exception that is neither
                            [FileNotFoundError] nor [JSONDecodeError] *)

Inductive loaded : Type :=
| NotFound               (* [FileNotFoundError] *)
| NotJson                (* [json.JSONDecodeError] *)
| Unreadable             (* any other exception *)
| Loaded (v : json).

Inductive outcome (A : Type) : Type :=
| Done (a : A)
| Fail (e : exn').
Arguments Done {A} a.
Arguments Fail {A} e.

(** The file system under the vault: the configuration file, the pairs
    (folder, file names) that [os.walk(top)] yields, in its order,
    [os.path.relpath], and the bytes of a file ([None]: [open] or [read]
    raises an [OSError]). *)
Record Vault : Type := mkVault {
  vault_path : str;
  app_json : loaded;
  walk : str -> list (str * list str);
  relpath : str -> str -> str;
  read_bytes : str -> option (list byte)
}.

(** A Python [dict] with [str] keys: the items in insertion order. *)
Definition dict := list (str * str).

(** [d[k] = v] *)
Fixpoint dict_set (d : dict) (k v : str) : dict :=
  match d with
  | [] => [(k, v)]
  | (k', v') :: d' =>
      if str_eqb k' k then (k', v) :: d' else (k', v') :: dict_set d' k v
  end.

(** [d.get(k)] *)
Definition dict_get (d : dict) (k : str) : option str :=
  option_map snd (find (fun e => str_eqb (fst e) k) d).

(** [bool(v)] *)
Definition truthy (v : json) : bool :=
  match v with
  | JNull => false
  | JBool b => b
  | JNumber nonzero => nonzero
  | JString s => match s with [] => false | _ => true end
  | JArray items => match items with [] => false | _ => true end
  | JObject members => match members with [] => false | _ => true end
  end.

(** ** [class AttachmentManager]

    The state of a manager is its [dict_cache]. *)

Module AttachmentManager.

Definition _extract_attachment_folder_path (V : Vault) : outcome json :=
  match app_json V with
  | NotFound | NotJson => Done (JString [])
  | Unreadable => Fail OtherError
  | Loaded (JObject members) =>
      match find (fun e => str_eqb (fst e) (lit "attachmentFolderPath"))
              members with
      | Some e => Done (snd e)
      | None => Done (JString [])
      end
  | Loaded _ => Fail AttributeError
  end.

Definition _build_attachment_dict (V : Vault) : outcome dict :=
  match _extract_attachment_folder_path V with
  | Fail e => Fail e
  | Done attachment_folder =>
      if negb (truthy attachment_folder) then Done []
      else
        match attachment_folder with
        | JString folder =>
            let attachment_path := path_join (vault_path V) folder in
            Done
              (fold_left
                 (fun attachment_dict root_files =>
                    fold_left
                      (fun attachment_dict filename =>
                         let full_path :=
                           path_join (fst root_files) filename in
                         let relative_path :=
                           relpath V full_path (vault_path V) in
                         dict_set attachment_dict filename relative_path)
                      (snd root_files) attachment_dict)
                 (walk V attachment_path) [])
        | _ => Fail PathTypeError
        end
  end.

(** The property [attachment_dict]: the dictionary and the cache it
    leaves. *)
Definition attachment_dict (V : Vault) (dict_cache : option dict)
  : outcome dict * option dict :=
  match dict_cache with
  | Some d => (Done d, dict_cache)
  | None =>
      match _build_attachment_dict V with
      | Done d => (Done d, Some d)
      | Fail e => (Fail e, None)
      end
  end.

Definition get_file_base64_content (V : Vault) (dict_cache : option dict)
    (filename : str) : outcome (option str) * option dict :=
  match attachment_dict V dict_cache with
  | (Fail e, cache) => (Fail e, cache)
  | (Done d, cache) =>
      match dict_get d filename with
      | Some relative =>
          let file_path := path_join (vault_path V) relative in
          match read_bytes V file_path with
          | Some file_content => (Done (Some (b64encode file_content)), cache)
          | None => (Done None, cache)
          end
      | None => (Done None, cache)
      end
  end.

End AttachmentManager.

(** ** The command line

    [args.deck_name], as the script passes it to [main]: the option when
    it is given, the note path with [/] turned into [::] otherwise. *)
Definition deck_of_args (deck_name : option str) (note_path : str) : str :=
  match deck_name with
  | None => replace (lit "/") (lit "::") note_path
  | Some name => name
  end.

(* ================================================================== *)
(** * Notions used to state the properties *)
(* ================================================================== *)

Fixpoint takewhile (f : char -> bool) (s : str) : str :=
  match s with
  | c :: s' => if f c then c :: takewhile f s' else []
  | [] => []
  end.

Fixpoint dropwhile (f : char -> bool) (s : str) : str :=
  match s with
  | c :: s' => if f c then dropwhile f s' else s
  | [] => []
  end.

(** The text of a marker that carries the id [id] and, when [sum] is
    given, the fingerprint text [sum]. *)
Definition marker (id : str) (sum : option str) : str :=
  lit "<!--Meta:id=" ++ id
  ++ match sum with
     | Some t => lit ";sum=" ++ t
     | None => []
     end
  ++ lit "-->".

(** What the groups of the marker pattern hold after a match. *)
Definition marker_groups (id : str) (sum : option str) : captures :=
  match sum with
  | Some t => [(2, t); (1, id)]
  | None => [(1, id)]
  end.

(** A run of decimal digits, as [\d+] matches it. *)
Definition digits (s : str) : Prop := s <> [] /\ forallb is_decimal s = true.

(** A fingerprint text, as [-?\d+] matches it. *)
Definition signed_digits (t : str) : Prop :=
  digits t \/ exists ds, t = 45%N :: ds /\ digits ds.

Definition sum_ok (sum : option str) : Prop :=
  match sum with
  | Some t => signed_digits t
  | None => True
  end.

(** The marker at the head of a text, read deterministically: the id and
    the fingerprint text. *)
Definition sum_at (s2 : str) : option str :=
  match strip_prefix (lit ";sum=") s2 with
  | Some s3 =>
      let sign := match s3 with
                  | c :: _ => if chr_eqb 45%N c then [c] else []
                  | [] => []
                  end in
      let s4 := skipn (length sign) s3 in
      match takewhile is_decimal s4,
            strip_prefix (lit "-->") (dropwhile is_decimal s4) with
      | (_ :: _) as ds, Some _ => Some (sign ++ ds)
      | _, _ => None
      end
  | None => None
  end.

Definition meta_at (s : str) : option (str * option str) :=
  match strip_prefix (lit "<!--Meta:id=") s with
  | Some s1 =>
      match takewhile is_decimal s1 with
      | [] => None
      | id =>
          let s2 := dropwhile is_decimal s1 in
          match sum_at s2 with
          | Some t => Some (id, Some t)
          | None =>
              match strip_prefix (lit "-->") s2 with
              | Some _ => Some (id, None)
              | None => None
              end
          end
      end
  | None => None
  end.

(** The markers of a text, in place: its pieces under the marker pattern. *)
Definition meta_pieces (s : str) : list (piece captures) :=
  pieces (match_at ANKI_META_REGEX) s.

(** The characters a marker can hold after its opening [<]. *)
Definition marker_char (c : char) : bool :=
  is_decimal c || existsb (chr_eqb c) (lit "!-Meta:id=;sum>").

(** The code points of [is_space]. *)
Definition spaces : list char :=
  [9; 10; 11; 12; 13; 28; 29; 30; 31; 32; 133; 160; 5760; 8192; 8193; 8194;
   8195; 8196; 8197; 8198; 8199; 8200; 8201; 8202; 8232; 8233; 8239; 8287;
   12288]%N.

(** No marker starts anywhere in the text. *)
Fixpoint marker_free (s : str) : bool :=
  match s with
  | [] => true
  | _ :: s' =>
      match meta_at s with
      | Some _ => false
      | None => marker_free s'
      end
  end.

(** [re.sub(ANKI_META_REGEX, '', s)] *)
Definition erase (s : str) : str := sub ANKI_META_REGEX (fun _ _ => []) s.

(** [b] is empty or opens with a character that no marker holds inside. *)
Definition closed_head (b : str) : Prop :=
  match b with
  | [] => True
  | c :: _ => marker_char c = false
  end.

(** A 32-bit value. *)
Definition word (x : Z) : Prop := (0 <= x < 2 ^ 32)%Z.

Definition digit_step (acc : Z) (c : char) : Z :=
  (10 * acc + digit_value c)%Z.

(** An endpoint that answers every request, knows the deck [Default] and
    assigns the id 1600000000000; with it, an environment whose renderer
    leaves the text as it is and whose vault holds no attachment. *)
Definition obliging_server : Server :=
  {| fails := fun _ _ => false;
     deck_list := fun _ => Some (Some [lit "Default"]);
     note_id := fun _ _ => Some (Some 1600000000000%Z) |}.

Definition demo_env : Env :=
  {| markdown := fun s => s;
     server := obliging_server;
     attachment := fun _ => None |}.

Definition demo_anki : AnkiConnect :=
  {| deck_name := lit "Default"; model_name := lit "Basic" |}.

(** The document of the extraction example. *)
Definition extraction_example : str :=
  lit "A" ++ [10%N] ++ lit "---" ++ [10%N] ++ lit "front1" ++ [10%N]
  ++ lit "#flashcard" ++ [10%N] ++ lit "back1" ++ [10%N] ++ lit "---"
  ++ [10%N] ++ lit "notacard".

(** The files [main] walks: the entries with a Markdown extension. *)
Definition markdown_files (w : World) : list str :=
  filter (fun file => endswith (lit ".md") file
                      || endswith (lit ".markdown") file)
    (map fst (disk w)).

(** A document of three cards whose markers are stale, and an endpoint
    that fails on the update of note 2. *)
Definition three_cards : str :=
  lit "Q1" ++ [10%N] ++ lit "#flashcard" ++ [10%N]
  ++ lit "A1<!--Meta:id=1;sum=0-->" ++ [10%N] ++ lit "---" ++ [10%N]
  ++ lit "Q2" ++ [10%N] ++ lit "#flashcard" ++ [10%N]
  ++ lit "A2<!--Meta:id=2;sum=0-->" ++ [10%N] ++ lit "---" ++ [10%N]
  ++ lit "Q3" ++ [10%N] ++ lit "#flashcard" ++ [10%N]
  ++ lit "A3<!--Meta:id=3;sum=0-->".

Definition failing_on_2 : Server :=
  {| fails := fun _ req =>
                match req with
                | updateNoteFields 2 _ _ => true
                | _ => false
                end;
     deck_list := fun _ => Some (Some [lit "Default"]);
     note_id := fun _ _ => Some (Some 1600000000000%Z) |}.

Definition failing_env : Env :=
  {| markdown := fun s => s;
     server := failing_on_2;
     attachment := fun _ => None |}.

(** A document with one new card. *)
Definition new_card : str :=
  lit "Q" ++ [10%N] ++ lit "#flashcard" ++ [10%N] ++ lit "A".

(** ** Rewriting the markers of a text in place *)

(** A well-formed marker text. *)
Definition is_marker (t : str) : Prop :=
  exists id sum, digits id /\ sum_ok sum /\ t = marker id sum.

(** The text in which every marker [t] is replaced by [r t]. *)
Definition rewrite_text (r : str -> str) (s : str) : str :=
  substitute (fun t _ => r t) (meta_pieces s).

(** [r] maps markers to markers. *)
Definition keeps_markers (r : str -> str) : Prop :=
  forall t, is_marker t -> is_marker (r t).

(** The groups of a marker text. *)
Definition groups_of (t : str) : captures :=
  match match_at ANKI_META_REGEX t with
  | Some (_, g) => g
  | None => []
  end.

Definition retag (r : str -> str) (p : piece captures) : piece captures :=
  match p with
  | Gap c => Gap c
  | Hit t _ => Hit (r t) (groups_of (r t))
  end.

(** The id a marker text carries. *)
Definition id_of (t : str) : str :=
  match meta_at t with
  | Some (id, _) => id
  | None => []
  end.

(** The ids of the markers of a text, in order. *)
Definition marker_ids (s : str) : list str :=
  map (fun h => id_of (fst h)) (hits (meta_pieces s)).

(** What one call of [replace] does to a marker text. *)
Definition swap (old new t : str) : str :=
  if str_eqb t old then new else t.

(** A matcher that never takes a [<], looks no further than the next [<],
    and finds nothing inside a marker: the separator and the tag are
    such. *)
Record oblivious (G : Type) (m : str -> option (nat * G)) : Prop := {
  obl_blind : forall a y y', m (a ++ 60%N :: y) = m (a ++ 60%N :: y');
  obl_hit : forall s n g,
    m s = Some (n, g) ->
    0 < n <= length s
    /\ forallb (fun c => negb (chr_eqb c 60%N)) (firstn n s) = true;
  obl_inside : forall t k rest,
    is_marker t -> k < length t -> m (skipn k t ++ rest) = None
}.

(** [x] put before the first of the parts [l]. *)
Definition prepend (x : str) (l : list str) : list str :=
  match l with
  | p :: q => (x ++ p) :: q
  | [] => [x]
  end.

(** The match of a sequence of classes at the head of a text: the rest. *)
Fixpoint strip_classes (fs : list (char -> bool)) (s : str) : option str :=
  match fs, s with
  | [], _ => Some s
  | f :: fs', c :: s' => if f c then strip_classes fs' s' else None
  | _ :: _, [] => None
  end.

(** The classes of [(?i)#flashcard]. *)
Definition tag_classes : list (char -> bool) :=
  map (fun c => if is_lower_ascii c then ignore_case c else chr_eqb c)
    (lit "#flashcard").

(** The tag at the head of a text, read deterministically: its length. *)
Definition tag_at (s : str) : option nat :=
  match strip_classes tag_classes s with
  | Some rest => Some (10 + length (takewhile is_space rest))
  | None => None
  end.

(** The text opens with the separator. *)
Definition dash3 (s : str) : bool :=
  match s with
  | a :: b :: c :: _ => chr_eqb 45%N a && chr_eqb 45%N b && chr_eqb 45%N c
  | _ => false
  end.

(** No separator starts inside [s], whatever follows it. *)
Definition dash_safe (s : str) : Prop :=
  forall k y, k < length s -> dash3 (skipn k s ++ y) = false.

(** The text does not end in white space. *)
Definition open_end (x : str) : Prop :=
  match rev x with
  | c :: _ => is_space c = false
  | [] => True
  end.

(** The cards of one block, as [_parse_flashcards] makes them. *)
Definition block_cards (card_raw : str) : list Flashcard :=
  match re_split FLASHCARD_REGEX card_raw with
  | [front; back] => [Flashcard.init (strip front) (strip back)]
  | _ => []
  end.

(** A fresh card on the rewritten texts of a card. *)
Definition rewrite_card (r : str -> str) (c : Flashcard) : Flashcard :=
  Flashcard.init (rewrite_text r (front c)) (rewrite_text r (back c)).

(** The ids of the markers of a card, those of the front text first. *)
Definition card_ids (c : Flashcard) : list str :=
  marker_ids (front c) ++ marker_ids (back c).

(** The marker [update_meta] writes for a card. *)
Definition new_marker (c : Flashcard) : str :=
  lit "<!--Meta:id=" ++ format_id (anki_id c) ++ lit ";sum="
  ++ format_sum (card_sum c) ++ lit "-->".

(** What the [replace] of [update_meta] does to a marker text. *)
Definition card_swap (c : Flashcard) (t : str) : str :=
  match state c, _meta_value c with
  | Some _, Some old => swap old (new_marker c) t
  | _, _ => t
  end.

(** What the calls of [update_meta] for a list of cards do to it. *)
Definition chain (cards : list Flashcard) (t : str) : str :=
  fold_left (fun t c => card_swap c t) cards t.

(** A card that was analysed and is not to be created. *)
Definition settled (c : Flashcard) : Prop :=
  state c = None
  \/ exists old, _meta_value c = Some old /\ is_marker old
                 /\ is_marker (new_marker c).

(** The text of a document of the folder. *)
Definition content_of (w : World) (file : str) : option str :=
  option_map snd (find (fun e => str_eqb (fst e) file) (disk w)).

(** A text that a run left of a document whose markers carry distinct
    ids. *)
Definition synced (content : str) : Prop :=
  exists E doc,
    NoDup (marker_ids doc)
    /\ rewrite_markers
         (map (Flashcard.analyze E)
            (MarkdownFlashcardExtractor._parse_flashcards doc)) doc
       = Ok content.

(** A document of two cards whose markers are the same text. *)
Definition twin_markers : str :=
  lit "Q1" ++ [10%N] ++ lit "#flashcard" ++ [10%N]
  ++ lit "A1<!--Meta:id=1;sum=0-->" ++ [10%N] ++ lit "---" ++ [10%N]
  ++ lit "Q2" ++ [10%N] ++ lit "#flashcard" ++ [10%N]
  ++ lit "A2<!--Meta:id=1;sum=0-->".

(** A folder with the document of three stale cards. *)
Definition stale_folder : World :=
  mkWorld [(lit "a.md", three_cards)] [].

(** ** Notions for the further properties *)

(** The matcher [m] finds nothing at any position of [x]. *)
Definition quiet (G : Type) (m : str -> option (nat * G)) (x : str) : Prop :=
  forall pre post, x = pre ++ post -> m post = None.

(** What the loop of [main] may do to the folder: the entries stay, every
    document keeps its text outside the markers and the ids of its
    markers, and an entry that is not among [files] keeps its text. *)
Definition kept (files : list str) (w w' : World) : Prop :=
  map fst (disk w') = map fst (disk w)
  /\ (forall file doc,
        content_of w file = Some doc ->
        exists doc',
          content_of w' file = Some doc'
          /\ erase doc' = erase doc /\ marker_ids doc' = marker_ids doc)
  /\ (forall file, ~ In file files ->
        content_of w' file = content_of w file).

(** The card is to be created or updated. *)
Definition has_state (c : Flashcard) : bool :=
  match state c with
  | Some _ => true
  | None => false
  end.

(** [req] is the request that [sync_card] posts for the analysed card
    [c]. *)
Definition card_request (E : Env) (anki : AnkiConnect) (c : Flashcard)
    (req : request) : Prop :=
  front_html c = Some (Flashcard._convert_to_html E (front c))
  /\ back_html c = Some (Flashcard._convert_to_html E (back c))
  /\ match state c with
     | Some STATE_UPDATE =>
         exists id,
           anki_id c = Some (IdText id) /\ digits id
           /\ length id <= int_max_str_digits
           /\ req = updateNoteFields (digits_value id) (front_html c)
                      (back_html c)
     | Some STATE_INSERT =>
         req = addNote (deck_name anki) (model_name anki) (front_html c)
                 (back_html c)
     | None => False
     end.

(** A request of a run after the deck query: an update or a creation
    with both sides rendered, the creation in the deck and with the model
    of the run, or the upload of a non-empty file under a name without
    [/]. *)
Definition run_request (deck model : str) (req : request) : Prop :=
  match req with
  | updateNoteFields _ (Some _) (Some _) => True
  | addNote d m (Some _) (Some _) => d = deck /\ m = model
  | storeMediaFile filename data => data <> [] /\ ~ In 47%N filename
  | _ => False
  end.

(** The requests posted between two states of a run. *)
Definition sent (P : request -> Prop) (w w' : World) : Prop :=
  exists reqs, posted w' = posted w ++ reqs /\ Forall P reqs.

(** The request [sync_medias] posts for a media name, if it posts one. *)
Definition upload (E : Env) (media : str) : list request :=
  match attachment E media with
  | Some ((_ :: _) as data) =>
      [storeMediaFile (AnkiConnect.basename media) data]
  | _ => []
  end.

(** The name of an embed whose [![[] has been read, with the text after
    its []]]: the name runs up to the first []]] and holds no line
    feed. *)
Fixpoint embed_name (s : str) : option (str * str) :=
  match strip_prefix (lit "]]") s with
  | Some rest => Some ([], rest)
  | None =>
      match s with
      | c :: s' =>
          if dot c then
            match embed_name s' with
            | Some (name, rest) => Some (c :: name, rest)
            | None => None
            end
          else None
      | [] => None
      end
  end.

(** The embed at the head of a text, read deterministically. *)
Definition embed_at (s : str) : option (str * str) :=
  match strip_prefix (lit "![[") s with
  | Some s1 => embed_name s1
  | None => None
  end.

(** The text of the embed of a file name, and the tag that
    [_convert_to_html] puts in its place. *)
Definition embed (name : str) : str := lit "![[" ++ name ++ lit "]]".

Definition img (name : str) : str := lit "<img src='" ++ name ++ lit "' />".

(** A text that can be the name of an embed: no line feed in it, and no
    []]] that starts in it when []]] follows. *)
Definition embed_name_ok (name : str) : Prop :=
  forallb dot name = true
  /\ forall a c b, name = a ++ c :: b ->
                   strip_prefix (lit "]]") (c :: b ++ lit "]]") = None.

(** What a manager whose cache holds the dictionary [d] returns for a
    file name. *)
Definition resolver (V : Vault) (d : dict) (filename : str) : option str :=
  match dict_get d filename with
  | Some relative =>
      option_map b64encode
        (read_bytes V (path_join (vault_path V) relative))
  | None => None
  end.

(** The path [_build_attachment_dict] stores for a file of a folder. *)
Definition stored_path (V : Vault) (root filename : str) : str :=
  relpath V (path_join root filename) (vault_path V).

(** A byte. *)
Definition byte_ok (b : byte) : Prop := (0 <= b < 256)%Z.

(** The reading of base64: the place of a character in the alphabet, and
    the bytes of a padded text. *)
Fixpoint index_of (c : char) (l : str) (i : Z) : Z :=
  match l with
  | [] => 0%Z
  | x :: l' => if chr_eqb x c then i else index_of c l' (i + 1)%Z
  end.

Definition b64_index (c : char) : Z := index_of c b64_alphabet 0%Z.

Fixpoint b64decode (s : str) : list byte :=
  match s with
  | c0 :: c1 :: c2 :: c3 :: rest =>
      let i0 := b64_index c0 in
      let i1 := b64_index c1 in
      let i2 := b64_index c2 in
      let i3 := b64_index c3 in
      let b0 := (i0 * 4 + i1 / 16)%Z in
      let b1 := ((i1 mod 16) * 16 + i2 / 4)%Z in
      let b2 := ((i2 mod 4) * 64 + i3)%Z in
      if chr_eqb c2 61%N then [b0]
      else if chr_eqb c3 61%N then [b0; b1]
      else b0 :: b1 :: b2 :: b64decode rest
  | _ => []
  end.

(* ================================================================== *)
(** * Properties *)
(* ================================================================== *)

Unset Implicit Arguments.

(** ** The runtime model on values computed by CPython 3.11 *)

Example meta_match_with_sum :
  match_at ANKI_META_REGEX (lit "<!--Meta:id=12;sum=-34-->xx")
  = Some (25, [(2, lit "-34"); (1, lit "12")]).
Proof. vm_compute. reflexivity. Qed.

Example meta_match_without_sum :
  match_at ANKI_META_REGEX (lit "<!--Meta:id=12-->xx")
  = Some (17, [(1, lit "12")]).
Proof. vm_compute. reflexivity. Qed.

Example meta_match_empty_sum :
  match_at ANKI_META_REGEX (lit "<!--Meta:id=12;sum=-->xx") = None.
Proof. vm_compute. reflexivity. Qed.

(** [\d] takes the decimal digits of every script: here U+0663 and
    U+FF17. *)
Example meta_match_unicode_digits :
  match_at ANKI_META_REGEX
    (lit "<!--Meta:id=" ++ [1635%N] ++ lit ";sum=-" ++ [65303%N] ++ lit "-->")
  = Some (23, [(2, [45%N; 65303%N]); (1, [1635%N])])
  /\ digits_value [1635%N; 65303%N] = 37%Z.
Proof. split; vm_compute; reflexivity. Qed.

(** Under [(?i)] the long s (U+017F) stands for [s]. *)
Example tag_split_ignore_case :
  re_split FLASHCARD_REGEX (lit "a#FLA" ++ [383%N] ++ lit "HCARD   x")
  = [lit "a"; lit "x"]
  /\ re_split FLASHCARD_REGEX (lit "a#flashcard#flashcardb")
     = [lit "a"; []; lit "b"].
Proof. split; vm_compute; reflexivity. Qed.

Example str_split_runs :
  split (lit "---") (lit "ab---- c") = [lit "ab"; lit "- c"]
  /\ split (lit "---") [] = [[]]
  /\ split (lit "---") (lit "------") = [[]; []; []].
Proof. repeat split; vm_compute; reflexivity. Qed.

Example str_replace_runs :
  replace [] (lit "-") (lit "abc") = lit "-a-b-c-"
  /\ replace (lit "aa") (lit "b") (lit "aaaaa") = lit "bba".
Proof. split; vm_compute; reflexivity. Qed.

Example findall_embeds :
  findall EMBED_FILENAME_REGEX
    (lit "x![[a]]]] ![[b" ++ [10%N] ++ lit "]] ![[]] ![[![[c]]")
  = [lit "a"; []; lit "![[c"].
Proof. vm_compute. reflexivity. Qed.

Example strip_both_ends :
  strip ([160%N; 32%N] ++ lit "a b" ++ [10%N; 12288%N]) = lit "a b".
Proof. vm_compute. reflexivity. Qed.

Example crc32_check_value :
  crc32 (encode_utf8 (lit "123456789")) = 0xCBF43926%Z
  /\ crc32 [] = 0%Z
  /\ crc32 (encode_utf8 [8364%N; 233%N; 128512%N]) = 2912845275%Z.
Proof. repeat split; vm_compute; reflexivity. Qed.

Example str_of_int_values :
  str_of_int 3904355907 = lit "3904355907"
  /\ str_of_int 0 = lit "0" /\ str_of_int (-5) = lit "-5".
Proof. repeat split; vm_compute; reflexivity. Qed.

(* ================================================================== *)
(** * Characters and texts *)
(* ================================================================== *)

Lemma chr_eqb_eq (a b : char) : chr_eqb a b = true <-> a = b.
Proof. apply N.eqb_eq. Qed.

Lemma chr_eqb_refl (a : char) : chr_eqb a a = true.
Proof. apply N.eqb_refl. Qed.

Lemma chr_eqb_neq (a b : char) : chr_eqb a b = false <-> a <> b.
Proof. apply N.eqb_neq. Qed.

Lemma str_eqb_eq (a b : str) : str_eqb a b = true <-> a = b.
Proof.
  revert b; induction a as [|x a IH]; intros [|y b]; simpl;
    try (split; [discriminate | congruence]); [tauto|].
  rewrite andb_true_iff, chr_eqb_eq, IH. split.
  - intros [-> ->]; reflexivity.
  - intros H; inversion H; auto.
Qed.

Lemma str_eqb_refl (a : str) : str_eqb a a = true.
Proof. apply str_eqb_eq; reflexivity. Qed.

Lemma str_eqb_neq (a b : str) : str_eqb a b = false <-> a <> b.
Proof.
  split.
  - intros H E. apply str_eqb_eq in E. congruence.
  - intros H. destruct (str_eqb a b) eqn:E; [|reflexivity].
    apply str_eqb_eq in E. contradiction.
Qed.

Lemma strip_prefix_app (p r : str) : strip_prefix p (p ++ r) = Some r.
Proof.
  induction p as [|a p IH]; simpl; [reflexivity|].
  now rewrite chr_eqb_refl.
Qed.

Lemma strip_prefix_inv (p s r : str) :
  strip_prefix p s = Some r -> s = p ++ r.
Proof.
  revert s; induction p as [|a p IH]; intros s; simpl.
  - congruence.
  - destruct s as [|b s]; [discriminate|].
    destruct (chr_eqb a b) eqn:E; [|discriminate].
    apply chr_eqb_eq in E; subst b. intros H; f_equal; auto.
Qed.

Lemma takewhile_dropwhile (f : char -> bool) (s : str) :
  takewhile f s ++ dropwhile f s = s.
Proof.
  induction s as [|c s IH]; simpl; [reflexivity|].
  destruct (f c); simpl; congruence.
Qed.

Lemma takewhile_all (f : char -> bool) (s : str) :
  forallb f (takewhile f s) = true.
Proof.
  induction s as [|c s IH]; simpl; [reflexivity|].
  destruct (f c) eqn:E; simpl; [now rewrite E|reflexivity].
Qed.

Lemma dropwhile_head (f : char -> bool) (s : str) (c : char) (r : str) :
  dropwhile f s = c :: r -> f c = false.
Proof.
  induction s as [|x s IH]; simpl; [discriminate|].
  destruct (f x) eqn:E; [exact IH|]. intros H; inversion H; subst; exact E.
Qed.

Lemma takewhile_app (f : char -> bool) (a r : str) :
  forallb f a = true ->
  match r with c :: _ => f c = false | [] => True end ->
  takewhile f (a ++ r) = a /\ dropwhile f (a ++ r) = r.
Proof.
  intros Ha Hr. induction a as [|x a IH]; simpl in *.
  - destruct r as [|c r]; simpl; [auto|]. now rewrite Hr.
  - apply andb_true_iff in Ha as [Hx Ha]. rewrite Hx.
    destruct (IH Ha) as [-> ->]. auto.
Qed.

(* ================================================================== *)
(** * Leftmost, non-overlapping occurrences *)
(* ================================================================== *)

Section Pieces.
Variable G : Type.
Variable m : str -> option (nat * G).

Lemma pieces_from_skip (h r : str) :
  pieces_from m (length h) (h ++ r) = pieces m r.
Proof. induction h as [|c h IH]; simpl; [reflexivity|exact IH]. Qed.

Lemma pieces_nil : pieces m [] = [].
Proof. reflexivity. Qed.

Lemma pieces_hit (h r : str) (g : G) :
  h <> [] -> m (h ++ r) = Some (length h, g) ->
  pieces m (h ++ r) = Hit h g :: pieces m r.
Proof.
  intros Hh Hm. destruct h as [|c h]; [congruence|].
  unfold pieces at 1. simpl pieces_from. simpl in Hm. rewrite Hm.
  simpl length. cbv iota beta. f_equal.
  - f_equal. simpl. f_equal. rewrite firstn_app, Nat.sub_diag, firstn_all.
    simpl. apply app_nil_r.
  - apply pieces_from_skip.
Qed.

Lemma pieces_gap (c : char) (s : str) :
  m (c :: s) = None -> pieces m (c :: s) = Gap c :: pieces m s.
Proof. intros Hm. unfold pieces. simpl. now rewrite Hm. Qed.

Lemma substitute_app (f : str -> G -> str) (a b : list (piece G)) :
  substitute f (a ++ b) = substitute f a ++ substitute f b.
Proof. unfold substitute. apply flat_map_app. Qed.
End Pieces.

(* ================================================================== *)
(** * The matcher on the patterns of the program *)
(* ================================================================== *)

Lemma run_Lit (A : Type) (p s : str) (caps : captures)
    (k : str -> captures -> option A) :
  run (Lit p) s caps k =
  match strip_prefix p s with
  | Some r => k r caps
  | None => None
  end.
Proof.
  revert s; induction p as [|a p IH]; intros s; simpl; [reflexivity|].
  destruct s as [|b s]; [reflexivity|].
  destruct (chr_eqb a b); [apply IH|reflexivity].
Qed.

Lemma greedy_dropwhile (A : Type) (f : char -> bool)
    (k : str -> option A) (s : str) :
  (forall c s', f c = true -> k (c :: s') = None) ->
  greedy f k s = k (dropwhile f s).
Proof.
  intros Hk. induction s as [|c s IH]; simpl; [reflexivity|].
  destruct (f c) eqn:E; [|reflexivity].
  rewrite IH. destruct (k (dropwhile f s)); [reflexivity|].
  now apply Hk.
Qed.

Lemma firstn_takewhile (f : char -> bool) (s : str) :
  firstn (length s - length (dropwhile f s)) s = takewhile f s.
Proof.
  rewrite <- (takewhile_dropwhile f s) at 1 3.
  rewrite length_app, Nat.add_sub, firstn_app, Nat.sub_diag, firstn_all.
  simpl. apply app_nil_r.
Qed.

Lemma run_Plus (A : Type) (f : char -> bool) (s : str) (caps : captures)
    (k : str -> captures -> option A) :
  (forall c s', f c = true -> k (c :: s') caps = None) ->
  run (Plus f) s caps k =
  match takewhile f s with
  | [] => None
  | _ :: _ => k (dropwhile f s) caps
  end.
Proof.
  intros Hk. unfold Plus. simpl.
  destruct s as [|c s]; [reflexivity|]. simpl.
  destruct (f c) eqn:E; [|reflexivity].
  apply (greedy_dropwhile A f (fun s' => k s' caps)). exact Hk.
Qed.

Lemma decimal_neq (c x : char) :
  is_decimal c = true -> is_decimal x = false -> chr_eqb x c = false.
Proof.
  intros Hc Hx. apply chr_eqb_neq. intros ->. congruence.
Qed.

Lemma strip_prefix_decimal (p : str) (c x : char) (s : str) :
  is_decimal c = true -> is_decimal x = false ->
  strip_prefix (x :: p) (c :: s) = None.
Proof. intros Hc Hx. simpl. now rewrite (decimal_neq c x Hc Hx). Qed.

Lemma strip_sum_decimal (c : char) (s : str) :
  is_decimal c = true -> strip_prefix (lit ";sum=") (c :: s) = None.
Proof.
  intros Hc. exact (strip_prefix_decimal (lit "sum=") c 59%N s Hc eq_refl).
Qed.

Lemma strip_close_decimal (c : char) (s : str) :
  is_decimal c = true -> strip_prefix (lit "-->") (c :: s) = None.
Proof.
  intros Hc. exact (strip_prefix_decimal (lit "->") c 45%N s Hc eq_refl).
Qed.

Ltac solve_len Hs :=
  apply (f_equal (@length char)) in Hs; unfold marker in *;
  repeat (rewrite ?length_app in *; cbn [length lit map list_ascii_of_string] in * );
  unfold str, char in *; lia.

Lemma match_at_meta (s : str) :
  match_at ANKI_META_REGEX s
  = match meta_at s with
    | Some (id, sum) => Some (length (marker id sum), marker_groups id sum)
    | None => None
    end.
Proof.
  unfold match_at, ANKI_META_REGEX, meta_at.
  cbn [run]. rewrite run_Lit.
  destruct (strip_prefix (lit "<!--Meta:id=") s) as [s1|] eqn:E1; [|reflexivity].
  apply strip_prefix_inv in E1.
  (* the id *)
  rewrite run_Plus.
  2:{ intros c s' Hc. cbn [run]. rewrite !run_Lit.
      rewrite (strip_sum_decimal c s' Hc), (strip_close_decimal c s' Hc).
      reflexivity. }
  rewrite firstn_takewhile.
  destruct (takewhile is_decimal s1) as [|d id] eqn:Eid; [reflexivity|].
  cbv iota. remember (d :: id) as ID eqn:HID. clear HID d id.
  set (s2 := dropwhile is_decimal s1).
  assert (Hs1 : s1 = ID ++ s2).
  { subst s2. rewrite <- Eid. symmetry. apply takewhile_dropwhile. }
  cbn [run]. rewrite !run_Lit. unfold sum_at.
  destruct (strip_prefix (lit ";sum=") s2) as [s3|] eqn:E3.
  - apply strip_prefix_inv in E3.
    assert (Hno : strip_prefix (lit "-->") s2 = None) by (rewrite E3; reflexivity).
    rewrite Hno.
    (* the sign *)
    assert (Hk : forall c s' caps', is_decimal c = true ->
       run (Lit (lit "-->")) (c :: s') caps'
         (fun (s'0 : str) (caps0 : captures) =>
            Some (length s - length s'0, caps0)) = None).
    { intros c s' caps' Hc. rewrite run_Lit.
      now rewrite (strip_close_decimal c s' Hc). }
    destruct s3 as [|c3 s3'].
    + simpl. reflexivity.
    + destruct (chr_eqb 45%N c3) eqn:Esign.
      * apply chr_eqb_eq in Esign. subst c3.
        rewrite run_Plus by (intros; apply Hk; assumption).
        rewrite run_Plus by (intros; apply Hk; assumption).
        simpl length. simpl skipn. cbn [takewhile]. 
        
        destruct (takewhile is_decimal s3') as [|d4 ds] eqn:E4.
        { reflexivity. }
        rewrite run_Lit.
        destruct (strip_prefix (lit "-->") (dropwhile is_decimal s3')) as [r|] eqn:E5;
          [|reflexivity].
        apply strip_prefix_inv in E5.
        f_equal. f_equal.
        -- assert (Hs : s = marker ID (Some ([45%N] ++ d4 :: ds)) ++ r).
           { unfold marker. rewrite E1, Hs1, E3.
             rewrite <- (takewhile_dropwhile is_decimal s3'), E4, E5.
             rewrite <- !app_assoc. simpl. reflexivity. }
           solve_len Hs.
        -- unfold marker_groups. f_equal. f_equal.
           replace (S (length s3') - length (dropwhile is_decimal s3'))
             with (S (length s3' - length (dropwhile is_decimal s3'))).
           2:{ cbn [length]. pose proof (f_equal (@length _) (takewhile_dropwhile is_decimal s3')) as HL.
               rewrite length_app in HL. unfold str, char in *. lia. }
           cbn [firstn app]. f_equal. rewrite firstn_takewhile. exact E4.
      * cbv iota.

        rewrite run_Plus by (intros; apply Hk; assumption).
        simpl length. simpl skipn.
        destruct (takewhile is_decimal (c3 :: s3')) as [|d4 ds] eqn:E4.
        { reflexivity. }
        rewrite run_Lit.
        destruct (strip_prefix (lit "-->") (dropwhile is_decimal (c3 :: s3'))) as [r|] eqn:E5;
          [|reflexivity].
        apply strip_prefix_inv in E5.
        f_equal. f_equal.
        -- assert (Hs : s = marker ID (Some ([] ++ d4 :: ds)) ++ r).
           { unfold marker. rewrite E1, Hs1, E3.
             rewrite <- (takewhile_dropwhile is_decimal (c3 :: s3')), E4, E5.
             rewrite <- !app_assoc. simpl. reflexivity. }
           solve_len Hs.
        -- unfold marker_groups. f_equal. f_equal.
           change (S (length s3')) with (length (c3 :: s3')).
           change (if is_decimal c3 then dropwhile is_decimal s3' else c3 :: s3')
             with (dropwhile is_decimal (c3 :: s3')).
           rewrite firstn_takewhile. exact E4.
  - destruct (strip_prefix (lit "-->") s2) as [r|] eqn:E5; [|reflexivity].
    apply strip_prefix_inv in E5.
    f_equal. f_equal.
    assert (Hs : s = marker ID None ++ r).
    { unfold marker. rewrite E1, Hs1, E5. rewrite <- !app_assoc. reflexivity. }
    solve_len Hs.
Qed.

(** ** The shape of a marker *)

Lemma digits_nil : digits [] -> False.
Proof. intros [H _]. now apply H. Qed.

Lemma digits_takewhile (id r : str) :
  digits id ->
  match r with c :: _ => is_decimal c = false | [] => True end ->
  takewhile is_decimal (id ++ r) = id /\ dropwhile is_decimal (id ++ r) = r.
Proof. intros [_ H]. now apply takewhile_app. Qed.

Lemma sum_at_some (t rest : str) :
  signed_digits t -> sum_at (lit ";sum=" ++ t ++ lit "-->" ++ rest) = Some t.
Proof.
  intros Ht. unfold sum_at. rewrite strip_prefix_app.
  destruct Ht as [Hd | (ds & -> & Hd)].
  - destruct t as [|c t]; [now destruct (digits_nil Hd)|].
    assert (Hc : is_decimal c = true).
    { destruct Hd as [_ Hd]. simpl in Hd. now apply andb_true_iff in Hd. }
    cbn [app]. rewrite (decimal_neq c 45%N Hc eq_refl).
    cbn [length skipn].
    destruct (digits_takewhile (c :: t) (lit "-->" ++ rest) Hd eq_refl) as [E1 E2].
    cbn [app] in E1, E2. rewrite E1, E2, strip_prefix_app. reflexivity.
  - cbn [app]. rewrite chr_eqb_refl. cbn [length skipn].
    destruct (digits_takewhile ds (lit "-->" ++ rest) Hd eq_refl) as [E1 E2].
    rewrite E1, E2, strip_prefix_app.
    destruct ds; [now destruct (digits_nil Hd)|reflexivity].
Qed.

(** A well-formed marker is read back, whatever follows it. *)
Lemma meta_at_marker (id : str) (sum : option str) (rest : str) :
  digits id -> sum_ok sum ->
  meta_at (marker id sum ++ rest) = Some (id, sum).
Proof.
  intros Hid Hsum. unfold meta_at, marker.
  rewrite <- !app_assoc, strip_prefix_app.
  destruct sum as [t|].
  - destruct (digits_takewhile id (lit ";sum=" ++ t ++ lit "-->" ++ rest) Hid eq_refl)
      as [E1 E2].
    rewrite <- !app_assoc. rewrite E1, E2.
    destruct id; [now destruct (digits_nil Hid)|].
    now rewrite sum_at_some.
  - cbn [app].
    destruct (digits_takewhile id (lit "-->" ++ rest) Hid eq_refl) as [E1 E2].
    rewrite E1, E2. destruct id; [now destruct (digits_nil Hid)|].
    rewrite strip_prefix_app. reflexivity.
Qed.

Lemma sum_at_inv (s t : str) :
  sum_at s = Some t ->
  signed_digits t /\ exists rest, s = lit ";sum=" ++ t ++ lit "-->" ++ rest.
Proof.
  unfold sum_at.
  destruct (strip_prefix (lit ";sum=") s) as [s3|] eqn:E3; [|discriminate].
  apply strip_prefix_inv in E3.
  set (sign := match s3 with
               | c :: _ => if chr_eqb 45%N c then [c] else []
               | [] => []
               end).
  destruct (takewhile is_decimal (skipn (length sign) s3)) as [|d ds] eqn:E4;
    [discriminate|].
  destruct (strip_prefix (lit "-->") (dropwhile is_decimal (skipn (length sign) s3)))
    as [rest|] eqn:E5; [|discriminate].
  apply strip_prefix_inv in E5. intros H; inversion H; subst t; clear H.
  assert (Hd : digits (d :: ds)).
  { split; [discriminate|]. rewrite <- E4. apply takewhile_all. }
  assert (Hs3 : s3 = sign ++ (d :: ds) ++ lit "-->" ++ rest).
  { rewrite <- E4, <- E5, takewhile_dropwhile.
    subst sign. destruct s3 as [|c s3']; [reflexivity|].
    destruct (chr_eqb 45%N c); reflexivity. }
  split.
  - subst sign. destruct s3 as [|c s3']; [left; exact Hd|].
    destruct (chr_eqb 45%N c) eqn:Ec; [|left; exact Hd].
    apply chr_eqb_eq in Ec; subst c. right. exists (d :: ds). split; auto.
  - exists rest. rewrite E3, Hs3. now rewrite <- !app_assoc.
Qed.

(** What is read at the head of a text is a well-formed marker. *)
Lemma meta_at_inv (s id : str) (sum : option str) :
  meta_at s = Some (id, sum) ->
  digits id /\ sum_ok sum /\ exists rest, s = marker id sum ++ rest.
Proof.
  unfold meta_at.
  destruct (strip_prefix (lit "<!--Meta:id=") s) as [s1|] eqn:E1; [|discriminate].
  apply strip_prefix_inv in E1.
  destruct (takewhile is_decimal s1) as [|d ds] eqn:E2; [discriminate|].
  assert (Hd : digits (d :: ds)).
  { split; [discriminate|]. rewrite <- E2. apply takewhile_all. }
  pose proof (takewhile_dropwhile is_decimal s1) as Hs1. rewrite E2 in Hs1.
  destruct (sum_at (dropwhile is_decimal s1)) as [t|] eqn:E3.
  - intros H; inversion H; subst; clear H.
    apply sum_at_inv in E3 as (Ht & rest & E3).
    split; [exact Hd|]. split; [exact Ht|]. exists rest. unfold marker.
    rewrite <- Hs1, E3. now rewrite <- !app_assoc.
  - destruct (strip_prefix (lit "-->") (dropwhile is_decimal s1)) as [rest|] eqn:E5;
      [|discriminate].
    apply strip_prefix_inv in E5.
    intros H; inversion H; subst; clear H.
    split; [exact Hd|]. split; [exact I|]. exists rest. unfold marker.
    rewrite <- Hs1, E5. now rewrite <- !app_assoc.
Qed.

(** The match of the pattern at the head of a text. *)
Lemma match_at_marker (id : str) (sum : option str) (rest : str) :
  digits id -> sum_ok sum ->
  match_at ANKI_META_REGEX (marker id sum ++ rest)
  = Some (length (marker id sum), marker_groups id sum).
Proof.
  intros Hid Hsum. rewrite match_at_meta.
  now rewrite (meta_at_marker id sum rest Hid Hsum).
Qed.

Lemma match_at_inv (s : str) (n : nat) (caps : captures) :
  match_at ANKI_META_REGEX s = Some (n, caps) ->
  exists id sum rest,
    digits id /\ sum_ok sum /\ s = marker id sum ++ rest
    /\ n = length (marker id sum) /\ caps = marker_groups id sum.
Proof.
  rewrite match_at_meta.
  destruct (meta_at s) as [[id sum]|] eqn:E; [|discriminate].
  intros H; inversion H; subst; clear H.
  apply meta_at_inv in E as (Hid & Hsum & rest & ->).
  exists id, sum, rest. auto.
Qed.

(** ** Character classes *)

Lemma in_range_spec (lo hi c : char) :
  in_range lo hi c = true <-> (lo <= c <= hi)%N.
Proof.
  unfold in_range. rewrite andb_true_iff, !N.leb_le. tauto.
Qed.

Lemma is_space_spaces (c : char) : is_space c = true -> In c spaces.
Proof.
  unfold is_space. rewrite !orb_true_iff, !in_range_spec, !chr_eqb_eq.
  unfold spaces. simpl In. intros H.
  repeat match goal with H : _ \/ _ |- _ => destruct H as [H|H] end;
    try (subst c; tauto).
  - assert (E : (c = 9 \/ c = 10 \/ c = 11 \/ c = 12 \/ c = 13)%N) by lia.
    intuition (subst; tauto).
  - assert (E : (c = 28 \/ c = 29 \/ c = 30 \/ c = 31 \/ c = 32)%N) by lia.
    intuition (subst; tauto).
  - assert (E : (c = 8192 \/ c = 8193 \/ c = 8194 \/ c = 8195 \/ c = 8196
                \/ c = 8197 \/ c = 8198 \/ c = 8199 \/ c = 8200 \/ c = 8201
                \/ c = 8202)%N) by lia.
    intuition (subst; tauto).
Qed.

Lemma space_not_marker_char (c : char) :
  is_space c = true -> marker_char c = false.
Proof.
  intros H. apply is_space_spaces in H.
  assert (A : forallb (fun x => negb (marker_char x)) spaces = true)
    by (vm_compute; reflexivity).
  rewrite forallb_forall in A. specialize (A c H).
  now apply negb_true_iff in A.
Qed.

Lemma marker_char_not_space (c : char) :
  marker_char c = true -> is_space c = false.
Proof.
  intros H. destruct (is_space c) eqn:E; [|reflexivity].
  apply space_not_marker_char in E. congruence.
Qed.

Lemma decimal_marker_char (c : char) :
  is_decimal c = true -> marker_char c = true.
Proof. intros H. unfold marker_char. now rewrite H. Qed.

Lemma not_marker_char_neq (c x : char) :
  marker_char c = true -> marker_char x = false -> chr_eqb c x = false.
Proof. intros Hc Hx. apply chr_eqb_neq. intros ->. congruence. Qed.

(** ** The characters of a marker *)

Lemma forallb_marker_digits (s : str) :
  forallb is_decimal s = true -> forallb marker_char s = true.
Proof.
  induction s as [|c s IH]; simpl; [reflexivity|].
  rewrite !andb_true_iff. intros [Hc Hs]. split; auto using decimal_marker_char.
Qed.

Lemma signed_digits_chars (t : str) :
  signed_digits t -> forallb marker_char t = true.
Proof.
  intros [[_ H] | (ds & -> & [_ H])].
  - now apply forallb_marker_digits.
  - simpl. now apply forallb_marker_digits.
Qed.

(** A marker opens with [<] and holds none after it. *)
Lemma marker_body (id : str) (sum : option str) :
  digits id -> sum_ok sum ->
  exists body,
    marker id sum = 60%N :: body /\ forallb marker_char body = true.
Proof.
  intros [_ Hid] Hsum. unfold marker.
  exists (lit "!--Meta:id=" ++ id
          ++ match sum with Some t => lit ";sum=" ++ t | None => [] end
          ++ lit "-->").
  split; [reflexivity|].
  rewrite !forallb_app. rewrite (forallb_marker_digits id Hid).
  destruct sum as [t|].
  - rewrite forallb_app, (signed_digits_chars t Hsum). reflexivity.
  - reflexivity.
Qed.

Lemma marker_nonempty (id : str) (sum : option str) : marker id sum <> [].
Proof. unfold marker. discriminate. Qed.

(** ** The pieces of a text under the marker pattern *)

Lemma meta_pieces_marker (id : str) (sum : option str) (rest : str) :
  digits id -> sum_ok sum ->
  meta_pieces (marker id sum ++ rest)
  = Hit (marker id sum) (marker_groups id sum) :: meta_pieces rest.
Proof.
  intros Hid Hsum. unfold meta_pieces. apply pieces_hit.
  - apply marker_nonempty.
  - now apply match_at_marker.
Qed.

Lemma meta_at_head (c : char) (s : str) :
  chr_eqb c 60%N = false -> meta_at (c :: s) = None.
Proof.
  intros Hc. unfold meta_at. cbn [lit map list_ascii_of_string strip_prefix].
  change (N_of_ascii "<") with 60%N.
  rewrite N.eqb_sym in Hc. unfold chr_eqb in *. now rewrite Hc.
Qed.

Lemma meta_pieces_gap (c : char) (s : str) :
  meta_at (c :: s) = None -> meta_pieces (c :: s) = Gap c :: meta_pieces s.
Proof.
  intros H. unfold meta_pieces. apply pieces_gap.
  rewrite match_at_meta, H. reflexivity.
Qed.

Lemma meta_pieces_plain (a s : str) :
  forallb (fun c => negb (chr_eqb c 60%N)) a = true ->
  meta_pieces (a ++ s) = map Gap a ++ meta_pieces s.
Proof.
  induction a as [|c a IH]; simpl; [reflexivity|].
  rewrite andb_true_iff, negb_true_iff. intros [Hc Ha].
  rewrite meta_pieces_gap by now apply meta_at_head.
  now rewrite IH.
Qed.

(** The two cases at the head of a text. *)
Lemma meta_pieces_cases (s : str) :
  s = []
  \/ (exists c s', s = c :: s' /\ meta_at s = None
                   /\ meta_pieces s = Gap c :: meta_pieces s')
  \/ (exists id sum rest,
        digits id /\ sum_ok sum /\ s = marker id sum ++ rest
        /\ meta_at s = Some (id, sum)
        /\ meta_pieces s
           = Hit (marker id sum) (marker_groups id sum) :: meta_pieces rest).
Proof.
  destruct s as [|c s']; [now left|right].
  destruct (meta_at (c :: s')) as [[id sum]|] eqn:E.
  - right. pose proof E as E'.
    apply meta_at_inv in E as (Hid & Hsum & rest & Hs).
    exists id, sum, rest.
    split; [exact Hid|]. split; [exact Hsum|]. split; [exact Hs|].
    split; [reflexivity|]. rewrite Hs. now apply meta_pieces_marker.
  - left. exists c, s'. repeat split; auto. now apply meta_pieces_gap.
Qed.

(** ** Cutting a text where no marker can straddle *)

Lemma marker_closed_head (id : str) (sum : option str) (rest : str) :
  closed_head (marker id sum ++ rest).
Proof. reflexivity. Qed.

Lemma app_prefix_cases (a b m rest : str) :
  a ++ b = m ++ rest ->
  (exists a', a = m ++ a' /\ rest = a' ++ b)
  \/ (exists c m', m = a ++ c :: m' /\ b = c :: m' ++ rest).
Proof.
  intros H. apply app_eq_app in H as (l & [[-> ->] | [-> ->]]).
  - left. now exists l.
  - destruct l as [|c l].
    + left. exists []. now rewrite !app_nil_r.
    + right. now exists c, l.
Qed.

Lemma meta_at_seal (a b : str) :
  a <> [] -> closed_head b -> meta_at (a ++ b) = meta_at a.
Proof.
  intros Ha Hb.
  destruct (meta_at (a ++ b)) as [[id sum]|] eqn:E.
  - apply meta_at_inv in E as (Hid & Hsum & rest & Hs).
    apply app_prefix_cases in Hs as [(a' & -> & _) | (c & m' & Hm & ->)].
    + symmetry. now apply meta_at_marker.
    + exfalso. destruct (marker_body id sum Hid Hsum) as (body & Hbody & Hall).
      rewrite Hbody in Hm. destruct a as [|x a]; [congruence|].
      inversion Hm; subst. rewrite forallb_app in Hall.
      apply andb_true_iff in Hall as [_ Hall]. simpl in Hall.
      apply andb_true_iff in Hall as [Hc _]. simpl in Hb. congruence.
  - destruct (meta_at a) as [[id sum]|] eqn:E'; [|reflexivity].
    apply meta_at_inv in E' as (Hid & Hsum & rest & ->).
    rewrite <- app_assoc, meta_at_marker in E by assumption. discriminate.
Qed.

Lemma meta_pieces_cut_len (n : nat) (a b : str) :
  length a <= n -> closed_head b ->
  meta_pieces (a ++ b) = meta_pieces a ++ meta_pieces b.
Proof.
  revert a. induction n as [|n IH]; intros a Hlen Hb.
  - destruct a; [reflexivity|simpl in Hlen; lia].
  - destruct (meta_pieces_cases a)
      as [-> | [(c & a' & -> & Hnone & Hp) | (id & sum & rest & Hid & Hsum & -> & _ & Hp)]].
    + reflexivity.
    + rewrite Hp. cbn [app].
      rewrite meta_pieces_gap.
      2:{ change (c :: a' ++ b) with ((c :: a') ++ b).
          rewrite meta_at_seal; [exact Hnone|discriminate|exact Hb]. }
      f_equal. apply IH; [simpl in Hlen; lia|exact Hb].
    + rewrite Hp. rewrite <- app_assoc, meta_pieces_marker by assumption.
      cbn [app]. f_equal. apply IH; [|exact Hb].
      rewrite length_app in Hlen.
      pose proof (marker_nonempty id sum) as Hne.
      destruct (marker id sum); [congruence|simpl in Hlen; lia].
Qed.

(** No marker of [a ++ b] straddles the cut when [b] opens with a
    character that no marker holds inside. *)
Lemma meta_pieces_cut (a b : str) :
  closed_head b -> meta_pieces (a ++ b) = meta_pieces a ++ meta_pieces b.
Proof. apply meta_pieces_cut_len with (n := length a). lia. Qed.

(** ** Texts without a marker *)

Lemma marker_free_pieces (s : str) :
  marker_free s = true -> meta_pieces s = map Gap s.
Proof.
  induction s as [|c s IH]; [reflexivity|].
  cbn [marker_free map].
  destruct (meta_at (c :: s)) eqn:E; [discriminate|].
  intros H. rewrite meta_pieces_gap by exact E. now rewrite IH.
Qed.

Lemma marker_free_app (a b : str) :
  marker_free (a ++ b) = true ->
  marker_free a = true /\ marker_free b = true.
Proof.
  induction a as [|c a IH]; intros H; [auto|].
  cbn [app marker_free] in H.
  destruct (meta_at (c :: a ++ b)) eqn:E; [discriminate|].
  destruct (IH H) as [Ha Hb]. split; [|exact Hb].
  cbn [marker_free].
  destruct (meta_at (c :: a)) as [[id sum]|] eqn:E'; [|exact Ha].
  apply meta_at_inv in E' as (Hid & Hsum & rest & Hs).
  change (c :: a ++ b) with ((c :: a) ++ b) in E.
  rewrite Hs, <- app_assoc, meta_at_marker in E by assumption.
  discriminate.
Qed.

Lemma substitute_gaps (G : Type) (f : str -> G -> str) (s : str) :
  substitute f (map Gap s) = s.
Proof. induction s as [|c s IH]; simpl; congruence. Qed.

Lemma erase_marker_free (s : str) : marker_free s = true -> erase s = s.
Proof.
  intros H. unfold erase, sub. fold (meta_pieces s).
  rewrite marker_free_pieces by exact H. apply substitute_gaps.
Qed.

(** Erasing the markers of a text in which one marker was embedded. *)
Lemma erase_embedded (p s id : str) (sum : option str) :
  digits id -> sum_ok sum -> marker_free (p ++ s) = true ->
  erase (p ++ marker id sum ++ s) = p ++ s.
Proof.
  intros Hid Hsum Hfree. apply marker_free_app in Hfree as [Hp Hs].
  unfold erase, sub. fold (meta_pieces (p ++ marker id sum ++ s)).
  rewrite meta_pieces_cut by apply marker_closed_head.
  rewrite meta_pieces_marker by assumption.
  rewrite substitute_app. cbn [substitute flat_map app].
  fold (substitute (fun (_ : str) (_ : captures) => @nil char) (meta_pieces p)).
  fold (substitute (fun (_ : str) (_ : captures) => @nil char) (meta_pieces s)).
  rewrite !marker_free_pieces by assumption.
  now rewrite !substitute_gaps.
Qed.

(** The first marker of a text before which there is none. *)
Lemma search_embedded (p s id : str) (sum : option str) :
  digits id -> sum_ok sum -> marker_free p = true ->
  search ANKI_META_REGEX (p ++ marker id sum ++ s)
  = Some (marker id sum, marker_groups id sum).
Proof.
  intros Hid Hsum Hp. unfold search.
  fold (meta_pieces (p ++ marker id sum ++ s)).
  rewrite meta_pieces_cut by apply marker_closed_head.
  rewrite meta_pieces_marker, marker_free_pieces by assumption.
  induction p as [|c p IH]; [reflexivity|].
  cbn [map app hits]. apply IH.
  cbn [marker_free] in Hp. now destruct (meta_at (c :: p)).
Qed.

Lemma search_marker_free (s : str) :
  marker_free s = true -> search ANKI_META_REGEX s = None.
Proof.
  intros H. unfold search. fold (meta_pieces s).
  rewrite marker_free_pieces by exact H.
  induction s as [|c s IH]; [reflexivity|]. cbn [map hits].
  apply IH. cbn [marker_free] in H. now destruct (meta_at (c :: s)).
Qed.

(** ** [str(n)] *)

Lemma lit_uint_decimal (d : Decimal.uint) :
  forallb is_decimal (lit (NilEmpty.string_of_uint d)) = true.
Proof. induction d; simpl; auto. Qed.

Lemma lit_uint_nonempty (d : Decimal.uint) :
  d <> Decimal.Nil -> lit (NilEmpty.string_of_uint d) <> [].
Proof.
  intros H. destruct d; [congruence|..]; intros E; discriminate E.
Qed.

Lemma str_of_int_pos (p : positive) :
  str_of_int (Z.pos p) = lit (NilEmpty.string_of_uint (Pos.to_uint p)).
Proof.
  unfold str_of_int. simpl Z.to_int. unfold NilZero.string_of_int.
  unfold NilZero.string_of_uint.
  pose proof (Unsigned.to_uint_nonnil p) as H.
  destruct (Pos.to_uint p); congruence.
Qed.

(** The text [str] gives a number that is not negative is a run of digits. *)
Lemma str_of_int_digits (z : Z) : (0 <= z)%Z -> digits (str_of_int z).
Proof.
  intros Hz. destruct z as [|p|p]; [| |lia].
  - split; [discriminate|reflexivity].
  - rewrite str_of_int_pos. split.
    + apply lit_uint_nonempty, Unsigned.to_uint_nonnil.
    + apply lit_uint_decimal.
Qed.

Lemma digits_value_acc (d : Decimal.uint) (acc : positive) :
  fold_left digit_step (lit (NilEmpty.string_of_uint d)) (Z.pos acc)
  = Z.pos (Pos.of_uint_acc d acc).
Proof.
  revert acc. induction d; intros acc; cbn [NilEmpty.string_of_uint lit map
    list_ascii_of_string fold_left Pos.of_uint_acc]; [reflexivity| ..];
  match goal with
  | |- context [digit_step (Z.pos acc) ?c] =>
      let v := eval vm_compute in (digit_value c) in
      replace (digit_step (Z.pos acc) c) with (10 * Z.pos acc + v)%Z
        by (unfold digit_step; f_equal)
  end;
  match goal with
  | |- fold_left _ _ ?x = Z.pos (Pos.of_uint_acc _ ?q) =>
      replace x with (Z.pos q) by lia
  end; apply IHd.
Qed.

Lemma digits_value_uint (d : Decimal.uint) :
  digits_value (lit (NilEmpty.string_of_uint d)) = Z.of_N (Pos.of_uint d).
Proof.
  unfold digits_value. fold digit_step.
  induction d; cbn [NilEmpty.string_of_uint lit map list_ascii_of_string
    fold_left Pos.of_uint]; [reflexivity|exact IHd| ..];
  match goal with
  | |- context [digit_step 0%Z ?c] =>
      let v := eval vm_compute in (digit_step 0%Z c) in
      change (digit_step 0%Z c) with v
  end; apply digits_value_acc.
Qed.

(** [int(str(n)) = n] *)
Lemma digits_value_str_of_int (z : Z) :
  (0 <= z)%Z -> digits_value (str_of_int z) = z.
Proof.
  intros Hz. destruct z as [|p|p]; [reflexivity| |lia].
  rewrite str_of_int_pos, digits_value_uint, Unsigned.of_to. reflexivity.
Qed.

Lemma str_of_int_inj (a b : Z) :
  (0 <= a)%Z -> (0 <= b)%Z -> str_of_int a = str_of_int b -> a = b.
Proof.
  intros Ha Hb H.
  rewrite <- (digits_value_str_of_int a Ha), <- (digits_value_str_of_int b Hb).
  now rewrite H.
Qed.

(** ** The range of [crc32] *)

Local Open Scope Z_scope.

Lemma lxor_word (a b : Z) : word a -> word b -> word (Z.lxor a b).
Proof.
  unfold word. intros [Ha Ha'] [Hb Hb'].
  assert (H0 : 0 <= Z.lxor a b) by (apply Z.lxor_nonneg; tauto).
  split; [exact H0|].
  destruct (Z.eq_dec (Z.lxor a b) 0) as [->|Hn]; [reflexivity|].
  apply Z.log2_lt_pow2; [lia|].
  pose proof (Z.log2_lxor a b Ha Hb) as HL.
  assert (La : Z.log2 a < 32).
  { destruct (Z.eq_dec a 0) as [->|]; [simpl; lia|].
    apply Z.log2_lt_pow2; lia. }
  assert (Lb : Z.log2 b < 32).
  { destruct (Z.eq_dec b 0) as [->|]; [simpl; lia|].
    apply Z.log2_lt_pow2; lia. }
  lia.
Qed.

Lemma shiftr_word (a : Z) : word a -> word (Z.shiftr a 1).
Proof.
  unfold word. intros [Ha Ha']. rewrite Z.shiftr_div_pow2 by lia.
  change (2 ^ 1) with 2. split.
  - apply Z.div_pos; lia.
  - apply Z.div_lt_upper_bound; lia.
Qed.

Lemma crc_shift_word (crc : Z) : word crc -> word (crc_shift crc).
Proof.
  intros H. unfold crc_shift. destruct (Z.testbit crc 0).
  - apply lxor_word; [now apply shiftr_word|unfold word; lia].
  - now apply shiftr_word.
Qed.

Lemma crc_byte_word (crc b : Z) : word crc -> word (crc_byte crc b).
Proof.
  intros H. unfold crc_byte.
  assert (Hb : word (Z.land b 255)).
  { unfold word. change 255 with (Z.ones 8). rewrite Z.land_ones by lia.
    pose proof (Z.mod_pos_bound b (2 ^ 8)). lia. }
  pose proof (lxor_word crc (Z.land b 255) H Hb) as Hx.
  cbn [Nat.iter]. repeat apply crc_shift_word. exact Hx.
Qed.

Lemma crc32_word (bs : list byte) : word (crc32 bs).
Proof.
  unfold crc32. apply lxor_word; [|unfold word; lia].
  assert (G : forall acc, word acc -> word (fold_left crc_byte bs acc)).
  { induction bs as [|b bs IH]; intros acc Hacc; [exact Hacc|].
    simpl. apply IH. now apply crc_byte_word. }
  apply G. unfold word; lia.
Qed.
Local Close Scope Z_scope.

(** ** What [analyze] computes *)

Lemma option_str_eqb_eq (a b : option str) :
  option_str_eqb a b = true <-> a = b.
Proof.
  destruct a as [x|], b as [y|]; simpl; try (split; congruence).
  rewrite str_eqb_eq. split; congruence.
Qed.

Lemma extract_marker_free (b : str) :
  marker_free b = true ->
  Flashcard._extract_anki_meta b = (None, None, None).
Proof.
  intros H. unfold Flashcard._extract_anki_meta.
  now rewrite search_marker_free.
Qed.

Lemma extract_embedded (p s id : str) (sum : option str) :
  digits id -> sum_ok sum -> marker_free p = true ->
  Flashcard._extract_anki_meta (p ++ marker id sum ++ s)
  = (Some (IdText id), sum, Some (marker id sum)).
Proof.
  intros Hid Hsum Hp. unfold Flashcard._extract_anki_meta.
  rewrite search_embedded by assumption.
  destruct sum; reflexivity.
Qed.

Lemma analyze_create (E : Env) (c : Flashcard) :
  marker_free (back c) = true ->
  state (Flashcard.analyze E c) = Some STATE_INSERT
  /\ anki_id (Flashcard.analyze E c) = None
  /\ _meta_value (Flashcard.analyze E c) = None.
Proof.
  intros H. unfold Flashcard.analyze.
  rewrite extract_marker_free by exact H. cbn. auto.
Qed.

Lemma analyze_marked (E : Env) (c : Flashcard) (p s id : str)
    (sum : option str) :
  digits id -> sum_ok sum -> marker_free p = true ->
  back c = p ++ marker id sum ++ s ->
  let fp := Flashcard._generate_card_sum c in
  let c' := Flashcard.analyze E c in
  anki_id c' = Some (IdText id) /\ checksum c' = sum
  /\ _meta_value c' = Some (marker id sum) /\ card_sum c' = Some fp
  /\ front c' = front c /\ back c' = back c
  /\ (sum = Some (str_of_int fp) ->
      state c' = state c /\ front_html c' = front_html c
      /\ back_html c' = back_html c /\ medias c' = medias c)
  /\ (sum <> Some (str_of_int fp) -> state c' = Some STATE_UPDATE).
Proof.
  intros Hid Hsum Hp Hb fp c'. subst c'. unfold Flashcard.analyze.
  rewrite Hb, extract_embedded by assumption. fold fp.
  destruct (option_str_eqb (Some (str_of_int fp)) sum) eqn:Eq; cbn.
  - apply option_str_eqb_eq in Eq.
    repeat split; auto; intros; congruence.
  - assert (Hne : sum <> Some (str_of_int fp)).
    { intros ->. rewrite (proj2 (option_str_eqb_eq _ _) eq_refl) in Eq.
      discriminate. }
    repeat split; auto; intros; congruence.
Qed.

(** Every text is free of markers or splits at its first marker. *)
Lemma first_marker (b : str) :
  marker_free b = true
  \/ exists p id sum s,
       marker_free p = true /\ digits id /\ sum_ok sum
       /\ b = p ++ marker id sum ++ s.
Proof.
  induction b as [|c b IH]; [now left|].
  destruct (meta_at (c :: b)) as [[id sum]|] eqn:E.
  - right. apply meta_at_inv in E as (Hid & Hsum & rest & Hs).
    exists [], id, sum, rest.
    split; [reflexivity|]. split; [exact Hid|]. split; [exact Hsum|exact Hs].
  - destruct IH as [Hfree | (p & id & sum & s & Hp & Hid & Hsum & ->)].
    + left. cbn [marker_free]. now rewrite E.
    + right. exists (c :: p), id, sum, s.
      split; [|split; [exact Hid|split; [exact Hsum|reflexivity]]].
      cbn [marker_free].
      destruct (meta_at (c :: p)) as [[id' sum']|] eqn:E'; [|exact Hp].
      apply meta_at_inv in E' as (Hid' & Hsum' & rest & Hs).
      change (c :: p ++ marker id sum ++ s)
        with ((c :: p) ++ marker id sum ++ s) in E.
      rewrite Hs, <- app_assoc, meta_at_marker in E by assumption.
      discriminate.
Qed.

(** The fingerprint of a card in whose back text one marker is embedded. *)
Lemma card_sum_embedded (c : Flashcard) (p s id : str) (sum : option str) :
  digits id -> sum_ok sum -> marker_free (p ++ s) = true ->
  back c = p ++ marker id sum ++ s ->
  Flashcard._generate_card_sum c
  = crc32 (encode_utf8 (front c ++ strip (p ++ s))).
Proof.
  intros Hid Hsum Hfree Hb. unfold Flashcard._generate_card_sum.
  fold (erase (back c)). rewrite Hb, erase_embedded by assumption.
  reflexivity.
Qed.

(** C5 -- State classification.  A card whose back text holds no marker is
    classified create.  A card whose first marker stores, as its
    fingerprint, the decimal text of the freshly computed fingerprint is
    classified unchanged (its state stays unset).  A card whose first marker
    stores anything else, or stores no fingerprint, is classified update.
    For a stored text that [str] produces from a number [n], the two cases
    are [n] equal to the computed fingerprint and [n] different from it. *)
Theorem state_classification (E : Env) (f b : str) :
  let fp := Flashcard._generate_card_sum (Flashcard.init f b) in
  let c := Flashcard.analyze E (Flashcard.init f b) in
  (marker_free b = true -> state c = Some STATE_INSERT)
  /\ (forall p id t s,
        marker_free p = true -> digits id -> signed_digits t ->
        b = p ++ marker id (Some t) ++ s ->
        t = str_of_int fp -> state c = None)
  /\ (forall p id sum s,
        marker_free p = true -> digits id -> sum_ok sum ->
        b = p ++ marker id sum ++ s ->
        sum <> Some (str_of_int fp) -> state c = Some STATE_UPDATE)
  /\ (forall p id n s,
        marker_free p = true -> digits id -> (0 <= n)%Z ->
        b = p ++ marker id (Some (str_of_int n)) ++ s ->
        (n = fp -> state c = None)
        /\ (n <> fp -> state c = Some STATE_UPDATE)).
Proof.
  intros fp c. subst c. split; [|split; [|split]].
  - intros Hfree. now apply analyze_create.
  - intros p id t s Hp Hid Ht Hb Heq.
    destruct (analyze_marked E (Flashcard.init f b) p s id (Some t) Hid Ht Hp Hb)
      as (_ & _ & _ & _ & _ & _ & Hsame & _).
    fold fp in Hsame. rewrite Heq in Hsame.
    now destruct (Hsame eq_refl) as [-> _].
  - intros p id sum s Hp Hid Hsum Hb Hne.
    destruct (analyze_marked E (Flashcard.init f b) p s id sum Hid Hsum Hp Hb)
      as (_ & _ & _ & _ & _ & _ & _ & Hupd).
    now apply Hupd.
  - intros p id n s Hp Hid Hn Hb.
    assert (Hsum : sum_ok (Some (str_of_int n)))
      by (left; now apply str_of_int_digits).
    destruct (analyze_marked E (Flashcard.init f b) p s id
                (Some (str_of_int n)) Hid Hsum Hp Hb)
      as (_ & _ & _ & _ & _ & _ & Hsame & Hupd).
    fold fp in Hsame, Hupd. split.
    + intros ->. now destruct (Hsame eq_refl) as [-> _].
    + intros Hne. apply Hupd. intros H. inversion H as [H'].
      apply str_of_int_inj in H'; [congruence|exact Hn|].
      apply crc32_word.
Qed.

Lemma digits_12 : digits (lit "12").
Proof. split; [discriminate|reflexivity]. Qed.

Lemma state_classification_witness :
  state (Flashcard.analyze demo_env
           (Flashcard.init (lit "Q") (lit "A"))) = Some STATE_INSERT
  /\ state (Flashcard.analyze demo_env
              (Flashcard.init (lit "Q")
                 (lit "A<!--Meta:id=12;sum=3819048940-->"))) = None
  /\ state (Flashcard.analyze demo_env
              (Flashcard.init (lit "Q")
                 (lit "A<!--Meta:id=12;sum=5-->"))) = Some STATE_UPDATE.
Proof.
  split; [|split].
  - apply (proj1 (state_classification demo_env (lit "Q") (lit "A"))).
    reflexivity.
  - apply (proj1 (proj2 (state_classification demo_env (lit "Q")
                           (lit "A<!--Meta:id=12;sum=3819048940-->")))
             (lit "A") (lit "12") (lit "3819048940") []).
    + reflexivity.
    + exact digits_12.
    + left. split; [discriminate|reflexivity].
    + reflexivity.
    + vm_compute. reflexivity.
  - apply (proj1 (proj2 (proj2 (state_classification demo_env (lit "Q")
                                  (lit "A<!--Meta:id=12;sum=5-->"))))
             (lit "A") (lit "12") (Some (lit "5")) []).
    + reflexivity.
    + exact digits_12.
    + left. split; [discriminate|reflexivity].
    + reflexivity.
    + vm_compute. discriminate.
Defined.

(** The comparison is on the text: a stored text that [str] does not
    produce, such as [00], differs from every computed fingerprint, also
    from the one it denotes. *)
Lemma padded_sum_is_update :
  Flashcard._generate_card_sum
    (Flashcard.init [] (lit "<!--Meta:id=12;sum=00-->")) = 0%Z
  /\ state (Flashcard.analyze demo_env
              (Flashcard.init [] (lit "<!--Meta:id=12;sum=00-->")))
     = Some STATE_UPDATE.
Proof. split; vm_compute; reflexivity. Qed.

Lemma card_sum_word (c : Flashcard) : word (Flashcard._generate_card_sum c).
Proof. apply crc32_word. Qed.

(** C8 -- Unchanged cards are no-ops.  For a card whose first marker stores
    the decimal text of the computed fingerprint, [analyze] leaves the
    state unset, renders no front and no back, extracts no media reference;
    [make_cards] posts no request for it; and [update_meta] returns any
    document as it is. *)
Theorem unchanged_is_noop (E : Env) (anki : AnkiConnect)
    (f p id t s : str) (w : World) :
  marker_free p = true -> digits id ->
  t = str_of_int
        (Flashcard._generate_card_sum
           (Flashcard.init f (p ++ marker id (Some t) ++ s))) ->
  let c := Flashcard.analyze E
             (Flashcard.init f (p ++ marker id (Some t) ++ s)) in
  state c = None /\ front_html c = None /\ back_html c = None
  /\ medias c = []
  /\ CardMarker.make_card E anki
       (Flashcard.init f (p ++ marker id (Some t) ++ s)) w = (Ok c, w)
  /\ forall origin, Flashcard.update_meta c origin = Ok origin.
Proof.
  intros Hp Hid Ht c.
  assert (Hsum : sum_ok (Some t)).
  { left. rewrite Ht. apply str_of_int_digits, card_sum_word. }
  destruct (analyze_marked E (Flashcard.init f (p ++ marker id (Some t) ++ s))
              p s id (Some t) Hid Hsum Hp eq_refl)
    as (_ & _ & _ & _ & _ & _ & Hsame & _).
  destruct (Hsame (f_equal Some Ht)) as (Hst & Hfh & Hbh & Hm).
  fold c in Hst, Hfh, Hbh, Hm. cbn in Hst, Hfh, Hbh, Hm.
  repeat split; auto.
  - unfold CardMarker.make_card. fold c. now rewrite Hst.
  - intros origin. unfold Flashcard.update_meta. now rewrite Hst.
Qed.

Lemma unchanged_is_noop_witness :
  state (Flashcard.analyze demo_env
           (Flashcard.init (lit "Q")
              (lit "A<!--Meta:id=12;sum=3819048940-->"))) = None
  /\ CardMarker.make_card demo_env demo_anki
       (Flashcard.init (lit "Q") (lit "A<!--Meta:id=12;sum=3819048940-->"))
       (mkWorld [] [])
     = (Ok (Flashcard.analyze demo_env
              (Flashcard.init (lit "Q")
                 (lit "A<!--Meta:id=12;sum=3819048940-->"))),
        mkWorld [] []).
Proof.
  destruct (unchanged_is_noop demo_env demo_anki (lit "Q") (lit "A")
              (lit "12") (lit "3819048940") [] (mkWorld [] [])
              eq_refl digits_12 eq_refl)
    as (H1 & _ & _ & _ & H5 & _).
  split; [exact H1|exact H5].
Defined.

(** C9 -- Fingerprint definition.  The computed fingerprint is the CRC-32
    of the UTF-8 bytes of the front text followed by the back text with its
    markers erased and then stripped; it lies in [0, 2^32); and for a back
    text that is a marker embedded in a text without markers, the erased
    text is that text. *)
Theorem fingerprint_is_crc32 (E : Env) (c : Flashcard) :
  Flashcard._generate_card_sum c
  = crc32 (encode_utf8 (front c ++ strip (erase (back c))))
  /\ card_sum (Flashcard.analyze E c) = Some (Flashcard._generate_card_sum c)
  /\ (0 <= Flashcard._generate_card_sum c < 2 ^ 32)%Z
  /\ (forall p s id sum,
        digits id -> sum_ok sum -> marker_free (p ++ s) = true ->
        back c = p ++ marker id sum ++ s ->
        Flashcard._generate_card_sum c
        = crc32 (encode_utf8 (front c ++ strip (p ++ s)))).
Proof.
  split; [reflexivity|]. split; [|split].
  - unfold Flashcard.analyze.
    destruct (Flashcard._extract_anki_meta (back c)) as [[i cs] m].
    destruct i; [|reflexivity].
    destruct (negb _); reflexivity.
  - apply card_sum_word.
  - intros p s id sum. apply card_sum_embedded.
Qed.

Lemma fingerprint_is_crc32_witness :
  Flashcard._generate_card_sum
    (Flashcard.init (lit "Q") (lit "A <!--Meta:id=12;sum=5--> "))
  = crc32 (encode_utf8 (lit "Q" ++ strip (lit "A  "))).
Proof.
  apply (proj2 (proj2 (proj2 (fingerprint_is_crc32 demo_env
           (Flashcard.init (lit "Q") (lit "A <!--Meta:id=12;sum=5--> ")))))
           (lit "A ") (lit " ") (lit "12") (Some (lit "5"))).
  - exact digits_12.
  - left. split; [discriminate|reflexivity].
  - reflexivity.
  - reflexivity.
Defined.

(** C6 -- Fingerprint stability.  The fingerprint is a function of the
    front and back text alone; and two back texts that are the same
    marker-free text [R] with a marker embedded, whatever the marker holds
    and wherever it stands, have the fingerprint of [R]. *)
Theorem fingerprint_stable (f R : str) (k1 k2 : nat) (id1 id2 : str)
    (sum1 sum2 : option str) :
  marker_free R = true ->
  digits id1 -> sum_ok sum1 -> digits id2 -> sum_ok sum2 ->
  let b1 := firstn k1 R ++ marker id1 sum1 ++ skipn k1 R in
  let b2 := firstn k2 R ++ marker id2 sum2 ++ skipn k2 R in
  Flashcard._generate_card_sum (Flashcard.init f b1)
  = Flashcard._generate_card_sum (Flashcard.init f b2)
  /\ Flashcard._generate_card_sum (Flashcard.init f b1)
     = crc32 (encode_utf8 (f ++ strip R))
  /\ forall c c' : Flashcard,
       front c = front c' -> back c = back c' ->
       Flashcard._generate_card_sum c = Flashcard._generate_card_sum c'.
Proof.
  intros HR H1 S1 H2 S2 b1 b2.
  assert (E1 : Flashcard._generate_card_sum (Flashcard.init f b1)
               = crc32 (encode_utf8 (f ++ strip R))).
  { rewrite (card_sum_embedded (Flashcard.init f b1)
               (firstn k1 R) (skipn k1 R) id1 sum1 H1 S1);
      rewrite ?firstn_skipn; auto. }
  assert (E2 : Flashcard._generate_card_sum (Flashcard.init f b2)
               = crc32 (encode_utf8 (f ++ strip R))).
  { rewrite (card_sum_embedded (Flashcard.init f b2)
               (firstn k2 R) (skipn k2 R) id2 sum2 H2 S2);
      rewrite ?firstn_skipn; auto. }
  split; [congruence|]. split; [exact E1|].
  intros c c' Hf Hb. unfold Flashcard._generate_card_sum.
  now rewrite Hf, Hb.
Qed.

Lemma fingerprint_stable_witness :
  Flashcard._generate_card_sum
    (Flashcard.init (lit "Q") (lit "an<!--Meta:id=12;sum=5-->swer"))
  = Flashcard._generate_card_sum
      (Flashcard.init (lit "Q") (lit "answer<!--Meta:id=7-->")).
Proof.
  refine (proj1 (fingerprint_stable (lit "Q") (lit "answer") 2 6 (lit "12")
                   (lit "7") (Some (lit "5")) None _ _ _ _ _)).
  - reflexivity.
  - exact digits_12.
  - left. split; [discriminate|reflexivity].
  - split; [discriminate|reflexivity].
  - exact I.
Defined.

(** ** The marker [update_meta] writes *)

Lemma new_marker_text (id : str) (fp : Z) :
  lit "<!--Meta:id=" ++ format_id (Some (IdText id)) ++ lit ";sum="
  ++ format_sum (Some fp) ++ lit "-->"
  = marker id (Some (str_of_int fp)).
Proof. unfold marker, format_id, format_sum. now rewrite <- !app_assoc. Qed.

(** C4 -- Marker round-trip.  For a card classified update, [update_meta]
    replaces the old marker by the marker of the card's id and computed
    fingerprint; the marker pattern, matched where that marker stands in
    any text, recovers the id and the decimal text of the fingerprint, and
    so does the extraction from a text that holds no marker before it; the
    decimal text denotes the fingerprint. *)
Theorem marker_round_trip (E : Env) (f b : str) :
  let c := Flashcard.analyze E (Flashcard.init f b) in
  state c = Some STATE_UPDATE ->
  exists id fp old,
    anki_id c = Some (IdText id) /\ card_sum c = Some fp
    /\ _meta_value c = Some old
    /\ (forall origin,
          Flashcard.update_meta c origin
          = Ok (replace old (marker id (Some (str_of_int fp))) origin))
    /\ (forall post,
          match_at ANKI_META_REGEX (marker id (Some (str_of_int fp)) ++ post)
          = Some (length (marker id (Some (str_of_int fp))),
                  [(2, str_of_int fp); (1, id)]))
    /\ (forall pre post,
          marker_free pre = true ->
          Flashcard._extract_anki_meta
            (pre ++ marker id (Some (str_of_int fp)) ++ post)
          = (Some (IdText id), Some (str_of_int fp),
             Some (marker id (Some (str_of_int fp)))))
    /\ digits_value (str_of_int fp) = fp.
Proof.
  intros c Hst. subst c.
  destruct (first_marker b) as [Hfree | (p & id & sum & s & Hp & Hid & Hsum & Hb)].
  - destruct (analyze_create E (Flashcard.init f b) Hfree) as [H _].
    congruence.
  - destruct (analyze_marked E (Flashcard.init f b) p s id sum Hid Hsum Hp Hb)
      as (Hi & _ & Hm & Hc & _).
    set (fp := Flashcard._generate_card_sum (Flashcard.init f b)) in *.
    assert (Hfp : (0 <= fp)%Z) by apply card_sum_word.
    assert (Hnew : sum_ok (Some (str_of_int fp)))
      by (left; now apply str_of_int_digits).
    exists id, fp, (marker id sum).
    split; [exact Hi|]. split; [exact Hc|]. split; [exact Hm|].
    split; [|split; [|split]].
    + intros origin. unfold Flashcard.update_meta.
      rewrite Hst, Hi, Hc, Hm, new_marker_text. reflexivity.
    + intros post. now apply match_at_marker.
    + intros pre post Hpre. now apply extract_embedded.
    + now apply digits_value_str_of_int.
Qed.

Lemma marker_round_trip_witness :
  exists id fp old,
    anki_id (Flashcard.analyze demo_env
               (Flashcard.init (lit "Q") (lit "A<!--Meta:id=12;sum=5-->")))
    = Some (IdText id)
    /\ card_sum (Flashcard.analyze demo_env
                   (Flashcard.init (lit "Q") (lit "A<!--Meta:id=12;sum=5-->")))
       = Some fp
    /\ _meta_value (Flashcard.analyze demo_env
                      (Flashcard.init (lit "Q")
                         (lit "A<!--Meta:id=12;sum=5-->")))
       = Some old.
Proof.
  destruct (marker_round_trip demo_env (lit "Q")
              (lit "A<!--Meta:id=12;sum=5-->") eq_refl)
    as (id & fp & old & H1 & H2 & H3 & _).
  exists id, fp, old. auto.
Defined.

(** C7 -- Extraction correctness.  The example document yields exactly the
    card front1/back1.  In general the cards of a document are, in order,
    those of its blocks; a block whose split at the tag has exactly two
    parts yields the card of the two stripped parts, and any other block
    yields none. *)
Theorem extraction_correct :
  MarkdownFlashcardExtractor._parse_flashcards extraction_example
  = [Flashcard.init (lit "front1") (lit "back1")]
  /\ (forall content card,
        In card (MarkdownFlashcardExtractor._parse_flashcards content)
        <-> exists block front back,
              In block (split FLASHCARD_SEPARATOR content)
              /\ re_split FLASHCARD_REGEX block = [front; back]
              /\ card = Flashcard.init (strip front) (strip back))
  /\ (forall content,
        length (MarkdownFlashcardExtractor._parse_flashcards content)
        = length (filter
                    (fun block =>
                       length (re_split FLASHCARD_REGEX block) =? 2)
                    (split FLASHCARD_SEPARATOR content))).
Proof.
  split; [vm_compute; reflexivity|]. split.
  - intros content card.
    unfold MarkdownFlashcardExtractor._parse_flashcards.
    rewrite in_flat_map. split.
    + intros (block & Hin & Hc).
      destruct (re_split FLASHCARD_REGEX block) as [|x [|y [|z l]]] eqn:Es;
        try contradiction.
      destruct Hc as [<- | []]. now exists block, x, y.
    + intros (block & x & y & Hin & Es & ->).
      exists block. rewrite Es. split; [exact Hin|now left].
  - intros content.
    unfold MarkdownFlashcardExtractor._parse_flashcards.
    induction (split FLASHCARD_SEPARATOR content) as [|block l IH];
      [reflexivity|].
    cbn [flat_map filter]. rewrite length_app, IH.
    destruct (re_split FLASHCARD_REGEX block) as [|x [|y [|z l']]];
      reflexivity.
Qed.

(** ** Runs *)

Lemma bind_ok (A B : Type) (c : M A) (k : A -> M B) (w w' : World) (a : A) :
  c w = (Ok a, w') -> bind c k w = k a w'.
Proof. intros H. unfold bind. now rewrite H. Qed.

Lemma bind_raise (A B : Type) (c : M A) (k : A -> M B) (w w' : World)
    (e : exn) :
  c w = (Raise e, w') -> bind c k w = (Raise e, w').
Proof. intros H. unfold bind. now rewrite H. Qed.

(** A loop ends at the first iteration that raises. *)
Lemma for_each_raise (A B : Type) (body : A -> M B) (l1 l2 : list A)
    (x : A) (ys : list B) (w w1 w2 : World) (e : exn) :
  for_each body l1 w = (Ok ys, w1) ->
  body x w1 = (Raise e, w2) ->
  for_each body (l1 ++ x :: l2) w = (Raise e, w2).
Proof.
  revert ys w. induction l1 as [|a l1 IH]; intros ys w H1 H2.
  - cbn in H1. inversion H1; subst. cbn [app for_each].
    now apply bind_raise.
  - cbn [app for_each] in *. unfold bind in H1 |- *.
    destruct (body a w) as [[y|e'] wa]; [|discriminate].
    destruct (for_each body l1 wa) as [[ys'|e'] wb] eqn:El; [|discriminate].
    inversion H1; subst. now rewrite (IH ys' wa El H2).
Qed.

Lemma invoke_disk (A : Type) (E : Env) (answer : Server -> list request -> A)
    (req : request) (w w' : World) (r : result A) :
  AnkiConnect.invoke E answer req w = (r, w') -> disk w' = disk w.
Proof.
  unfold AnkiConnect.invoke.
  destruct (fails (server E) (posted w) req); intros H; inversion H;
    reflexivity.
Qed.

Lemma sync_card_disk (E : Env) (anki : AnkiConnect) (c : Flashcard)
    (w w' : World) (r : result Flashcard) :
  CardMarker.sync_card E anki c w = (r, w') -> disk w' = disk w.
Proof.
  unfold CardMarker.sync_card.
  destruct (state c) as [[|]|].
  - unfold AnkiConnect.add_note, bind.
    destruct (AnkiConnect.invoke _ _ _ w) as [[a|e] w1] eqn:Ei.
    + apply invoke_disk in Ei.
      destruct a; unfold ret; intros H; inversion H; subst; exact Ei.
    + apply invoke_disk in Ei. intros H; inversion H; subst; exact Ei.
  - unfold bind, lift.
    destruct (int_of_id (anki_id c)) as [n|e].
    + unfold AnkiConnect.update_note.
      destruct (AnkiConnect.invoke _ _ _ w) as [[a|e] w1] eqn:Ei;
        apply invoke_disk in Ei; unfold ret; intros H; inversion H; subst;
        exact Ei.
    + intros H; inversion H; reflexivity.
  - unfold ret. intros H; inversion H; reflexivity.
Qed.

Lemma make_card_disk (E : Env) (anki : AnkiConnect) (c : Flashcard)
    (w w' : World) (r : result Flashcard) :
  CardMarker.make_card E anki c w = (r, w') -> disk w' = disk w.
Proof.
  unfold CardMarker.make_card.
  destruct (state (Flashcard.analyze E c)).
  - apply sync_card_disk.
  - unfold ret. intros H; inversion H; reflexivity.
Qed.

Lemma for_each_make_card_disk (E : Env) (anki : AnkiConnect)
    (l : list Flashcard) (w w' : World) (r : result (list Flashcard)) :
  for_each (CardMarker.make_card E anki) l w = (r, w') -> disk w' = disk w.
Proof.
  revert w w' r. induction l as [|c l IH]; intros w w' r.
  - cbn. intros H; inversion H; reflexivity.
  - cbn [for_each]. unfold bind.
    destruct (CardMarker.make_card E anki c w) as [[y|e] w1] eqn:Ec;
      apply make_card_disk in Ec.
    + destruct (for_each (CardMarker.make_card E anki) l w1) as [[ys|e] w2] eqn:El;
        apply IH in El; unfold ret; intros H; inversion H; subst; congruence.
    + intros H; inversion H; subst; exact Ec.
Qed.

(** ** Created cards (C2) *)

(** C2 -- Create-case marker insertion: what the code does.  For a card
    without a marker, once [make_cards] has synced it and whatever id the
    endpoint assigned, [update_meta] raises [TypeError] on every document:
    the text to replace is [None].  No marker is inserted. *)
Theorem created_card_marker_raises (E : Env) (anki : AnkiConnect)
    (f b : str) (w w' : World) (c' : Flashcard) :
  marker_free b = true ->
  CardMarker.make_card E anki (Flashcard.init f b) w = (Ok c', w') ->
  state c' = Some STATE_INSERT
  /\ forall origin, Flashcard.update_meta c' origin = Raise TypeError.
Proof.
  intros Hfree Hmake.
  destruct (analyze_create E (Flashcard.init f b) Hfree) as (Hst & Hid & Hm).
  unfold CardMarker.make_card in Hmake. rewrite Hst in Hmake.
  unfold CardMarker.sync_card in Hmake. rewrite Hst in Hmake.
  unfold bind in Hmake.
  destruct (AnkiConnect.add_note E anki _ _ w) as [[a|e] w1]; [|discriminate].
  assert (Hc : state c' = Some STATE_INSERT /\ _meta_value c' = None).
  { destruct a as [new_id|]; unfold ret in Hmake; inversion Hmake; subst;
      cbn; auto. }
  destruct Hc as [Hs Hmv]. split; [exact Hs|].
  intros origin. unfold Flashcard.update_meta. now rewrite Hs, Hmv.
Qed.

Lemma created_card_marker_raises_witness :
  Flashcard.update_meta
    (set_anki_id
       (Flashcard.analyze demo_env (Flashcard.init (lit "Q") (lit "A")))
       (Some (IdNum 1600000000000)))
    new_card = Raise TypeError.
Proof.
  refine (proj2 (created_card_marker_raises demo_env demo_anki (lit "Q")
                   (lit "A") (mkWorld [] [])
                   (mkWorld []
                      [addNote (lit "Default") (lit "Basic") (Some (lit "Q"))
                         (Some (lit "A"))])
                   _ _ _) new_card).
  - reflexivity.
  - reflexivity.
Defined.

(** The run on a folder that holds one document with one new card: the
    note is added, then the run ends in [TypeError] and the document is
    left without a marker. *)
Lemma created_card_run :
  main demo_env (lit "Default") (lit "Basic")
    (mkWorld [(lit "a.md", new_card)] [])
  = (Raise TypeError,
     mkWorld [(lit "a.md", new_card)]
       [deckNames;
        addNote (lit "Default") (lit "Basic") (Some (lit "Q"))
          (Some (lit "A"))]).
Proof. vm_compute. reflexivity. Qed.

Lemma existsb_str_eqb (x : str) (l : list str) :
  existsb (str_eqb x) l = true <-> In x l.
Proof.
  rewrite existsb_exists. split.
  - intros (y & Hin & Heq). apply str_eqb_eq in Heq. now subst.
  - intros Hin. exists x. split; [exact Hin|apply str_eqb_refl].
Qed.

(** C10 -- A deck that the endpoint does not list.  When the deck query
    returns a list of names (the list of the answer, or the empty list for
    an answer without result) that does not hold the deck name,
    [prepare_deck] raises [TypeError] at the call of [create_deck] with an
    argument the method does not take: no [createDeck] request is posted,
    the deck is not created, and [main] ends there, before it reads a
    document. *)
Theorem missing_deck_aborts (E : Env) (deck model : str) (names : list str)
    (w w' : World) :
  AnkiConnect.deck_names E w = (Ok (Some names), w') ->
  ~ In deck names ->
  prepare_deck E deck {| deck_name := deck; model_name := model |} w
  = (Raise TypeError, w')
  /\ main E deck model w = (Raise TypeError, w')
  /\ w' = {| disk := disk w; posted := posted w ++ [deckNames] |}.
Proof.
  intros Hnames Hnot.
  assert (Hp : prepare_deck E deck {| deck_name := deck; model_name := model |} w
               = (Raise TypeError, w')).
  { assert (Ex : existsb (str_eqb deck) names = false).
    { destruct (existsb (str_eqb deck) names) eqn:Ex; [|reflexivity].
      apply existsb_str_eqb in Ex. contradiction. }
    unfold prepare_deck. erewrite bind_ok by exact Hnames.
    cbv beta iota. unfold str, char in *. rewrite Ex. reflexivity. }
  split; [exact Hp|]. split.
  - unfold main. apply bind_raise. exact Hp.
  - unfold AnkiConnect.deck_names, AnkiConnect.invoke, bind in Hnames.
    destruct (fails (server E) (posted w) deckNames); [discriminate|].
    destruct (deck_list (server E) (posted w)) as [[l|]|];
      cbn [ret] in Hnames; now inversion Hnames.
Qed.

Lemma missing_deck_aborts_witness :
  main demo_env (lit "Biology") (lit "Basic")
    (mkWorld [(lit "a.md", new_card)] [])
  = (Raise TypeError, mkWorld [(lit "a.md", new_card)] [deckNames]).
Proof.
  refine (proj1 (proj2 (missing_deck_aborts demo_env (lit "Biology")
                          (lit "Basic") [lit "Default"]
                          (mkWorld [(lit "a.md", new_card)] [])
                          (mkWorld [(lit "a.md", new_card)] [deckNames])
                          _ _))).
  - reflexivity.
  - intros [H|[]]. discriminate H.
Defined.

(** ** A remote call that fails (C3) *)

(** The claim fails on the document of three stale cards when the update
    of the second raises: the third card is never sent, and no marker of
    the document is rewritten. *)
Lemma failure_is_not_isolated :
  main failing_env (lit "Default") (lit "Basic")
    (mkWorld [(lit "a.md", three_cards)] [])
  = (Raise RequestException,
     mkWorld [(lit "a.md", three_cards)]
       [deckNames;
        updateNoteFields 1 (Some (lit "Q1"))
          (Some (lit "A1<!--Meta:id=1;sum=0-->"));
        updateNoteFields 2 (Some (lit "Q2"))
          (Some (lit "A2<!--Meta:id=2;sum=0-->"))]).
Proof. vm_compute. reflexivity. Qed.

Lemma read_file_inv (file content : str) (w w' : World) :
  MarkdownFlashcardExtractor._read_file file w = (Ok content, w') -> w' = w.
Proof.
  unfold MarkdownFlashcardExtractor._read_file.
  destruct (find _ (disk w)); intros H; inversion H; reflexivity.
Qed.

(** C3, as the code has it -- a remote failure is not isolated.  A request
    on which the endpoint fails makes [invoke] raise.  When the processing
    of a card raises, for that or any other reason, [make_cards] ends
    there, and with it the loop of [main] over the documents: no later
    card and no later document is synced, and the document at hand is not
    rewritten. *)
Theorem remote_failure_aborts (E : Env) (anki : AnkiConnect)
    (file content : str) (rest : list str) (l1 l2 l1' : list Flashcard)
    (c : Flashcard) (w w1 w2 : World) (e : exn) :
  MarkdownFlashcardExtractor._read_file file w = (Ok content, w) ->
  MarkdownFlashcardExtractor._parse_flashcards content = l1 ++ c :: l2 ->
  for_each (CardMarker.make_card E anki) l1 w = (Ok l1', w1) ->
  CardMarker.make_card E anki c w1 = (Raise e, w2) ->
  CardMarker.make_cards E anki file w = (Raise e, w2)
  /\ for_each (sync_file E anki) (file :: rest) w = (Raise e, w2)
  /\ disk w2 = disk w
  /\ (forall (A : Type) (answer : Server -> list request -> A) req w0,
        fails (server E) (posted w0) req = true ->
        AnkiConnect.invoke E answer req w0
        = (Raise RequestException,
           {| disk := disk w0; posted := posted w0 ++ [req] |})).
Proof.
  intros Hread Hparse Hl1 Hc.
  assert (Hmake : CardMarker.make_cards E anki file w = (Raise e, w2)).
  { assert (Hex : MarkdownFlashcardExtractor.extract_flashcards file w
                   = (Ok (l1 ++ c :: l2, content), w)).
    { unfold MarkdownFlashcardExtractor.extract_flashcards, bind.
      rewrite Hread, Hparse. reflexivity. }
    unfold CardMarker.make_cards. erewrite bind_ok by exact Hex.
    apply bind_raise.
    now apply for_each_raise with (ys := l1') (w1 := w1). }
  split; [exact Hmake|]. split; [|split].
  - cbn [for_each]. apply bind_raise. unfold sync_file.
    now apply bind_raise.
  - apply for_each_make_card_disk in Hl1. apply make_card_disk in Hc.
    congruence.
  - intros A answer req w0 Hf. unfold AnkiConnect.invoke. now rewrite Hf.
Qed.

Lemma remote_failure_aborts_witness :
  for_each (sync_file failing_env demo_anki) [lit "a.md"; lit "b.md"]
    (mkWorld [(lit "a.md", three_cards); (lit "b.md", three_cards)] [])
  = (Raise RequestException,
     mkWorld [(lit "a.md", three_cards); (lit "b.md", three_cards)]
       [updateNoteFields 1 (Some (lit "Q1"))
          (Some (lit "A1<!--Meta:id=1;sum=0-->"));
        updateNoteFields 2 (Some (lit "Q2"))
          (Some (lit "A2<!--Meta:id=2;sum=0-->"))]).
Proof.
  refine (proj1 (proj2 (remote_failure_aborts failing_env demo_anki
            (lit "a.md") three_cards [lit "b.md"]
            [Flashcard.init (lit "Q1") (lit "A1<!--Meta:id=1;sum=0-->")]
            [Flashcard.init (lit "Q3") (lit "A3<!--Meta:id=3;sum=0-->")]
            [Flashcard.analyze failing_env
               (Flashcard.init (lit "Q1") (lit "A1<!--Meta:id=1;sum=0-->"))]
            (Flashcard.init (lit "Q2") (lit "A2<!--Meta:id=2;sum=0-->"))
            (mkWorld [(lit "a.md", three_cards); (lit "b.md", three_cards)] [])
            (mkWorld [(lit "a.md", three_cards); (lit "b.md", three_cards)]
               [updateNoteFields 1 (Some (lit "Q1"))
                  (Some (lit "A1<!--Meta:id=1;sum=0-->"))])
            _ RequestException _ _ _ _))).
  - reflexivity.
  - vm_compute. reflexivity.
  - vm_compute. reflexivity.
  - vm_compute. reflexivity.
Defined.

(** ** Rewriting markers in place *)

Lemma is_marker_intro (id : str) (sum : option str) :
  digits id -> sum_ok sum -> is_marker (marker id sum).
Proof. intros H1 H2. now exists id, sum. Qed.

Lemma rewrite_text_nil (r : str -> str) : rewrite_text r [] = [].
Proof. reflexivity. Qed.

Lemma rewrite_text_gap (r : str -> str) (c : char) (s : str) :
  meta_at (c :: s) = None ->
  rewrite_text r (c :: s) = c :: rewrite_text r s.
Proof.
  intros H. unfold rewrite_text. now rewrite meta_pieces_gap.
Qed.

Lemma rewrite_text_marker (r : str -> str) (t rest : str) :
  is_marker t -> rewrite_text r (t ++ rest) = r t ++ rewrite_text r rest.
Proof.
  intros (id & sum & Hid & Hsum & ->). unfold rewrite_text.
  now rewrite meta_pieces_marker.
Qed.

Lemma rewrite_text_plain (r : str -> str) (a s : str) :
  forallb (fun c => negb (chr_eqb c 60%N)) a = true ->
  rewrite_text r (a ++ s) = a ++ rewrite_text r s.
Proof.
  intros H. unfold rewrite_text. rewrite meta_pieces_plain by exact H.
  rewrite substitute_app. f_equal. apply substitute_gaps.
Qed.

Lemma rewrite_text_cut (r : str -> str) (a b : str) :
  closed_head b ->
  rewrite_text r (a ++ b) = rewrite_text r a ++ rewrite_text r b.
Proof.
  intros H. unfold rewrite_text. rewrite meta_pieces_cut by exact H.
  apply substitute_app.
Qed.

(** Induction on a text along its pieces. *)
Lemma text_ind (P : str -> Prop) :
  P [] ->
  (forall c s, meta_at (c :: s) = None -> P s -> P (c :: s)) ->
  (forall t rest, is_marker t -> P rest -> P (t ++ rest)) ->
  forall s, P s.
Proof.
  intros Hnil Hgap Hhit s.
  assert (G : forall n s, length s <= n -> P s).
  { clear s. induction n as [|n IH]; intros s Hlen.
    - destruct s; [exact Hnil|simpl in Hlen; lia].
    - destruct (meta_pieces_cases s)
        as [-> | [(c & s' & -> & Hnone & _)
                 | (id & sum & rest & Hid & Hsum & -> & _)]].
      + exact Hnil.
      + apply Hgap; [exact Hnone|]. apply IH. simpl in Hlen. lia.
      + apply Hhit; [now apply is_marker_intro|]. apply IH.
        rewrite length_app in Hlen.
        pose proof (marker_nonempty id sum) as Hne.
        destruct (marker id sum); [congruence|simpl in Hlen; lia]. }
  apply (G (length s)). lia.
Qed.

Lemma is_marker_head (t : str) :
  is_marker t ->
  exists body, t = 60%N :: body /\ forallb marker_char body = true.
Proof. intros (id & sum & Hid & Hsum & ->). now apply marker_body. Qed.

Lemma is_marker_closed_head (t rest : str) :
  is_marker t -> closed_head (t ++ rest).
Proof. intros H. apply is_marker_head in H as (body & -> & _). reflexivity. Qed.

(** A text and its rewriting agree up to the [<] of the first marker, so
    what is matched at the head of a text before them is the same. *)
Lemma meta_at_rewrite (r : str -> str) (a s : str) :
  keeps_markers r -> a <> [] ->
  meta_at (a ++ rewrite_text r s) = meta_at (a ++ s).
Proof.
  intros Hr. revert a. pattern s. apply text_ind; clear s.
  - reflexivity.
  - intros c s Hnone IH a Ha. rewrite rewrite_text_gap by exact Hnone.
    change (a ++ c :: rewrite_text r s) with (a ++ [c] ++ rewrite_text r s).
    change (a ++ c :: s) with (a ++ [c] ++ s).
    rewrite !app_assoc. apply IH. now destruct a.
  - intros t rest Ht _ a Ha. rewrite rewrite_text_marker by exact Ht.
    rewrite !meta_at_seal; auto using is_marker_closed_head.
Qed.

(** The pieces of a rewritten text. *)
Lemma meta_pieces_rewrite (r : str -> str) (s : str) :
  keeps_markers r ->
  meta_pieces (rewrite_text r s) = map (retag r) (meta_pieces s).
Proof.
  intros Hr. pattern s. apply text_ind; clear s.
  - reflexivity.
  - intros c s Hnone IH. rewrite rewrite_text_gap by exact Hnone.
    rewrite !meta_pieces_gap; [now rewrite IH|exact Hnone|].
    change (c :: rewrite_text r s) with ([c] ++ rewrite_text r s).
    rewrite meta_at_rewrite; [exact Hnone|exact Hr|discriminate].
  - intros t rest Ht IH. rewrite rewrite_text_marker by exact Ht.
    destruct (Hr t Ht) as (id' & sum' & Hid' & Hsum' & Hrt).
    destruct Ht as (id & sum & Hid & Hsum & ->).
    rewrite Hrt, !meta_pieces_marker by assumption. cbn [map retag].
    rewrite IH. f_equal. rewrite Hrt. f_equal.
    unfold groups_of.
    rewrite <- (app_nil_r (marker id' sum')).
    now rewrite match_at_marker.
Qed.

Lemma erase_rewrite (r : str -> str) (s : str) :
  keeps_markers r -> erase (rewrite_text r s) = erase s.
Proof.
  intros Hr. unfold erase, sub. fold (meta_pieces (rewrite_text r s)).
  fold (meta_pieces s). rewrite meta_pieces_rewrite by exact Hr.
  unfold substitute.
  induction (meta_pieces s) as [|[c|t g] ps IH]; cbn; congruence.
Qed.

Lemma hits_rewrite (r : str -> str) (s : str) :
  keeps_markers r ->
  hits (meta_pieces (rewrite_text r s))
  = map (fun h => (r (fst h), groups_of (r (fst h)))) (hits (meta_pieces s)).
Proof.
  intros Hr. rewrite meta_pieces_rewrite by exact Hr.
  induction (meta_pieces s) as [|[c|t g] ps IH]; cbn; congruence.
Qed.

Lemma rewrite_rewrite (r1 r2 : str -> str) (s : str) :
  keeps_markers r1 ->
  rewrite_text r2 (rewrite_text r1 s) = rewrite_text (fun t => r2 (r1 t)) s.
Proof.
  intros Hr. unfold rewrite_text at 1.
  rewrite meta_pieces_rewrite by exact Hr. unfold rewrite_text, substitute.
  induction (meta_pieces s) as [|[c|t g] ps IH]; cbn; congruence.
Qed.

Lemma rewrite_text_ext (r r' : str -> str) (s : str) :
  (forall h, In h (hits (meta_pieces s)) -> r (fst h) = r' (fst h)) ->
  rewrite_text r s = rewrite_text r' s.
Proof.
  unfold rewrite_text, substitute.
  induction (meta_pieces s) as [|[c|t g] ps IH]; cbn; intros H.
  - reflexivity.
  - f_equal. now apply IH.
  - pose proof (H (t, g) (or_introl eq_refl)) as Ht. cbn in Ht.
    rewrite Ht. f_equal. apply IH.
    intros h Hh. apply H. now right.
Qed.

Lemma substitute_same (G : Type) (m : str -> option (nat * G)) (s : str)
    (k : nat) :
  substitute (fun t _ => t) (pieces_from m k s) = skipn k s.
Proof.
  revert k. induction s as [|c s IH]; intros k.
  - now destruct k.
  - destruct k as [|k]; cbn [pieces_from skipn].
    + destruct (m (c :: s)) as [[[|n] g]|] eqn:Em.
      * cbn. f_equal. apply (IH 0).
      * cbn [substitute flat_map]. 
        change (flat_map _ (pieces_from m n s))
          with (substitute (fun (t : str) (_ : G) => t) (pieces_from m n s)).
        rewrite IH. cbn [firstn app]. f_equal. apply firstn_skipn.
      * cbn. f_equal. apply (IH 0).
    + apply IH.
Qed.

Lemma rewrite_text_id (s : str) : rewrite_text (fun t => t) s = s.
Proof. unfold rewrite_text, meta_pieces, pieces. apply (substitute_same _ _ s 0). Qed.

(** ** Splitting commutes with the rewriting of markers *)

Lemma meta_at_prefix_none (x tail : str) :
  meta_at (x ++ tail) = None -> meta_at x = None.
Proof.
  intros H. destruct (meta_at x) as [[id sum]|] eqn:E; [|reflexivity].
  apply meta_at_inv in E as (Hid & Hsum & rest & ->).
  rewrite <- app_assoc, meta_at_marker in H by assumption. discriminate.
Qed.

Section Parts.
Variable G : Type.

Lemma parts_nonempty (ps : list (piece G)) : parts ps <> [].
Proof.
  destruct ps as [|[c|t g] ps]; cbn; [discriminate| |discriminate].
  destruct (parts ps); discriminate.
Qed.

Lemma parts_gaps (x : str) (ps : list (piece G)) :
  parts (map Gap x ++ ps) = prepend x (parts ps).
Proof.
  pose proof (parts_nonempty ps) as Hne.
  induction x as [|c x IH]; cbn [map app parts].
  - unfold prepend. destruct (parts ps); [congruence|reflexivity].
  - rewrite IH. unfold prepend. destruct (parts ps); [congruence|reflexivity].
Qed.

Lemma parts_head_prefix (ps : list (piece G)) :
  exists tail,
    substitute (fun t _ => t) ps = hd [] (parts ps) ++ tail.
Proof.
  induction ps as [|[c|t g] ps IH].
  - now exists [].
  - destruct IH as (tail & IH). exists tail. cbn.
    fold (substitute (fun (t : str) (_ : G) => t) ps). rewrite IH.
    now destruct (parts ps).
  - cbn. eexists. reflexivity.
Qed.

Variable m : str -> option (nat * G).

Lemma first_part_prefix (s : str) :
  exists tail, s = hd [] (parts (pieces m s)) ++ tail.
Proof.
  destruct (parts_head_prefix (pieces m s)) as (tail & H).
  exists tail. rewrite <- H. symmetry. apply (substitute_same _ m s 0).
Qed.

(** A stretch of the text inside which the matcher finds nothing. *)
Lemma pieces_through (x rest : str) :
  (forall k, k < length x -> m (skipn k x ++ rest) = None) ->
  pieces m (x ++ rest) = map Gap x ++ pieces m rest.
Proof.
  induction x as [|c x IH]; intros H; [reflexivity|].
  cbn [app map]. rewrite pieces_gap.
  - f_equal. apply IH. intros k Hk. apply (H (S k)). simpl. lia.
  - apply (H 0). simpl. lia.
Qed.

Hypothesis Hm : oblivious m.

Lemma oblivious_head (y : str) : m (60%N :: y) = None.
Proof.
  destruct (m (60%N :: y)) as [[n g]|] eqn:E; [|reflexivity].
  apply (obl_hit Hm) in E as [[Hn _] Hall].
  destruct n; [lia|]. cbn in Hall. discriminate.
Qed.

Lemma pieces_marker_through (t rest : str) :
  is_marker t -> pieces m (t ++ rest) = map Gap t ++ pieces m rest.
Proof.
  intros Ht. apply pieces_through. intros k Hk.
  now apply (obl_inside Hm).
Qed.

Variable r : str -> str.
Hypothesis Hr : keeps_markers r.

(** The matcher sees the same in a text and in its rewriting. *)
Lemma oblivious_rewrite (a s : str) :
  m (a ++ rewrite_text r s) = m (a ++ s).
Proof.
  revert a. pattern s. apply text_ind; clear s.
  - reflexivity.
  - intros c s Hnone IH a. rewrite rewrite_text_gap by exact Hnone.
    change (a ++ c :: rewrite_text r s) with (a ++ [c] ++ rewrite_text r s).
    change (a ++ c :: s) with (a ++ [c] ++ s).
    rewrite !app_assoc. apply IH.
  - intros t rest Ht _ a. rewrite rewrite_text_marker by exact Ht.
    destruct (is_marker_head _ (Hr t Ht)) as (body' & -> & _).
    destruct (is_marker_head _ Ht) as (body & Hb & _). rewrite Hb.
    cbn [app]. apply (obl_blind Hm).
Qed.

(** Induction along the markers and the hits of the matcher. *)
Lemma scan_ind (P : str -> Prop) :
  P [] ->
  (forall t rest, is_marker t -> P rest -> P (t ++ rest)) ->
  (forall u rest g,
      u <> [] -> m (u ++ rest) = Some (length u, g) ->
      forallb (fun c => negb (chr_eqb c 60%N)) u = true ->
      P rest -> P (u ++ rest)) ->
  (forall c s, meta_at (c :: s) = None -> m (c :: s) = None ->
               P s -> P (c :: s)) ->
  forall s, P s.
Proof.
  intros Hnil Hmark Hhit Hgap s.
  assert (A : forall n s, length s <= n -> P s).
  { clear s. induction n as [|n IH]; intros s Hlen.
    - destruct s; [exact Hnil|simpl in Hlen; lia].
    - destruct (meta_pieces_cases s)
        as [-> | [(c & s' & -> & Hnone & _)
                 | (id & sum & rest & Hid & Hsum & -> & _)]].
      + exact Hnil.
      + destruct (m (c :: s')) as [[k g]|] eqn:Em.
        * destruct (obl_hit Hm _ Em) as [[Hk Hk'] Hall].
          rewrite <- (firstn_skipn k (c :: s')) in Em |- *.
          assert (Hlenu : length (firstn k (c :: s')) = k)
            by (apply firstn_length_le; exact Hk').
          apply Hhit with (g := g).
          -- intros E. rewrite E in Hlenu. simpl in Hlenu. lia.
          -- now rewrite Hlenu.
          -- exact Hall.
          -- apply IH. rewrite length_skipn. clear - Hlen Hk.
             unfold str, char in *. cbn [length] in *. lia.
        * apply Hgap; auto. apply IH. simpl in Hlen. lia.
      + apply Hmark; [now apply is_marker_intro|]. apply IH.
        rewrite length_app in Hlen.
        pose proof (marker_nonempty id sum) as Hne.
        destruct (marker id sum); [congruence|simpl in Hlen; lia]. }
  apply (A (length s)). lia.
Qed.

Lemma rewrite_text_first_part (c : char) (s : str) :
  meta_at (c :: s) = None ->
  rewrite_text r (c :: hd [] (parts (pieces m s)))
  = c :: rewrite_text r (hd [] (parts (pieces m s))).
Proof.
  intros Hnone. apply rewrite_text_gap.
  destruct (first_part_prefix s) as (tail & Hs).
  rewrite Hs in Hnone.
  change (c :: hd [] (parts (pieces m s)) ++ tail)
    with ((c :: hd [] (parts (pieces m s))) ++ tail) in Hnone.
  now apply meta_at_prefix_none in Hnone.
Qed.

(** The parts of the rewritten text are the rewritten parts. *)
Lemma parts_rewrite (s : str) :
  parts (pieces m (rewrite_text r s))
  = map (rewrite_text r) (parts (pieces m s)).
Proof.
  pattern s. apply scan_ind; clear s.
  - reflexivity.
  - intros t rest Ht IH. rewrite rewrite_text_marker by exact Ht.
    rewrite !pieces_marker_through by auto. rewrite !parts_gaps, IH.
    destruct (parts (pieces m rest)) as [|p q] eqn:Ep.
    + now destruct (parts_nonempty _ Ep).
    + cbn [map prepend]. now rewrite rewrite_text_marker.
  - intros u rest g Hu Hmu Hplain IH.
    rewrite rewrite_text_plain by exact Hplain.
    rewrite (pieces_hit _ m u rest g Hu Hmu).
    rewrite (pieces_hit _ m u (rewrite_text r rest) g Hu).
    + cbn [parts map]. now rewrite IH.
    + now rewrite oblivious_rewrite.
  - intros c s Hnone Hmnone IH. rewrite rewrite_text_gap by exact Hnone.
    rewrite !pieces_gap; [| exact Hmnone |].
    + cbn [parts]. rewrite IH.
      pose proof (rewrite_text_first_part c s Hnone) as Hfp.
      destruct (parts (pieces m s)) as [|p q] eqn:Ep.
      * now destruct (parts_nonempty _ Ep).
      * cbn [map hd] in *. now rewrite Hfp.
    + change (c :: rewrite_text r s) with ([c] ++ rewrite_text r s).
      now rewrite oblivious_rewrite.
Qed.

(** The markers of a text are those of its parts. *)
Lemma hits_parts (s : str) :
  hits (meta_pieces s)
  = flat_map (fun p => hits (meta_pieces p)) (parts (pieces m s)).
Proof.
  pattern s. apply scan_ind; clear s.
  - reflexivity.
  - intros t rest Ht IH.
    rewrite pieces_marker_through by exact Ht. rewrite parts_gaps.
    destruct Ht as (id & sum & Hid & Hsum & ->).
    rewrite meta_pieces_marker by assumption. cbn [hits]. rewrite IH.
    destruct (parts (pieces m rest)) as [|p q] eqn:Ep.
    + now destruct (parts_nonempty _ Ep).
    + cbn [prepend flat_map]. now rewrite meta_pieces_marker.
  - intros u rest g Hu Hmu Hplain IH.
    rewrite (pieces_hit _ m u rest g Hu Hmu). cbn [parts flat_map app].
    rewrite meta_pieces_plain by exact Hplain. rewrite <- IH.
    clear. induction u; cbn; auto.
  - intros c s Hnone Hmnone IH.
    rewrite pieces_gap by exact Hmnone. cbn [parts].
    rewrite meta_pieces_gap by exact Hnone. cbn [hits]. rewrite IH.
    destruct (first_part_prefix s) as (tail & Hs).
    destruct (parts (pieces m s)) as [|p q] eqn:Ep.
    + now destruct (parts_nonempty _ Ep).
    + cbn [flat_map hd] in *. rewrite meta_pieces_gap; [reflexivity|].
      rewrite Hs in Hnone.
      change (c :: p ++ tail) with ((c :: p) ++ tail) in Hnone.
      now apply meta_at_prefix_none in Hnone.
Qed.

End Parts.

(** ** The separator next to markers *)

Lemma lit_at_separator (s : str) :
  lit_at FLASHCARD_SEPARATOR s = if dash3 s then Some (3, tt) else None.
Proof.
  unfold lit_at, FLASHCARD_SEPARATOR, dash3.
  cbn [lit map list_ascii_of_string strip_prefix].
  change (N_of_ascii "-") with 45%N.
  destruct s as [|a [|b [|c s]]]; cbn [strip_prefix].
  - reflexivity.
  - destruct (chr_eqb 45%N a); reflexivity.
  - destruct (chr_eqb 45%N a), (chr_eqb 45%N b); reflexivity.
  - destruct (chr_eqb 45%N a), (chr_eqb 45%N b), (chr_eqb 45%N c); reflexivity.
Qed.

Lemma dash_safe_app (a b : str) :
  dash_safe a -> dash_safe b -> dash_safe (a ++ b).
Proof.
  intros Ha Hb k y Hk. rewrite skipn_app, <- app_assoc.
  destruct (Nat.lt_ge_cases k (length a)) as [Hlt|Hge].
  - now apply Ha.
  - rewrite (skipn_all2 a) by exact Hge. cbn [app].
    apply Hb. rewrite length_app in Hk. lia.
Qed.

Lemma dash_safe_nil : dash_safe [].
Proof. intros k y Hk. simpl in Hk. lia. Qed.

Lemma dash_safe_plain (s : str) :
  forallb (fun c => negb (chr_eqb 45%N c)) s = true -> dash_safe s.
Proof.
  induction s as [|c s IH]; intros H; [apply dash_safe_nil|].
  cbn [forallb] in H. apply andb_true_iff in H as [Hc Hs].
  apply negb_true_iff in Hc.
  intros [|k] y Hk.
  - cbn [skipn app dash3]. destruct (s ++ y) as [|b [|d l]]; try reflexivity.
    now rewrite Hc.
  - cbn [skipn]. apply (IH Hs). simpl in Hk. lia.
Qed.

Lemma digits_no_dash (s : str) :
  forallb is_decimal s = true ->
  forallb (fun c => negb (chr_eqb 45%N c)) s = true.
Proof.
  induction s as [|c s IH]; [reflexivity|]. cbn [forallb].
  rewrite !andb_true_iff. intros [Hc Hs]. split; [|now apply IH].
  now rewrite (decimal_neq c 45%N Hc eq_refl).
Qed.

Lemma dash_safe_open : dash_safe (lit "<!--Meta:id=").
Proof.
  intros k y Hk. cbn [lit map list_ascii_of_string length] in *.
  do 12 (destruct k as [|k]; [destruct y as [|y1 [|y2 y]]; reflexivity|]). lia.
Qed.

Lemma dash_safe_sum : dash_safe (lit ";sum=").
Proof. apply dash_safe_plain. reflexivity. Qed.

Lemma dash_safe_close : dash_safe (lit "-->").
Proof.
  intros k y Hk. cbn [lit map list_ascii_of_string length] in *.
  do 3 (destruct k as [|k]; [destruct y as [|y1 [|y2 y]]; reflexivity|]). lia.
Qed.

Lemma dash_safe_signed (t : str) : signed_digits t -> dash_safe t.
Proof.
  intros [[_ H] | (ds & -> & [Hne H])].
  - now apply dash_safe_plain, digits_no_dash.
  - intros [|k] y Hk.
    + destruct ds as [|d ds]; [now elim Hne|].
      cbn [forallb] in H. apply andb_true_iff in H as [Hd _].
      cbn [skipn app dash3].
      match goal with |- match ?l with _ => _ end = _ => destruct l end;
        [reflexivity|].
      rewrite (decimal_neq d 45%N Hd eq_refl). now rewrite andb_false_r.
    + cbn [skipn]. apply (dash_safe_plain ds (digits_no_dash ds H)).
      simpl in Hk. lia.
Qed.

Lemma dash_safe_marker (t : str) : is_marker t -> dash_safe t.
Proof.
  intros (id & sum & [_ Hid] & Hsum & ->). unfold marker.
  apply dash_safe_app; [apply dash_safe_open|].
  apply dash_safe_app; [now apply dash_safe_plain, digits_no_dash|].
  apply dash_safe_app; [|apply dash_safe_close].
  destruct sum as [t|]; [|apply dash_safe_nil].
  apply dash_safe_app; [apply dash_safe_sum|now apply dash_safe_signed].
Qed.

Lemma dash3_blind (a y y' : str) :
  dash3 (a ++ 60%N :: y) = dash3 (a ++ 60%N :: y').
Proof.
  destruct a as [|c1 [|c2 [|c3 a]]]; cbn [app dash3].
  - destruct y as [|y1 [|y2 y]], y' as [|z1 [|z2 y']]; reflexivity.
  - destruct y as [|y1 y], y' as [|z1 y']; try reflexivity;
      destruct (chr_eqb 45%N c1); reflexivity.
  - destruct (chr_eqb 45%N c1), (chr_eqb 45%N c2); reflexivity.
  - reflexivity.
Qed.

(** The separator is oblivious of markers. *)
Lemma separator_oblivious : oblivious (lit_at FLASHCARD_SEPARATOR).
Proof.
  split.
  - intros a y y'. rewrite !lit_at_separator.
    pose proof (dash3_blind a y y') as H. unfold str, char in H.
    now rewrite H.
  - intros s n g H. rewrite lit_at_separator in H.
    destruct (dash3 s) eqn:Ed; [|discriminate]. inversion H; subst.
    unfold dash3 in Ed. destruct s as [|a [|b [|c s]]]; try discriminate.
    apply andb_true_iff in Ed as [Ed Hc]. apply andb_true_iff in Ed as [Ha Hb].
    apply chr_eqb_eq in Ha, Hb, Hc. subst. split; [simpl; lia|reflexivity].
  - intros t k rest Ht Hk. rewrite lit_at_separator.
    now rewrite (dash_safe_marker t Ht k rest Hk).
Qed.

(** ** The tag next to markers *)

Lemma run_LitI (A : Type) (p s : str) (caps : captures)
    (k : str -> captures -> option A) :
  run (LitI p) s caps k =
  match strip_classes
          (map (fun c => if is_lower_ascii c then ignore_case c
                         else chr_eqb c) p) s with
  | Some rest => k rest caps
  | None => None
  end.
Proof.
  revert s; induction p as [|a p IH]; intros s; [reflexivity|].
  cbn [LitI fold_right run map strip_classes].
  destruct s as [|b s]; [reflexivity|].
  destruct ((if is_lower_ascii a then ignore_case a else chr_eqb a) b);
    [apply IH|reflexivity].
Qed.

Lemma greedy_total (A : Type) (f : char -> bool) (k : str -> option A)
    (s : str) :
  (forall x, k x <> None) -> greedy f k s = k (dropwhile f s).
Proof.
  intros Hk. induction s as [|c s IH]; simpl; [reflexivity|].
  destruct (f c); [|reflexivity]. rewrite IH.
  destruct (k (dropwhile f s)) eqn:E; [reflexivity|]. now apply Hk in E.
Qed.

Lemma strip_classes_prefix (fs : list (char -> bool)) (s rest : str) :
  strip_classes fs s = Some rest ->
  exists pre,
    s = pre ++ rest /\ length pre = length fs
    /\ forall g, (forall f, In f fs -> f g = false) ->
                 forallb (fun c => negb (chr_eqb c g)) pre = true.
Proof.
  revert s. induction fs as [|f fs IH]; intros s H.
  - cbn in H. inversion H. exists []. repeat split. 
  - destruct s as [|c s]; [discriminate|]. cbn [strip_classes] in H.
    destruct (f c) eqn:Ef; [|discriminate].
    destruct (IH s H) as (pre & -> & Hlen & Hall).
    exists (c :: pre). split; [reflexivity|]. split; [simpl; lia|].
    intros g Hg. cbn [forallb]. rewrite Hall.
    + rewrite andb_true_r. apply negb_true_iff, chr_eqb_neq. intros ->.
      rewrite (Hg f) in Ef; [discriminate|now left].
    + intros f' Hf'. apply Hg. now right.
Qed.

Lemma match_at_tag (s : str) :
  match_at FLASHCARD_REGEX s
  = match tag_at s with
    | Some n => Some (n, [])
    | None => None
    end.
Proof.
  unfold match_at, FLASHCARD_REGEX, tag_at. cbn [run]. rewrite run_LitI.
  fold tag_classes.
  destruct (strip_classes tag_classes s) as [rest|] eqn:E; [|reflexivity].
  cbn [run]. rewrite greedy_total by discriminate.
  apply strip_classes_prefix in E as (pre & -> & Hlen & _).
  f_equal. f_equal. rewrite length_app, Hlen.
  rewrite <- (takewhile_dropwhile is_space rest) at 1.
  rewrite length_app. change (length tag_classes) with 10.
  unfold str, char in *. lia.
Qed.

Lemma tag_classes_lt : forall f, In f tag_classes -> f 60%N = false.
Proof.
  assert (H : forallb (fun f => negb (f 60%N)) tag_classes = true)
    by (vm_compute; reflexivity).
  rewrite forallb_forall in H. intros f Hf. now apply negb_true_iff, H.
Qed.

Lemma strip_classes_blind (fs : list (char -> bool)) (a y : str) :
  (forall f, In f fs -> f 60%N = false) ->
  strip_classes fs (a ++ 60%N :: y)
  = match strip_classes fs a with
    | Some a' => Some (a' ++ 60%N :: y)
    | None => None
    end.
Proof.
  revert a. induction fs as [|f fs IH]; intros a Hfs; [reflexivity|].
  destruct a as [|c a]; cbn [app strip_classes].
  - rewrite (Hfs f); [reflexivity|now left].
  - destruct (f c); [|reflexivity]. apply IH.
    intros f' Hf'. apply Hfs. now right.
Qed.

Lemma takewhile_blind (f : char -> bool) (g : char) (a y : str) :
  f g = false -> takewhile f (a ++ g :: y) = takewhile f a.
Proof.
  intros Hg. induction a as [|c a IH]; cbn [app takewhile].
  - now rewrite Hg.
  - destruct (f c); [now rewrite IH|reflexivity].
Qed.

Lemma tag_at_blind (a y y' : str) :
  tag_at (a ++ 60%N :: y) = tag_at (a ++ 60%N :: y').
Proof.
  unfold tag_at. rewrite !strip_classes_blind by apply tag_classes_lt.
  destruct (strip_classes tag_classes a) as [a'|]; [|reflexivity].
  now rewrite !(takewhile_blind is_space 60%N a') by reflexivity.
Qed.

Lemma tag_at_head (c : char) (s : str) :
  chr_eqb 35%N c = false -> tag_at (c :: s) = None.
Proof.
  intros H. unfold tag_at, tag_classes.
  cbn [lit map list_ascii_of_string strip_classes].
  change (is_lower_ascii (N_of_ascii "#")) with false. cbv iota.
  change (N_of_ascii "#") with 35%N. now rewrite H.
Qed.

Lemma spaces_no_lt (s : str) :
  forallb is_space s = true ->
  forallb (fun c => negb (chr_eqb c 60%N)) s = true.
Proof.
  induction s as [|c s IH]; [reflexivity|]. cbn [forallb].
  rewrite !andb_true_iff. intros [Hc Hs]. split; [|now apply IH].
  apply negb_true_iff, chr_eqb_neq. intros ->. discriminate.
Qed.

Lemma firstn_exact (a b : str) (n : nat) :
  n = length a -> firstn n (a ++ b) = a.
Proof.
  intros ->. rewrite firstn_app, Nat.sub_diag, firstn_all. cbn [firstn].
  apply app_nil_r.
Qed.

Lemma tag_at_marker_chars (s rest : str) :
  s <> [] -> forallb marker_char s = true -> tag_at (s ++ rest) = None.
Proof.
  intros Hne Hs. destruct s as [|c x]; [congruence|].
  cbn [forallb] in Hs. apply andb_true_iff in Hs as [Hc _].
  cbn [app]. apply tag_at_head. apply chr_eqb_neq. intros <-. discriminate.
Qed.

(** The tag is oblivious of markers. *)
Lemma tag_oblivious : oblivious (match_at FLASHCARD_REGEX).
Proof.
  split.
  - intros a y y'. rewrite !match_at_tag.
    pose proof (tag_at_blind a y y') as H. unfold str, char in H.
    now rewrite H.
  - intros s n g H. rewrite match_at_tag in H. unfold tag_at in H.
    destruct (strip_classes tag_classes s) as [rest|] eqn:E; [|discriminate].
    inversion H; subst; clear H.
    apply strip_classes_prefix in E as (pre & -> & Hlen & Hall).
    change (length tag_classes) with 10 in Hlen.
    pose proof (f_equal (@length _) (takewhile_dropwhile is_space rest)) as HL.
    rewrite length_app in HL. split.
    + rewrite length_app. unfold str, char in *. lia.
    + rewrite <- (takewhile_dropwhile is_space rest) at 2.
      rewrite app_assoc, firstn_exact.
      * rewrite forallb_app, (Hall 60%N tag_classes_lt).
        apply spaces_no_lt, takewhile_all.
      * rewrite length_app, Hlen. reflexivity.
  - intros t k rest Ht Hk. rewrite match_at_tag.
    destruct (is_marker_head t Ht) as (body & -> & Hbody).
    destruct k as [|k].
    + cbn [skipn app]. now rewrite tag_at_head.
    + cbn [skipn]. cbn [length] in Hk.
      rewrite tag_at_marker_chars; [reflexivity| |].
      * intros Es. apply (f_equal (@length _)) in Es.
        rewrite length_skipn in Es. cbn [length] in Es.
        unfold str, char in *. lia.
      * rewrite <- (firstn_skipn k body), forallb_app in Hbody.
        now apply andb_true_iff in Hbody.
Qed.

(** ** Stripping commutes with the rewriting of markers *)

Lemma space_not_lt (c : char) : is_space c = true -> chr_eqb c 60%N = false.
Proof. intros H. apply chr_eqb_neq. intros ->. discriminate. Qed.

Lemma meta_at_space (c : char) (s : str) :
  is_space c = true -> meta_at (c :: s) = None.
Proof. intros H. now apply meta_at_head, space_not_lt. Qed.

Lemma is_marker_not_space (t : str) :
  is_marker t -> exists body, t = 60%N :: body.
Proof. intros H. apply is_marker_head in H as (body & -> & _). now eexists. Qed.

Lemma hits_app (G : Type) (a b : list (piece G)) :
  hits (a ++ b) = hits a ++ hits b.
Proof.
  induction a as [|[c|t g] a IH]; cbn; [reflexivity|exact IH|now rewrite IH].
Qed.

Section Strip.
Variable r : str -> str.
Hypothesis Hr : keeps_markers r.

Lemma rewrite_text_nonempty (s : str) : s <> [] -> rewrite_text r s <> [].
Proof.
  intros Hs. destruct (meta_pieces_cases s)
    as [-> | [(c & s' & -> & Hnone & _)
             | (id & sum & rest & Hid & Hsum & -> & _)]].
  - congruence.
  - rewrite rewrite_text_gap by exact Hnone. discriminate.
  - rewrite rewrite_text_marker by now apply is_marker_intro.
    destruct (is_marker_not_space _ (Hr _ (is_marker_intro id sum Hid Hsum)))
      as (body & ->). discriminate.
Qed.

Lemma lstrip_rewrite (s : str) :
  lstrip (rewrite_text r s) = rewrite_text r (lstrip s).
Proof.
  induction s as [|c s IH]; [reflexivity|]. cbn [lstrip].
  destruct (is_space c) eqn:Ec.
  - rewrite rewrite_text_gap by now apply meta_at_space.
    cbn [lstrip]. now rewrite Ec.
  - destruct (meta_pieces_cases (c :: s))
      as [E | [(c' & s' & E & Hnone & _)
              | (id & sum & rest & Hid & Hsum & E & _)]].
    + discriminate.
    + inversion E; subst c' s'. rewrite rewrite_text_gap by exact Hnone.
      cbn [lstrip]. now rewrite Ec.
    + rewrite E. rewrite rewrite_text_marker by now apply is_marker_intro.
      destruct (is_marker_not_space _ (Hr _ (is_marker_intro id sum Hid Hsum)))
        as (body & ->). reflexivity.
Qed.

Lemma open_end_app (a s : str) :
  s <> [] -> open_end (a ++ s) <-> open_end s.
Proof.
  intros Hs. unfold open_end. rewrite rev_app_distr.
  destruct (rev s) as [|c l] eqn:E.
  - apply (f_equal (@rev _)) in E. rewrite rev_involutive in E.
    now subst.
  - reflexivity.
Qed.

Lemma rstrip_open_end (x : str) : open_end x -> rstrip x = x.
Proof.
  unfold open_end, rstrip. intros H.
  destruct (rev x) as [|c l] eqn:E.
  - apply (f_equal (@rev _)) in E. rewrite rev_involutive in E. now subst.
  - cbn [lstrip]. rewrite H, <- E. apply rev_involutive.
Qed.

Lemma rstrip_space (a : str) (c : char) :
  is_space c = true -> rstrip (a ++ [c]) = rstrip a.
Proof.
  intros H. unfold rstrip. rewrite rev_app_distr. cbn [rev app lstrip].
  now rewrite H.
Qed.

Lemma is_marker_open_end (t : str) : is_marker t -> open_end t.
Proof.
  intros (id & sum & _ & _ & ->). unfold open_end, marker.
  rewrite !rev_app_distr. reflexivity.
Qed.

Lemma rewrite_text_open_end (s : str) :
  open_end s -> open_end (rewrite_text r s).
Proof.
  pattern s. apply text_ind; clear s.
  - auto.
  - intros c s Hnone IH Hopen. rewrite rewrite_text_gap by exact Hnone.
    destruct s as [|d s].
    + exact Hopen.
    + change (c :: d :: s) with ([c] ++ d :: s) in Hopen.
      apply open_end_app in Hopen; [|discriminate].
      change (c :: rewrite_text r (d :: s))
        with ([c] ++ rewrite_text r (d :: s)).
      apply open_end_app; [apply rewrite_text_nonempty; discriminate|].
      now apply IH.
  - intros t rest Ht IH Hopen. rewrite rewrite_text_marker by exact Ht.
    destruct rest as [|d rest].
    + cbn. rewrite app_nil_r. apply is_marker_open_end, Hr, Ht.
    + apply open_end_app in Hopen; [|discriminate].
      apply open_end_app; [apply rewrite_text_nonempty; discriminate|].
      now apply IH.
Qed.

Lemma rewrite_text_snoc_space (a : str) (c : char) :
  is_space c = true -> rewrite_text r (a ++ [c]) = rewrite_text r a ++ [c].
Proof.
  intros H. rewrite rewrite_text_cut.
  - f_equal. now rewrite rewrite_text_gap by now apply meta_at_space.
  - cbn. now apply space_not_marker_char.
Qed.

Lemma rstrip_rewrite (s : str) :
  rstrip (rewrite_text r s) = rewrite_text r (rstrip s).
Proof.
  induction s as [|c a IH] using rev_ind; [reflexivity|].
  destruct (is_space c) eqn:Ec.
  - rewrite rewrite_text_snoc_space, !rstrip_space by exact Ec. exact IH.
  - assert (Hopen : open_end (a ++ [c])).
    { unfold open_end. rewrite rev_app_distr. exact Ec. }
    rewrite (rstrip_open_end _ Hopen).
    apply rstrip_open_end. now apply rewrite_text_open_end.
Qed.

(** [strip] and the rewriting of markers commute. *)
Lemma strip_rewrite (s : str) :
  strip (rewrite_text r s) = rewrite_text r (strip s).
Proof. unfold strip. now rewrite lstrip_rewrite, rstrip_rewrite. Qed.

End Strip.

(** Stripping a text takes none of its markers. *)
Lemma lstrip_hits (s : str) :
  hits (meta_pieces (lstrip s)) = hits (meta_pieces s).
Proof.
  induction s as [|c s IH]; [reflexivity|]. cbn [lstrip].
  destruct (is_space c) eqn:Ec; [|reflexivity].
  rewrite (meta_pieces_gap c s) by now apply meta_at_space. exact IH.
Qed.

Lemma rstrip_hits (s : str) :
  hits (meta_pieces (rstrip s)) = hits (meta_pieces s).
Proof.
  induction s as [|c a IH] using rev_ind; [reflexivity|].
  destruct (is_space c) eqn:Ec.
  - rewrite rstrip_space by exact Ec. rewrite IH.
    rewrite meta_pieces_cut by (cbn; now apply space_not_marker_char).
    rewrite hits_app.
    rewrite (meta_pieces_gap c []) by now apply meta_at_space.
    cbn. now rewrite app_nil_r.
  - rewrite rstrip_open_end; [reflexivity|].
    unfold open_end. rewrite rev_app_distr. exact Ec.
Qed.

Lemma strip_hits (s : str) :
  hits (meta_pieces (strip s)) = hits (meta_pieces s).
Proof. unfold strip. now rewrite rstrip_hits, lstrip_hits. Qed.

(** ** [replace] on a marker is a rewriting of markers *)

Lemma marker_inj (t t' rest rest' : str) :
  is_marker t -> is_marker t' -> t ++ rest = t' ++ rest' -> t = t'.
Proof.
  intros (id & sum & Hid & Hsum & ->) (id' & sum' & Hid' & Hsum' & ->) H.
  pose proof (meta_at_marker id sum rest Hid Hsum) as E.
  rewrite H, meta_at_marker in E by assumption. now inversion E.
Qed.

Lemma substitute_gaps_app (G : Type) (f : str -> G -> str) (x : str)
    (ps : list (piece G)) :
  substitute f (map Gap x ++ ps) = x ++ substitute f ps.
Proof. now rewrite substitute_app, substitute_gaps. Qed.

Lemma replace_marker (old new s : str) :
  is_marker old -> replace old new s = rewrite_text (swap old new) s.
Proof.
  intros Hold.
  destruct (is_marker_head old Hold) as (obody & Eold & _).
  assert (Hrep : forall x, replace old new x
                 = substitute (fun _ _ => new) (pieces (lit_at old) x)).
  { intros x. unfold replace. now rewrite Eold. }
  rewrite Hrep. pattern s. apply text_ind; clear s.
  - reflexivity.
  - intros c s Hnone IH. rewrite rewrite_text_gap by exact Hnone.
    rewrite pieces_gap.
    + cbn [substitute flat_map app]. f_equal. exact IH.
    + unfold lit_at.
      destruct (strip_prefix old (c :: s)) as [x|] eqn:E; [|reflexivity].
      apply strip_prefix_inv in E. rewrite E in Hnone.
      destruct Hold as (id & sum & Hid & Hsum & ->).
      rewrite meta_at_marker in Hnone by assumption. discriminate.
  - intros t rest Ht IH. rewrite rewrite_text_marker by exact Ht.
    unfold swap at 1. destruct (str_eqb t old) eqn:Eq.
    + apply str_eqb_eq in Eq. subst t. rewrite pieces_hit with (g := tt).
      * cbn [substitute flat_map]. f_equal. exact IH.
      * rewrite Eold. discriminate.
      * unfold lit_at. now rewrite strip_prefix_app.
    + apply str_eqb_neq in Eq. rewrite pieces_through.
      * rewrite substitute_gaps_app. f_equal. exact IH.
      * intros k Hk. unfold lit_at.
        destruct (strip_prefix old (skipn k t ++ rest)) as [x|] eqn:E;
          [|reflexivity].
        apply strip_prefix_inv in E. exfalso.
        destruct k as [|k].
        -- cbn [skipn] in E. apply Eq. now apply (marker_inj t old rest x).
        -- destruct (is_marker_head t Ht) as (body & -> & Hbody).
           cbn [skipn length] in *. rewrite Eold in E.
           unfold str, char in *.
           destruct (skipn k body) as [|c y] eqn:Es.
           ++ apply (f_equal (@length _)) in Es.
              rewrite length_skipn in Es. cbn [length] in Es.
              unfold str, char in *. lia.
           ++ cbn [app] in E.
              assert (Hc : c = 60%N) by congruence.
              rewrite <- (firstn_skipn k body), Es, forallb_app in Hbody.
              apply andb_true_iff in Hbody as [_ Hbody].
              rewrite Hc in Hbody. cbn in Hbody. discriminate.
Qed.

(** ** The cards of a document and of its rewriting *)

Lemma parse_blocks (content : str) :
  MarkdownFlashcardExtractor._parse_flashcards content
  = flat_map block_cards (split FLASHCARD_SEPARATOR content).
Proof. reflexivity. Qed.

Section Parse.
Variable r : str -> str.
Hypothesis Hr : keeps_markers r.

Lemma split_rewrite (s : str) :
  split FLASHCARD_SEPARATOR (rewrite_text r s)
  = map (rewrite_text r) (split FLASHCARD_SEPARATOR s).
Proof. apply parts_rewrite; [apply separator_oblivious|exact Hr]. Qed.

Lemma re_split_rewrite (s : str) :
  re_split FLASHCARD_REGEX (rewrite_text r s)
  = map (rewrite_text r) (re_split FLASHCARD_REGEX s).
Proof. apply parts_rewrite; [apply tag_oblivious|exact Hr]. Qed.

Lemma block_cards_rewrite (block : str) :
  block_cards (rewrite_text r block)
  = map (rewrite_card r) (block_cards block).
Proof.
  unfold block_cards. rewrite re_split_rewrite.
  destruct (re_split FLASHCARD_REGEX block) as [|x [|y [|z l]]];
    cbn [map]; try reflexivity.
  unfold rewrite_card. cbn. now rewrite !strip_rewrite.
Qed.

(** The cards of the rewritten document are the rewritten cards. *)
Lemma parse_rewrite (doc : str) :
  MarkdownFlashcardExtractor._parse_flashcards (rewrite_text r doc)
  = map (rewrite_card r)
      (MarkdownFlashcardExtractor._parse_flashcards doc).
Proof.
  rewrite !parse_blocks, split_rewrite.
  induction (split FLASHCARD_SEPARATOR doc) as [|block l IH];
    [reflexivity|].
  cbn [map flat_map]. now rewrite map_app, block_cards_rewrite, IH.
Qed.

End Parse.

(** ** The markers of a document and of its cards *)

Lemma marker_ids_app_hits (s : str) :
  marker_ids s = map (fun h => id_of (fst h)) (hits (meta_pieces s)).
Proof. reflexivity. Qed.

Lemma marker_ids_parts (G : Type) (m : str -> option (nat * G)) (s : str) :
  oblivious m ->
  marker_ids s = flat_map marker_ids (parts (pieces m s)).
Proof.
  intros Hm. unfold marker_ids at 1. rewrite (hits_parts G m Hm s).
  induction (parts (pieces m s)) as [|p l IH]; [reflexivity|].
  cbn [flat_map]. now rewrite map_app, IH.
Qed.

Lemma marker_ids_strip (s : str) : marker_ids (strip s) = marker_ids s.
Proof. unfold marker_ids. now rewrite strip_hits. Qed.

(** The ids of the cards of a block are ids of the block, or none. *)
Lemma block_cards_ids (block : str) :
  flat_map card_ids (block_cards block) = marker_ids block
  \/ flat_map card_ids (block_cards block) = [].
Proof.
  unfold block_cards.
  rewrite (marker_ids_parts _ (match_at FLASHCARD_REGEX) block tag_oblivious).
  fold (re_split FLASHCARD_REGEX block).
  destruct (re_split FLASHCARD_REGEX block) as [|x [|y [|z l]]]; auto.
  left. cbn [flat_map]. unfold card_ids, Flashcard.init. cbn [front back].
  rewrite !marker_ids_strip. now rewrite !app_nil_r.
Qed.

Lemma NoDup_app_l (A : Type) (a b : list A) : NoDup (a ++ b) -> NoDup a.
Proof.
  induction a as [|x a IH]; intros H; [constructor|].
  inversion H; subst. constructor; [|auto].
  intros Hin. apply H2. apply in_or_app. now left.
Qed.

Lemma NoDup_app_r (A : Type) (a b : list A) : NoDup (a ++ b) -> NoDup b.
Proof.
  induction a as [|x a IH]; intros H; [exact H|].
  inversion H; subst. auto.
Qed.

Lemma NoDup_app_disjoint (A : Type) (a b : list A) (x : A) :
  NoDup (a ++ b) -> In x a -> In x b -> False.
Proof.
  induction a as [|y a IH]; intros H Ha Hb; [contradiction|].
  inversion H; subst. destruct Ha as [-> | Ha].
  - apply H2. apply in_or_app. now right.
  - now apply IH.
Qed.

Lemma NoDup_app_intro (A : Type) (a b : list A) :
  NoDup a -> NoDup b -> (forall x, In x a -> In x b -> False) ->
  NoDup (a ++ b).
Proof.
  induction a as [|y a IH]; intros Ha Hb Hd; [exact Hb|].
  inversion Ha; subst. cbn. constructor.
  - intros Hin. apply in_app_or in Hin as [Hin|Hin]; [contradiction|].
    apply (Hd y); [now left|exact Hin].
  - apply IH; auto. intros x Hx. apply Hd. now right.
Qed.

(** Distinct ids in the document are distinct ids over its cards. *)
Lemma parse_ids_NoDup (doc : str) :
  NoDup (marker_ids doc) ->
  NoDup (flat_map card_ids
           (MarkdownFlashcardExtractor._parse_flashcards doc)).
Proof.
  rewrite (marker_ids_parts _ (lit_at FLASHCARD_SEPARATOR) doc
             separator_oblivious).
  rewrite parse_blocks. fold (split FLASHCARD_SEPARATOR doc).
  induction (split FLASHCARD_SEPARATOR doc) as [|block l IH]; intros H.
  - constructor.
  - cbn [flat_map] in *. rewrite flat_map_app.
    pose proof (NoDup_app_l _ _ _ H) as Hl.
    pose proof (NoDup_app_r _ _ _ H) as Hrr.
    destruct (block_cards_ids block) as [E|E]; rewrite E.
    + apply NoDup_app_intro; auto.
      intros x Hx Hy. apply (NoDup_app_disjoint _ _ _ x H Hx).
      clear - Hy. induction l as [|b l IH]; [contradiction|].
      cbn [flat_map] in *. rewrite flat_map_app in Hy.
      apply in_app_or in Hy as [Hy|Hy]; apply in_or_app.
      * left. destruct (block_cards_ids b) as [E|E]; rewrite E in Hy;
          [exact Hy|contradiction].
      * right. now apply IH.
    + now apply IH.
Qed.

(** ** The cards of a run and what they do to the markers *)

Lemma id_of_marker (id : str) (sum : option str) :
  digits id -> sum_ok sum -> id_of (marker id sum) = id.
Proof.
  intros Hid Hsum. unfold id_of.
  rewrite <- (app_nil_r (marker id sum)).
  now rewrite meta_at_marker.
Qed.

Lemma marker_ids_embedded (p s id : str) (sum : option str) :
  digits id -> sum_ok sum -> marker_free p = true ->
  marker_ids (p ++ marker id sum ++ s) = id :: marker_ids s.
Proof.
  intros Hid Hsum Hp. unfold marker_ids.
  rewrite meta_pieces_cut by apply marker_closed_head.
  rewrite meta_pieces_marker, hits_app by assumption.
  rewrite marker_free_pieces by exact Hp. cbn [hits].
  assert (E : hits (map (@Gap captures) p) = []).
  { clear. induction p; cbn; auto. }
  rewrite E. cbn [app map fst]. now rewrite id_of_marker.
Qed.

(** The analysis of a fresh card, by the first marker of its back text. *)
Lemma analyze_shape (E : Env) (f b : str) :
  let c := Flashcard.analyze E (Flashcard.init f b) in
  let fp := Flashcard._generate_card_sum (Flashcard.init f b) in
  (marker_free b = true /\ state c = Some STATE_INSERT
   /\ _meta_value c = None)
  \/ exists p id sum s,
       marker_free p = true /\ digits id /\ sum_ok sum
       /\ b = p ++ marker id sum ++ s
       /\ _meta_value c = Some (marker id sum)
       /\ new_marker c = marker id (Some (str_of_int fp))
       /\ ((state c = None /\ sum = Some (str_of_int fp))
           \/ state c = Some STATE_UPDATE).
Proof.
  intros c fp. subst c.
  destruct (first_marker b)
    as [Hfree | (p & id & sum & s & Hp & Hid & Hsum & Hb)].
  - left. destruct (analyze_create E (Flashcard.init f b) Hfree)
      as (H1 & _ & H3). auto.
  - right. exists p, id, sum, s.
    destruct (analyze_marked E (Flashcard.init f b) p s id sum Hid Hsum Hp Hb)
      as (Hi & _ & Hm & Hc & _ & _ & Hsame & Hupd).
    fold fp in Hc, Hsame, Hupd.
    repeat (split; [assumption|]). split.
    + unfold new_marker. rewrite Hi, Hc. apply new_marker_text.
    + destruct (option_str_eqb sum (Some (str_of_int fp))) eqn:Eq.
      * apply option_str_eqb_eq in Eq. left.
        destruct (Hsame Eq) as [-> _]. auto.
      * right. apply Hupd. intros ->.
        rewrite (proj2 (option_str_eqb_eq _ _) eq_refl) in Eq. discriminate.
Qed.

Lemma keeps_markers_swap (old new : str) :
  is_marker new -> keeps_markers (swap old new).
Proof.
  intros Hnew t Ht. unfold swap. now destruct (str_eqb t old).
Qed.

Lemma new_marker_is_marker (id : str) (fp : Z) :
  digits id -> (0 <= fp)%Z -> is_marker (marker id (Some (str_of_int fp))).
Proof.
  intros Hid Hfp. apply is_marker_intro; [exact Hid|].
  left. now apply str_of_int_digits.
Qed.

Lemma keeps_markers_card_swap (c : Flashcard) :
  settled c -> keeps_markers (card_swap c).
Proof.
  intros [Hst | (old & Hm & _ & Hnew)] t Ht; unfold card_swap.
  - now rewrite Hst.
  - rewrite Hm. destruct (state c); [|exact Ht].
    now apply keeps_markers_swap.
Qed.

Lemma keeps_markers_chain (cards : list Flashcard) :
  Forall settled cards -> keeps_markers (chain cards).
Proof.
  unfold chain. induction cards as [|c cards IH]; intros H t Ht.
  - exact Ht.
  - inversion H; subst. cbn [fold_left]. apply IH; [assumption|].
    now apply keeps_markers_card_swap.
Qed.

Lemma update_meta_settled (c : Flashcard) (data : str) :
  settled c ->
  Flashcard.update_meta c data = Ok (rewrite_text (card_swap c) data).
Proof.
  intros [Hst | (old & Hm & Hold & Hnew)];
    unfold Flashcard.update_meta, card_swap.
  - rewrite Hst. now rewrite rewrite_text_id.
  - rewrite Hm. destruct (state c).
    + fold (new_marker c). now rewrite replace_marker.
    + now rewrite rewrite_text_id.
Qed.

(** The text [update_content] accumulates is the document with its
    markers rewritten. *)
Lemma rewrite_markers_settled (cards : list Flashcard) (data : str) :
  Forall settled cards ->
  rewrite_markers cards data = Ok (rewrite_text (chain cards) data).
Proof.
  revert data. induction cards as [|c cards IH]; intros data H.
  - cbn. now rewrite rewrite_text_id.
  - inversion H; subst. cbn [rewrite_markers].
    rewrite update_meta_settled by assumption.
    rewrite IH by assumption.
    rewrite rewrite_rewrite by now apply keeps_markers_card_swap.
    reflexivity.
Qed.

(** A run of [update_content] that raises nothing met no card to create. *)
Lemma rewrite_markers_ok (E : Env) (raw : list Flashcard) (data data' : str) :
  (forall c, In c raw -> c = Flashcard.init (front c) (back c)) ->
  rewrite_markers (map (Flashcard.analyze E) raw) data = Ok data' ->
  Forall settled (map (Flashcard.analyze E) raw).
Proof.
  revert data. induction raw as [|c raw IH]; intros data Hraw H.
  - constructor.
  - cbn [map rewrite_markers] in *.
    assert (Hc : settled (Flashcard.analyze E c)).
    { rewrite (Hraw c (or_introl eq_refl)) in *.
      destruct (analyze_shape E (front c) (back c))
        as [(_ & Hst & Hm) | (p & id & sum & s & Hp & Hid & Hsum & _ & Hm & Hnew & Hs)].
      - unfold Flashcard.update_meta in H. rewrite Hst, Hm in H. discriminate.
      - destruct Hs as [[Hst _] | Hst].
        + now left.
        + right. exists (marker id sum). split; [exact Hm|].
          split; [now apply is_marker_intro|]. rewrite Hnew.
          apply new_marker_is_marker; [exact Hid|apply card_sum_word]. }
    constructor; [exact Hc|].
    rewrite update_meta_settled in H by exact Hc.
    apply (IH _ (fun c' Hc' => Hraw c' (or_intror Hc')) H).
Qed.

Lemma parse_init (doc : str) (c : Flashcard) :
  In c (MarkdownFlashcardExtractor._parse_flashcards doc) ->
  c = Flashcard.init (front c) (back c).
Proof.
  rewrite parse_blocks, in_flat_map. intros (block & _ & Hc).
  unfold block_cards in Hc.
  destruct (re_split FLASHCARD_REGEX block) as [|x [|y [|z l]]];
    try contradiction.
  destruct Hc as [<- | []]. reflexivity.
Qed.

(** ** Distinct ids keep the rewritings apart *)

Lemma chain_fixed (cards : list Flashcard) (t : str) :
  (forall c, In c cards -> card_swap c t = t) -> chain cards t = t.
Proof.
  unfold chain. induction cards as [|c cards IH]; intros H; [reflexivity|].
  cbn [fold_left]. rewrite (H c) by now left.
  apply IH. intros c' Hc'. apply H. now right.
Qed.

Lemma chain_app (l1 l2 : list Flashcard) (t : str) :
  chain (l1 ++ l2) t = chain l2 (chain l1 t).
Proof. unfold chain. apply fold_left_app. Qed.

(** The analysis of a card leaves alone a marker whose id the card does
    not hold. *)
Lemma card_swap_other (E : Env) (f b t : str) :
  ~ In (id_of t) (card_ids (Flashcard.init f b)) ->
  card_swap (Flashcard.analyze E (Flashcard.init f b)) t = t.
Proof.
  intros Hnot. unfold card_swap.
  destruct (analyze_shape E f b)
    as [(_ & _ & Hm) | (p & id & sum & s & Hp & Hid & Hsum & Hb & Hm & _ & _)];
    rewrite Hm.
  - now destruct (state _).
  - destruct (state _); [|reflexivity]. unfold swap.
    destruct (str_eqb t (marker id sum)) eqn:Eq; [|reflexivity].
    apply str_eqb_eq in Eq. subst t. exfalso. apply Hnot.
    unfold card_ids. cbn [front back Flashcard.init]. apply in_or_app. right.
    rewrite Hb, marker_ids_embedded, id_of_marker by assumption. now left.
Qed.

(** ** The second run *)

Lemma rewrite_text_marker_free (r : str -> str) (p : str) :
  marker_free p = true -> rewrite_text r p = p.
Proof.
  intros H. unfold rewrite_text. rewrite marker_free_pieces by exact H.
  apply substitute_gaps.
Qed.

Lemma flat_map_in_incl (A B : Type) (g : A -> list B) (l : list A) (a : A)
    (x : B) :
  In a l -> In x (g a) -> In x (flat_map g l).
Proof. intros Ha Hx. apply in_flat_map. now exists a. Qed.

(** In the document that a run has rewritten, with distinct ids, every
    card is unchanged. *)
Lemma second_run_card (E E' : Env) (l1 l2 : list Flashcard) (f b : str) :
  let raw := l1 ++ Flashcard.init f b :: l2 in
  let r := chain (map (Flashcard.analyze E) raw) in
  (forall c, In c raw -> c = Flashcard.init (front c) (back c)) ->
  NoDup (flat_map card_ids raw) ->
  Forall settled (map (Flashcard.analyze E) raw) ->
  state (Flashcard.analyze E' (rewrite_card r (Flashcard.init f b))) = None.
Proof.
  intros raw r Hinit Hnodup Hsettled.
  assert (Hkeep : keeps_markers r) by now apply keeps_markers_chain.
  (* the ids of this card occur in no other card *)
  unfold raw in Hnodup. rewrite flat_map_app in Hnodup.
  cbn [flat_map] in Hnodup.
  assert (Hself : NoDup (card_ids (Flashcard.init f b))).
  { apply NoDup_app_r in Hnodup. now apply NoDup_app_l in Hnodup. }
  assert (Hbefore : forall c' x, In c' l1 ->
            In x (card_ids (Flashcard.init f b)) -> ~ In x (card_ids c')).
  { intros c' x Hc' Hx Hin.
    apply (NoDup_app_disjoint _ _ _ x Hnodup).
    - now apply flat_map_in_incl with (a := c').
    - apply in_or_app. now left. }
  assert (Hafter : forall c' x, In c' l2 ->
            In x (card_ids (Flashcard.init f b)) -> ~ In x (card_ids c')).
  { intros c' x Hc' Hx Hin. apply NoDup_app_r in Hnodup.
    apply (NoDup_app_disjoint _ _ _ x Hnodup Hx).
    now apply flat_map_in_incl with (a := c'). }
  assert (Hothers : forall l t,
            (forall c', In c' l -> In c' raw) ->
            (forall c', In c' l -> ~ In (id_of t) (card_ids c')) ->
            chain (map (Flashcard.analyze E) l) t = t).
  { intros l t Hsub Hno. apply chain_fixed. intros c Hc.
    apply in_map_iff in Hc as (c' & <- & Hc').
    rewrite (Hinit c' (Hsub c' Hc')). apply card_swap_other.
    rewrite <- (Hinit c' (Hsub c' Hc')). now apply Hno. }
  assert (Hsub1 : forall c', In c' l1 -> In c' raw)
    by (intros; apply in_or_app; now left).
  assert (Hsub2 : forall c', In c' l2 -> In c' raw)
    by (intros; apply in_or_app; right; now right).
  assert (Hr : forall t, r t
            = chain (map (Flashcard.analyze E) l2)
                (card_swap (Flashcard.analyze E (Flashcard.init f b))
                   (chain (map (Flashcard.analyze E) l1) t))).
  { intros t. unfold r, raw. rewrite map_app, chain_app. reflexivity. }
  (* the card itself *)
  assert (Hc : settled (Flashcard.analyze E (Flashcard.init f b))).
  { rewrite Forall_forall in Hsettled. apply Hsettled. apply in_map.
    apply in_or_app. right. now left. }
  destruct (analyze_shape E f b)
    as [(_ & Hst & Hm)
       | (p & id & sum & s & Hp & Hid & Hsum & Hb & Hm & Hnew & Hstate)].
  { destruct Hc as [Hc | (old & Hc & _)]; congruence. }
  set (fp := Flashcard._generate_card_sum (Flashcard.init f b)) in *.
  assert (Hidin : In id (card_ids (Flashcard.init f b))).
  { unfold card_ids. cbn [front back Flashcard.init]. apply in_or_app. right.
    rewrite Hb, marker_ids_embedded by assumption. now left. }
  assert (Hfpos : (0 <= fp)%Z) by apply card_sum_word.
  assert (Hnewm : sum_ok (Some (str_of_int fp)))
    by (left; now apply str_of_int_digits).
  (* the marker of the card *)
  assert (Hmark : r (marker id sum) = marker id (Some (str_of_int fp))).
  { rewrite Hr. rewrite (Hothers l1) by
      (auto; intros c' Hc'; rewrite id_of_marker by assumption; auto).
    assert (Hown : card_swap (Flashcard.analyze E (Flashcard.init f b))
                     (marker id sum) = marker id (Some (str_of_int fp))).
    { unfold card_swap. rewrite Hm, Hnew.
      destruct Hstate as [[Hst Hs] | Hst]; rewrite Hst.
      - now rewrite Hs.
      - unfold swap. now rewrite str_eqb_refl. }
    rewrite Hown. apply Hothers; auto.
    intros c' Hc'. rewrite id_of_marker by assumption. auto. }
  (* the markers of the front text *)
  assert (Hfront : rewrite_text r f = f).
  { rewrite <- (rewrite_text_id f) at 2. apply rewrite_text_ext.
    intros h Hh.
    assert (Hin : In (id_of (fst h)) (marker_ids f)).
    { unfold marker_ids. now apply in_map with (f := fun h => id_of (fst h)). }
    assert (Hin' : In (id_of (fst h)) (card_ids (Flashcard.init f b))).
    { unfold card_ids. apply in_or_app. now left. }
    rewrite Hr. rewrite (Hothers l1) by auto.
    assert (Hown : card_swap (Flashcard.analyze E (Flashcard.init f b)) (fst h)
                   = fst h).
    { unfold card_swap. rewrite Hm. destruct (state _); [|reflexivity].
      unfold swap. destruct (str_eqb (fst h) (marker id sum)) eqn:Eq;
        [|reflexivity].
      apply str_eqb_eq in Eq. exfalso.
      unfold card_ids in Hself. cbn [front back Flashcard.init] in Hself.
      apply (NoDup_app_disjoint _ _ _ (id_of (fst h)) Hself Hin).
      rewrite Eq, id_of_marker, Hb, marker_ids_embedded by assumption.
      now left. }
    rewrite Hown. apply Hothers; auto. }
  (* the back text *)
  assert (Hback : rewrite_text r b
            = p ++ marker id (Some (str_of_int fp)) ++ rewrite_text r s).
  { rewrite Hb. rewrite rewrite_text_cut by apply marker_closed_head.
    rewrite rewrite_text_marker_free by exact Hp.
    rewrite rewrite_text_marker by now apply is_marker_intro.
    now rewrite Hmark. }
  unfold rewrite_card. cbn [front back Flashcard.init].
  rewrite Hfront.
  destruct (analyze_marked E' (Flashcard.init f (rewrite_text r b))
              p (rewrite_text r s) id (Some (str_of_int fp))
              Hid Hnewm Hp Hback)
    as (_ & _ & _ & _ & _ & _ & Hsame & _).
  assert (Hfp : Flashcard._generate_card_sum
                  (Flashcard.init f (rewrite_text r b)) = fp).
  { unfold fp, Flashcard._generate_card_sum. cbn [front back Flashcard.init].
    fold (erase (rewrite_text r b)). fold (erase b).
    now rewrite erase_rewrite. }
  rewrite Hfp in Hsame. now destruct (Hsame eq_refl) as [-> _].
Qed.

Lemma rewrite_markers_unchanged (cards : list Flashcard) (data : str) :
  Forall (fun c => state c = None) cards ->
  rewrite_markers cards data = Ok data.
Proof.
  induction cards as [|c cards IH]; intros H; [reflexivity|].
  inversion H; subst. cbn [rewrite_markers].
  unfold Flashcard.update_meta. rewrite H2. now apply IH.
Qed.

(** The document-level core of the idempotence of a run. *)
Lemma second_run_document (E E' : Env) (doc doc' : str) :
  NoDup (marker_ids doc) ->
  rewrite_markers
    (map (Flashcard.analyze E)
       (MarkdownFlashcardExtractor._parse_flashcards doc)) doc = Ok doc' ->
  Forall (fun c => state c = None)
    (map (Flashcard.analyze E')
       (MarkdownFlashcardExtractor._parse_flashcards doc'))
  /\ rewrite_markers
       (map (Flashcard.analyze E')
          (MarkdownFlashcardExtractor._parse_flashcards doc')) doc'
     = Ok doc'.
Proof.
  intros Hnodup Hrun.
  set (raw := MarkdownFlashcardExtractor._parse_flashcards doc) in *.
  assert (Hinit : forall c, In c raw -> c = Flashcard.init (front c) (back c))
    by (intros c; apply parse_init).
  pose proof (rewrite_markers_ok E raw doc doc' Hinit Hrun) as Hsettled.
  rewrite rewrite_markers_settled in Hrun by exact Hsettled.
  inversion Hrun as [Hdoc']. clear Hrun.
  set (r := chain (map (Flashcard.analyze E) raw)) in *.
  assert (Hkeep : keeps_markers r) by now apply keeps_markers_chain.
  assert (Hall : Forall (fun c => state c = None)
            (map (Flashcard.analyze E')
               (MarkdownFlashcardExtractor._parse_flashcards
                  (rewrite_text r doc)))).
  { rewrite parse_rewrite by exact Hkeep. fold raw.
    rewrite Forall_forall. intros c Hc.
    apply in_map_iff in Hc as (c1 & <- & Hc1).
    apply in_map_iff in Hc1 as (c0 & <- & Hc0).
    destruct (in_split _ _ Hc0) as (l1 & l2 & Hsplit).
    rewrite (Hinit c0 Hc0) in Hsplit |- *.
    unfold r. rewrite Hsplit.
    apply second_run_card.
    - rewrite <- Hsplit. exact Hinit.
    - rewrite <- Hsplit. now apply parse_ids_NoDup.
    - rewrite <- Hsplit. exact Hsettled. }
  split; [exact Hall|]. now apply rewrite_markers_unchanged.
Qed.

(** ** From a document to a run *)

Lemma bind_inv (A B : Type) (c : M A) (k : A -> M B) (w w2 : World) (b : B) :
  bind c k w = (Ok b, w2) ->
  exists a w1, c w = (Ok a, w1) /\ k a w1 = (Ok b, w2).
Proof.
  unfold bind. destruct (c w) as [[a|e] w1]; [|discriminate].
  intros H. now exists a, w1.
Qed.

Lemma read_file_content (file : str) (w : World) :
  MarkdownFlashcardExtractor._read_file file w
  = match content_of w file with
    | Some doc => (Ok doc, w)
    | None => (Raise OSError, w)
    end.
Proof.
  unfold MarkdownFlashcardExtractor._read_file, content_of.
  now destruct (find _ (disk w)).
Qed.

Lemma for_each_disk (A B : Type) (body : A -> M B) (l : list A) :
  (forall x w w' r, body x w = (r, w') -> disk w' = disk w) ->
  forall w w' r, for_each body l w = (r, w') -> disk w' = disk w.
Proof.
  intros Hbody. induction l as [|x l IH]; intros w w' r.
  - cbn. intros H; inversion H; reflexivity.
  - cbn [for_each]. unfold bind.
    destruct (body x w) as [[y|e] w1] eqn:Ex; apply Hbody in Ex.
    + destruct (for_each body l w1) as [[ys|e] w2] eqn:El;
        apply IH in El; unfold ret; intros H; inversion H; subst; congruence.
    + intros H; inversion H; subst; exact Ex.
Qed.

Lemma sync_medias_disk (E : Env) (cards : list Flashcard) (w w' : World)
    (r : result unit) :
  CardMarker.sync_medias E cards w = (r, w') -> disk w' = disk w.
Proof.
  unfold CardMarker.sync_medias.
  destruct (fold_left _ cards []) as [|m ms].
  - unfold ret. intros H; inversion H; reflexivity.
  - unfold bind.
    destruct (for_each _ (m :: ms) w) as [[ys|e] w1] eqn:El.
    + apply for_each_disk in El.
      * unfold ret. intros H; inversion H; subst; exact El.
      * intros x w0 w0' r0. destruct (attachment E x) as [[|d ds]|].
        -- unfold ret. intros H; inversion H; reflexivity.
        -- apply invoke_disk.
        -- unfold ret. intros H; inversion H; reflexivity.
    + apply for_each_disk in El.
      * intros H; inversion H; subst; exact El.
      * intros x w0 w0' r0. destruct (attachment E x) as [[|d ds]|].
        -- unfold ret. intros H; inversion H; reflexivity.
        -- apply invoke_disk.
        -- unfold ret. intros H; inversion H; reflexivity.
Qed.

(** What [make_cards] hands to [update_content] when no card is to be
    created: the analysed cards. *)
Lemma make_card_result (E : Env) (anki : AnkiConnect) (f b : str)
    (c' : Flashcard) (w w' : World) :
  CardMarker.make_card E anki (Flashcard.init f b) w = (Ok c', w') ->
  (c' = Flashcard.analyze E (Flashcard.init f b) /\ disk w' = disk w)
  \/ (state c' = Some STATE_INSERT /\ _meta_value c' = None).
Proof.
  intros H. pose proof (make_card_disk _ _ _ _ _ _ H) as Hdisk.
  unfold CardMarker.make_card in H.
  destruct (analyze_shape E f b)
    as [(_ & Hst & Hm)
       | (p & id & sum & s & _ & _ & _ & _ & _ & _ & [[Hst _] | Hst])];
    rewrite Hst in H.
  - right. unfold CardMarker.sync_card in H. rewrite Hst in H.
    apply bind_inv in H as (a & w1 & _ & H).
    destruct a as [new_id|]; unfold ret in H; inversion H; subst; cbn; auto.
  - left. unfold ret in H. inversion H; subst. auto.
  - left. unfold CardMarker.sync_card in H. rewrite Hst in H.
    apply bind_inv in H as (n & w1 & _ & H).
    apply bind_inv in H as (u & w2 & _ & H).
    unfold ret in H. inversion H; subst. auto.
Qed.

Lemma make_cards_result (E : Env) (anki : AnkiConnect)
    (raw cards : list Flashcard) (w w' : World) (data data' : str) :
  (forall c, In c raw -> c = Flashcard.init (front c) (back c)) ->
  for_each (CardMarker.make_card E anki) raw w = (Ok cards, w') ->
  rewrite_markers cards data = Ok data' ->
  cards = map (Flashcard.analyze E) raw.
Proof.
  revert cards w data. induction raw as [|c raw IH];
    intros cards w data Hinit Hloop Hrw.
  - cbn in Hloop. now inversion Hloop.
  - cbn [for_each] in Hloop.
    apply bind_inv in Hloop as (c' & w1 & Hc & Hloop).
    apply bind_inv in Hloop as (cs & w2 & Hcs & Hloop).
    unfold ret in Hloop. inversion Hloop; subst cards w2. clear Hloop.
    cbn [rewrite_markers] in Hrw.
    rewrite (Hinit c (or_introl eq_refl)) in Hc.
    destruct (make_card_result _ _ _ _ _ _ _ Hc) as [[-> _] | [Hst Hm]].
    + rewrite <- (Hinit c (or_introl eq_refl)) in *.
      destruct (Flashcard.update_meta (Flashcard.analyze E c) data)
        as [d|e]; [|discriminate].
      cbn [map]. f_equal.
      apply (IH cs w1 d (fun c' Hc' => Hinit c' (or_intror Hc')) Hcs Hrw).
    + unfold Flashcard.update_meta in Hrw. rewrite Hst, Hm in Hrw.
      discriminate.
Qed.

Lemma content_of_disk (w w' : World) (file : str) :
  disk w' = disk w -> content_of w' file = content_of w file.
Proof. unfold content_of. now intros ->. Qed.

Lemma find_put_same (file data : str) (d : list (str * str)) (e : str * str) :
  find (fun e => str_eqb (fst e) file) d = Some e ->
  find (fun e => str_eqb (fst e) file)
    (map (fun e => if str_eqb (fst e) file then (fst e, data) else e) d)
  = Some (fst e, data).
Proof.
  induction d as [|x d IH]; [discriminate|]. cbn [find map].
  destruct (str_eqb (fst x) file) eqn:Ex.
  - intros H; inversion H; subst. cbn [fst find]. now rewrite Ex.
  - rewrite Ex. exact IH.
Qed.

Lemma find_put_other (file other data : str) (d : list (str * str)) :
  other <> file ->
  find (fun e => str_eqb (fst e) other)
    (map (fun e => if str_eqb (fst e) file then (fst e, data) else e) d)
  = find (fun e => str_eqb (fst e) other) d.
Proof.
  intros Hne. induction d as [|x d IH]; [reflexivity|]. cbn [find map].
  destruct (str_eqb (fst x) file) eqn:Ex.
  - cbn [fst]. destruct (str_eqb (fst x) other) eqn:Eo; [|exact IH].
    apply str_eqb_eq in Ex, Eo. congruence.
  - destruct (str_eqb (fst x) other); [reflexivity|exact IH].
Qed.

Lemma map_fst_put (file data : str) (d : list (str * str)) :
  map fst (map (fun e => if str_eqb (fst e) file then (fst e, data) else e) d)
  = map fst d.
Proof.
  induction d as [|x d IH]; [reflexivity|]. cbn [map]. rewrite IH.
  now destruct (str_eqb (fst x) file).
Qed.

(** One document of a run that raises nothing. *)
Lemma first_run_file (E : Env) (anki : AnkiConnect) (file : str)
    (w w1 : World) :
  sync_file E anki file w = (Ok tt, w1) ->
  exists doc data,
    content_of w file = Some doc
    /\ rewrite_markers
         (map (Flashcard.analyze E)
            (MarkdownFlashcardExtractor._parse_flashcards doc)) doc
       = Ok data
    /\ content_of w1 file = Some data
    /\ (forall other, other <> file ->
          content_of w1 other = content_of w other)
    /\ map fst (disk w1) = map fst (disk w).
Proof.
  intros H. unfold sync_file in H.
  apply bind_inv in H as ([cards doc] & wa & Hmake & H).
  apply bind_inv in H as (u & wb & Hmed & Hupd).
  apply sync_medias_disk in Hmed.
  unfold CardMarker.make_cards in Hmake.
  apply bind_inv in Hmake as ([raw doc0] & w0 & Hex & Hmake).
  apply bind_inv in Hmake as (cards0 & wa0 & Hloop & Hret).
  unfold ret in Hret. inversion Hret; subst cards0 doc0 wa0. clear Hret.
  unfold MarkdownFlashcardExtractor.extract_flashcards in Hex.
  apply bind_inv in Hex as (content & w0' & Hread & Hret).
  unfold ret in Hret. inversion Hret; subst raw content w0'. clear Hret.
  rewrite read_file_content in Hread.
  destruct (content_of w file) as [doc'|] eqn:Econtent; [|discriminate].
  inversion Hread; subst doc' w0. clear Hread.
  pose proof (for_each_make_card_disk _ _ _ _ _ _ Hloop) as Hdisk.
  unfold update_content in Hupd.
  apply bind_inv in Hupd as (data & wc & Hrw & Hwrite).
  unfold lift in Hrw. inversion Hrw as [[Hrw' Hwc]]. subst wc. clear Hrw.
  assert (Hcards : cards = map (Flashcard.analyze E)
                     (MarkdownFlashcardExtractor._parse_flashcards doc)).
  { apply (make_cards_result E anki _ cards w wa doc data); auto.
    intros c. apply parse_init. }
  subst cards. exists doc, data.
  split; [reflexivity|]. split; [exact Hrw'|].
  assert (Hdw : disk wb = disk w) by congruence.
  destruct (str_eqb data doc) eqn:Eq; cbn [negb] in Hwrite.
  - apply str_eqb_eq in Eq. subst data.
    unfold ret in Hwrite. inversion Hwrite; subst w1.
    split; [now rewrite (content_of_disk w wb file Hdw)|].
    split; [intros; now apply content_of_disk|now rewrite Hdw].
  - unfold write_file in Hwrite. inversion Hwrite; subst w1. clear Hwrite.
    unfold content_of in *. cbn [disk]. rewrite Hdw.
    split; [|split].
    + destruct (find _ (disk w)) as [e|] eqn:Ef; [|discriminate].
      now rewrite (find_put_same file data (disk w) e Ef).
    + intros other Hne. now rewrite find_put_other.
    + apply map_fst_put.
Qed.

Lemma analyze_unchanged_medias (E : Env) (f b : str) :
  state (Flashcard.analyze E (Flashcard.init f b)) = None ->
  medias (Flashcard.analyze E (Flashcard.init f b)) = [].
Proof.
  unfold Flashcard.analyze.
  destruct (Flashcard._extract_anki_meta (back (Flashcard.init f b)))
    as [[i cs] m].
  destruct i; [|discriminate].
  destruct (negb _); [discriminate|reflexivity].
Qed.

Lemma for_each_unchanged (E : Env) (anki : AnkiConnect)
    (raw : list Flashcard) (w : World) :
  Forall (fun c => state (Flashcard.analyze E c) = None) raw ->
  for_each (CardMarker.make_card E anki) raw w
  = (Ok (map (Flashcard.analyze E) raw), w).
Proof.
  induction raw as [|c raw IH]; intros H; [reflexivity|].
  inversion H; subst. cbn [for_each map].
  erewrite bind_ok.
  2:{ unfold CardMarker.make_card. rewrite H2. reflexivity. }
  erewrite bind_ok by (apply IH; assumption). reflexivity.
Qed.

Lemma extract_flashcards_ok (file data : str) (w : World) :
  content_of w file = Some data ->
  MarkdownFlashcardExtractor.extract_flashcards file w
  = (Ok (MarkdownFlashcardExtractor._parse_flashcards data, data), w).
Proof.
  intros H. unfold MarkdownFlashcardExtractor.extract_flashcards, bind.
  now rewrite read_file_content, H.
Qed.

Lemma make_cards_unchanged (E : Env) (anki : AnkiConnect) (file data : str)
    (w : World) :
  content_of w file = Some data ->
  Forall (fun c => state (Flashcard.analyze E c) = None)
    (MarkdownFlashcardExtractor._parse_flashcards data) ->
  CardMarker.make_cards E anki file w
  = (Ok (map (Flashcard.analyze E)
           (MarkdownFlashcardExtractor._parse_flashcards data), data), w).
Proof.
  intros Hc Hall. unfold CardMarker.make_cards, bind.
  rewrite (extract_flashcards_ok file data w Hc).
  now rewrite for_each_unchanged.
Qed.

Lemma sync_medias_none (E : Env) (cards : list Flashcard) (w : World) :
  Forall (fun c => medias c = []) cards ->
  CardMarker.sync_medias E cards w = (Ok tt, w).
Proof.
  intros Hm. unfold CardMarker.sync_medias.
  assert (H : fold_left (fun acc c => set_update acc (medias c)) cards [] = []).
  { induction Hm as [|c l Hc Hl IH]; [reflexivity|].
    cbn [fold_left]. rewrite Hc. exact IH. }
  now rewrite H.
Qed.

(** One document of the second run: nothing is posted, nothing written. *)
Lemma second_run_file (E : Env) (anki : AnkiConnect) (file data : str)
    (w : World) :
  content_of w file = Some data -> synced data ->
  sync_file E anki file w = (Ok tt, w).
Proof.
  intros Hcontent (E0 & doc & Hnodup & Hrun).
  destruct (second_run_document E0 E doc data Hnodup Hrun) as [Hall Hrw].
  set (raw := MarkdownFlashcardExtractor._parse_flashcards data) in *.
  assert (Hraw : Forall (fun c => state (Flashcard.analyze E c) = None) raw).
  { rewrite Forall_forall in *. intros c Hc. apply Hall. now apply in_map. }
  assert (Hm : Forall (fun c => medias c = [])
                 (map (Flashcard.analyze E) raw)).
  { rewrite Forall_forall. intros c Hc.
    apply in_map_iff in Hc as (c0 & <- & Hc0).
    rewrite Forall_forall in Hraw. specialize (Hraw c0 Hc0).
    rewrite (parse_init data c0 Hc0) in *.
    now apply analyze_unchanged_medias. }
  unfold sync_file, bind.
  rewrite (make_cards_unchanged E anki file data w Hcontent Hraw).
  fold raw. rewrite (sync_medias_none E _ w Hm).
  unfold update_content, bind, lift. rewrite Hrw.
  now rewrite str_eqb_refl.
Qed.

(** ** The two runs *)

Lemma first_run_loop (E : Env) (anki : AnkiConnect) (files : list str) :
  forall (w w1 : World) (us : list unit),
    NoDup files ->
    (forall file doc, In file files -> content_of w file = Some doc ->
                      NoDup (marker_ids doc)) ->
    for_each (sync_file E anki) files w = (Ok us, w1) ->
    (forall file, In file files ->
       exists data, content_of w1 file = Some data /\ synced data)
    /\ (forall other, ~ In other files ->
          content_of w1 other = content_of w other)
    /\ map fst (disk w1) = map fst (disk w).
Proof.
  induction files as [|file files IH]; intros w w1 us Hnd Hids Hloop.
  - cbn in Hloop. inversion Hloop; subst. repeat split; auto.
    intros file [].
  - cbn [for_each] in Hloop.
    apply bind_inv in Hloop as ([] & wa & Hfile & Hloop).
    apply bind_inv in Hloop as (us' & wb & Hrest & Hret).
    unfold ret in Hret. inversion Hret; subst us wb. clear Hret.
    inversion Hnd as [|x l Hnotin Hnd']; subst.
    destruct (first_run_file E anki file w wa Hfile)
      as (doc & data & Hdoc & Hrw & Hdata & Hother & Hnames).
    destruct (IH wa w1 us' Hnd') as (Hsynced & Hkeep & Hnames'); [|exact Hrest|].
    { intros f d Hf Hd. apply (Hids f d); [now right|].
      rewrite <- Hd. symmetry. apply Hother. intros ->. contradiction. }
    split; [|split].
    + intros f [<- | Hf]; [|now apply Hsynced].
      exists data. split.
      * rewrite (Hkeep file Hnotin). exact Hdata.
      * exists E, doc. split; [|exact Hrw]. now apply (Hids file doc); [left|].
    + intros other Hno. rewrite Hkeep by (intros Hin; apply Hno; now right).
      apply Hother. intros ->. apply Hno. now left.
    + congruence.
Qed.

Lemma second_run_loop (E : Env) (anki : AnkiConnect) (files : list str)
    (w : World) :
  (forall file, In file files ->
     exists data, content_of w file = Some data /\ synced data) ->
  for_each (sync_file E anki) files w = (Ok (map (fun _ => tt) files), w).
Proof.
  induction files as [|file files IH]; intros H; [reflexivity|].
  cbn [for_each map]. destruct (H file (or_introl eq_refl)) as (data & Hc & Hs).
  unfold bind. rewrite (second_run_file E anki file data w Hc Hs).
  rewrite IH by (intros f Hf; apply H; now right). reflexivity.
Qed.

Lemma prepare_deck_world (E : Env) (name : str) (anki : AnkiConnect)
    (w w' : World) (r : result unit) :
  prepare_deck E name anki w = (r, w') ->
  w' = {| disk := disk w; posted := posted w ++ [deckNames] |}.
Proof.
  unfold prepare_deck, AnkiConnect.deck_names, AnkiConnect.invoke, bind.
  destruct (fails (server E) (posted w) deckNames).
  - intros H; now inversion H.
  - destruct (deck_list (server E) (posted w)) as [[names|]|]; cbn [ret].
    + destruct (negb (existsb (str_eqb name) names)).
      * cbn. intros H; now inversion H.
      * cbn. intros H; now inversion H.
    + cbn. intros H; now inversion H.
    + cbn. destruct (negb (existsb (str_eqb name) [])); cbn;
        intros H; now inversion H.
Qed.

Lemma markdown_files_names (w w' : World) :
  map fst (disk w') = map fst (disk w) -> markdown_files w' = markdown_files w.
Proof. unfold markdown_files. now intros ->. Qed.

Lemma main_unfold (E : Env) (deck model : str) (w : World) :
  main E deck model w
  = (prepare_deck E deck {| deck_name := deck; model_name := model |} ;;;
     for_each (sync_file E {| deck_name := deck; model_name := model |})
       (markdown_files w) ;;;
     ret tt) w.
Proof. reflexivity. Qed.

(** C1, as the code has it -- Idempotent sync.  When a run over a folder
    whose entries have distinct names and whose documents hold no two
    markers with the same id raises nothing, a second run over the folder
    as the first left it, with any endpoint, deck and renderer, classifies
    every card of every document as unchanged, posts nothing but the deck
    query and leaves every document as it is. *)
Theorem idempotent_sync (E E' : Env) (deck model deck' model' : str)
    (w w1 : World) :
  NoDup (map fst (disk w)) ->
  (forall file doc, content_of w file = Some doc -> NoDup (marker_ids doc)) ->
  main E deck model w = (Ok tt, w1) ->
  snd (main E' deck' model' w1)
  = {| disk := disk w1; posted := posted w1 ++ [deckNames] |}
  /\ forall file doc',
       In file (markdown_files w1) -> content_of w1 file = Some doc' ->
       Forall (fun c => state (Flashcard.analyze E' c) = None)
         (MarkdownFlashcardExtractor._parse_flashcards doc').
Proof.
  intros Hnames Hids Hrun. rewrite main_unfold in Hrun.
  apply bind_inv in Hrun as ([] & wp & Hprep & Hrun).
  apply bind_inv in Hrun as (us & w2 & Hloop & Hret).
  unfold ret in Hret. inversion Hret; subst w2. clear Hret.
  apply prepare_deck_world in Hprep.
  assert (Hdp : disk wp = disk w) by (rewrite Hprep; reflexivity).
  assert (Hnd : NoDup (markdown_files w)).
  { unfold markdown_files. now apply NoDup_filter. }
  destruct (first_run_loop E {| deck_name := deck; model_name := model |}
              (markdown_files w) wp w1 us Hnd) as
    (Hsynced & _ & Hnames1); [|exact Hloop|].
  { intros f d _ Hd. apply (Hids f d).
    now rewrite <- (content_of_disk w wp f Hdp). }
  assert (Hfiles : markdown_files w1 = markdown_files w).
  { apply markdown_files_names. now rewrite Hnames1, Hdp. }
  split.
  - rewrite main_unfold.
    destruct (prepare_deck E' deck'
                {| deck_name := deck'; model_name := model' |} w1)
      as [[[]|e] wq] eqn:Hq; pose proof (prepare_deck_world _ _ _ _ _ _ Hq) as Hwq.
    + erewrite bind_ok by exact Hq.
      erewrite bind_ok.
      2:{ apply second_run_loop. intros f Hf.
          rewrite Hfiles in Hf. destruct (Hsynced f Hf) as (data & Hd & Hs).
          exists data. split; [|exact Hs].
          rewrite <- Hd. apply content_of_disk. rewrite Hwq. reflexivity. }
      cbn [ret snd]. exact Hwq.
    + erewrite bind_raise by exact Hq. exact Hwq.
  - intros file doc' Hfile Hdoc'. rewrite Hfiles in Hfile.
    destruct (Hsynced file Hfile) as (data & Hd & (E0 & doc & Hnodup & Hrw)).
    assert (data = doc') by congruence. subst data.
    destruct (second_run_document E0 E' doc doc' Hnodup Hrw) as [Hall _].
    rewrite Forall_forall in *. intros c Hc. apply Hall. now apply in_map.
Qed.

(** The claim fails where two cards carry the same marker text: the
    second run finds the second card changed again and rewrites the
    document. *)
Lemma twin_markers_not_idempotent :
  exists w1 w2,
    main demo_env (lit "Default") (lit "Basic")
      (mkWorld [(lit "a.md", twin_markers)] []) = (Ok tt, w1)
    /\ main demo_env (lit "Default") (lit "Basic") w1 = (Ok tt, w2)
    /\ disk w2 <> disk w1
    /\ exists c,
         In c (MarkdownFlashcardExtractor._parse_flashcards
                 (snd (hd (lit "", lit "") (disk w1))))
         /\ state (Flashcard.analyze demo_env c) = Some STATE_UPDATE.
Proof.
  eexists. eexists. split; [vm_compute; reflexivity|].
  split; [vm_compute; reflexivity|]. split.
  - cbn [disk]. intros H. vm_compute in H. discriminate H.
  - eexists. split; [vm_compute; right; left; reflexivity|].
    vm_compute. reflexivity.
Qed.

Lemma three_cards_ids : NoDup (marker_ids three_cards).
Proof.
  vm_compute.
  repeat (constructor; [intros H; simpl in H; intuition discriminate|]).
  constructor.
Qed.

Lemma idempotent_sync_witness :
  snd (main demo_env (lit "Default") (lit "Basic")
         (snd (main demo_env (lit "Default") (lit "Basic") stale_folder)))
  = {| disk := disk (snd (main demo_env (lit "Default") (lit "Basic")
                            stale_folder));
       posted := posted (snd (main demo_env (lit "Default") (lit "Basic")
                                stale_folder)) ++ [deckNames] |}.
Proof.
  refine (proj1 (idempotent_sync demo_env demo_env (lit "Default")
                   (lit "Basic") (lit "Default") (lit "Basic") stale_folder
                   (snd (main demo_env (lit "Default") (lit "Basic")
                           stale_folder)) _ _ _)).
  - cbn. constructor; [intros []|constructor].
  - intros file doc. unfold content_of, stale_folder. cbn [disk find fst].
    destruct (str_eqb (lit "a.md") file); cbn; intros H; inversion H.
    exact three_cards_ids.
  - vm_compute. reflexivity.
Defined.

(* ================================================================== *)
(** * Further properties of the program *)
(* ================================================================== *)

(** ** What [strip] leaves *)

Lemma lstrip_split (s : str) :
  exists a, s = a ++ lstrip s /\ forallb is_space a = true.
Proof.
  induction s as [|c s (a & Hs & Ha)]; [now exists []|].
  cbn [lstrip]. destruct (is_space c) eqn:Hc.
  - exists (c :: a). cbn. rewrite Hc, Ha. split; [now f_equal|reflexivity].
  - now exists [].
Qed.

Lemma lstrip_head (s : str) (c : char) (x : str) :
  lstrip s = c :: x -> is_space c = false.
Proof.
  induction s as [|d s IH]; cbn [lstrip]; [discriminate|].
  destruct (is_space d) eqn:Hd; [exact IH|].
  intros H. injection H as -> _. exact Hd.
Qed.

Lemma forallb_rev (A : Type) (f : A -> bool) (l : list A) :
  forallb f (rev l) = forallb f l.
Proof.
  induction l as [|x l IH]; [reflexivity|].
  cbn [rev forallb]. rewrite forallb_app, IH. cbn. rewrite andb_true_r.
  apply andb_comm.
Qed.

Lemma rstrip_split (s : str) :
  exists b, s = rstrip s ++ b /\ forallb is_space b = true.
Proof.
  unfold rstrip. destruct (lstrip_split (rev s)) as (a & Hs & Ha).
  exists (rev a). split.
  - rewrite <- rev_app_distr, <- Hs. symmetry. apply rev_involutive.
  - now rewrite forallb_rev.
Qed.

Lemma rstrip_last (s x : str) (c : char) :
  rstrip s = x ++ [c] -> is_space c = false.
Proof.
  unfold rstrip. intros H. apply (f_equal (@rev char)) in H.
  rewrite rev_involutive, rev_app_distr in H. cbn in H.
  now apply lstrip_head in H.
Qed.

Lemma lstrip_fixed (s : str) :
  match s with c :: _ => is_space c = false | [] => True end ->
  lstrip s = s.
Proof. destruct s as [|c s]; [reflexivity|]. cbn. now intros ->. Qed.

Lemma rstrip_head (s : str) (c : char) (x : str) :
  is_space c = false -> exists y, rstrip (c :: s ++ x) = c :: y.
Proof.
  intros Hc. destruct (rstrip_split (c :: s ++ x)) as (b & Hs & Hb).
  destruct (rstrip (c :: s ++ x)) as [|d y] eqn:E.
  - cbn in Hs. subst b. cbn in Hb. now rewrite Hc in Hb.
  - injection Hs as <- _. now exists y.
Qed.

(** [strip s] lies in [s] between two runs of white space, and neither
    opens nor ends with white space. *)
Lemma strip_split (s : str) :
  exists a b,
    s = a ++ strip s ++ b
    /\ forallb is_space a = true /\ forallb is_space b = true.
Proof.
  unfold strip. destruct (lstrip_split s) as (a & Hs & Ha).
  destruct (rstrip_split (lstrip s)) as (b & Hl & Hb).
  exists a, b. repeat split; try assumption. now rewrite <- Hl.
Qed.

Lemma strip_last (s x : str) (c : char) :
  strip s = x ++ [c] -> is_space c = false.
Proof. apply rstrip_last. Qed.

Lemma strip_head (s : str) (c : char) (x : str) :
  strip s = c :: x -> is_space c = false.
Proof.
  unfold strip. intros H.
  destruct (rstrip_split (lstrip s)) as (b & Hl & _).
  rewrite H in Hl. cbn in Hl. now apply lstrip_head in Hl.
Qed.

Lemma rstrip_fixed (s : str) :
  (forall x c, s = x ++ [c] -> is_space c = false) -> rstrip s = s.
Proof.
  intros H. unfold rstrip.
  rewrite lstrip_fixed; [apply rev_involutive|].
  destruct (rev s) as [|c r] eqn:E; [exact I|].
  apply (H (rev r) c). rewrite <- (rev_involutive s), E. reflexivity.
Qed.

Lemma strip_strip (s : str) : strip (strip s) = strip s.
Proof.
  unfold strip at 1. rewrite lstrip_fixed.
  - apply rstrip_fixed. intros x c. apply strip_last.
  - destruct (strip s) as [|c x] eqn:E; [exact I|].
    now apply strip_head in E.
Qed.

(** X1 -- Extracted cards are trimmed.  The front and the back of every
    card that [_parse_flashcards] yields are fixed by [strip]: neither
    opens with a white-space character nor ends with one, and the card
    carries no state, no rendering, no media and no id yet. *)
Theorem parsed_cards_trimmed (content : str) (c : Flashcard) :
  In c (MarkdownFlashcardExtractor._parse_flashcards content) ->
  strip (front c) = front c /\ strip (back c) = back c
  /\ (forall ch x, front c = ch :: x \/ back c = ch :: x ->
                   is_space ch = false)
  /\ (forall x ch, front c = x ++ [ch] \/ back c = x ++ [ch] ->
                   is_space ch = false)
  /\ c = Flashcard.init (front c) (back c).
Proof.
  intros Hin. pose proof (parse_init content c Hin) as Hinit.
  rewrite parse_blocks in Hin. apply in_flat_map in Hin as (block & _ & Hc).
  unfold block_cards in Hc.
  destruct (re_split FLASHCARD_REGEX block) as [|f [|b [|z l]]];
    try contradiction.
  destruct Hc as [<- | []]. cbn [front back Flashcard.init].
  split; [apply strip_strip|]. split; [apply strip_strip|].
  split; [|split; [|reflexivity]].
  - intros ch x [H|H]; eapply strip_head; exact H.
  - intros x ch [H|H]; eapply strip_last; exact H.
Qed.

Lemma parsed_cards_trimmed_witness :
  strip (lit "front1") = lit "front1".
Proof.
  refine (proj1 (parsed_cards_trimmed extraction_example
                   (Flashcard.init (lit "front1") (lit "back1")) _)).
  vm_compute. now left.
Defined.

(** ** The parts of a split hold no match *)

Lemma pieces_from_skipn (G : Type) (m : str -> option (nat * G)) (s : str) :
  forall n, pieces_from m n s = pieces m (skipn n s).
Proof.
  induction s as [|c s IH]; intros [|n]; try reflexivity.
  cbn [pieces_from skipn]. apply IH.
Qed.

Section Scan.
Variable G : Type.
Variable m : str -> option (nat * G).

Lemma pieces_cons (c : char) (s : str) :
  (exists n g, m (c :: s) = Some (S n, g)
               /\ pieces m (c :: s)
                  = Hit (firstn (S n) (c :: s)) g :: pieces m (skipn n s))
  \/ ((m (c :: s) = None \/ exists g, m (c :: s) = Some (0, g))
      /\ pieces m (c :: s) = Gap c :: pieces m s).
Proof.
  unfold pieces at 1 3. cbn [pieces_from].
  destruct (m (c :: s)) as [[[|n] g]|] eqn:E.
  - right. split; [right; now exists g|reflexivity].
  - left. exists n, g. split; [reflexivity|].
    now rewrite pieces_from_skipn.
  - right. split; [now left|reflexivity].
Qed.

Lemma scan_cases (P : str -> Prop) :
  P [] ->
  (forall c s,
     (m (c :: s) = None \/ exists g, m (c :: s) = Some (0, g)) ->
     pieces m (c :: s) = Gap c :: pieces m s -> P s -> P (c :: s)) ->
  (forall c s n g,
     m (c :: s) = Some (S n, g) ->
     pieces m (c :: s)
     = Hit (firstn (S n) (c :: s)) g :: pieces m (skipn n s) ->
     P (skipn n s) -> P (c :: s)) ->
  forall s, P s.
Proof.
  intros Hnil Hgap Hhit s.
  remember (length s) as len eqn:Hlen.
  revert s Hlen. induction len as [len IH] using lt_wf_ind.
  intros [|c s] Hlen; [exact Hnil|].
  destruct (pieces_cons c s) as [(n & g & Hm & Hp) | (Hm & Hp)].
  - apply (Hhit c s n g Hm Hp).
    apply (IH (length (skipn n s))); [|reflexivity].
    subst len. rewrite length_skipn. cbn [length]. lia.
  - apply (Hgap c s Hm Hp). apply (IH (length s)); [|reflexivity].
    subst len. cbn [length]. lia.
Qed.

(** Every part lies in the text. *)
Lemma parts_within (s : str) :
  Forall (fun p => exists pre post, s = pre ++ p ++ post)
    (parts (pieces m s)).
Proof.
  induction s as [| c s Hm Hp IH | c s n g Hm Hp IH] using scan_cases.
  - constructor; [|constructor]. now exists [], [].
  - rewrite Hp. cbn [parts].
    destruct (first_part_prefix G m s) as (tail & Hs).
    destruct (parts (pieces m s)) as [|p r] eqn:E;
      [now apply parts_nonempty in E|].
    cbn [hd] in Hs. pose proof (Forall_inv_tail IH) as Hr.
    constructor.
    + exists [], tail. cbn. now rewrite <- Hs.
    + eapply Forall_impl; [|exact Hr].
      intros q (pre & post & Hq). exists (c :: pre), post.
      cbn. now rewrite <- Hq.
  - rewrite Hp. cbn [parts]. constructor.
    + exists [], (c :: s). reflexivity.
    + eapply Forall_impl; [|exact IH].
      intros q (pre & post & Hq). exists (c :: firstn n s ++ pre), post.
      cbn. rewrite <- app_assoc, <- Hq. now rewrite firstn_skipn.
Qed.

Hypothesis Hpos : forall s g, m s <> Some (0, g).
Hypothesis Hext : forall x y, m (x ++ y) = None -> m x = None.

Lemma quiet_nil : m [] = None -> quiet m [].
Proof.
  intros H pre post E. symmetry in E. apply app_eq_nil in E as [_ ->].
  exact H.
Qed.

Lemma quiet_cons (c : char) (x : str) :
  m (c :: x) = None -> quiet m x -> quiet m (c :: x).
Proof.
  intros Hc Hx [|d pre] post E; cbn in E.
  - now subst post.
  - injection E as _ E. now apply (Hx pre post).
Qed.

Lemma quiet_within (s x pre post : str) :
  quiet m s -> s = pre ++ x ++ post -> quiet m x.
Proof.
  intros Hs E a b Hx. apply (Hext b post).
  apply (Hs (pre ++ a) (b ++ post)). subst s x.
  now rewrite <- !app_assoc.
Qed.

(** No part holds a match. *)
Lemma parts_quiet (s : str) :
  m [] = None -> Forall (quiet m) (parts (pieces m s)).
Proof.
  intros Hnil.
  induction s as [| c s Hm Hp IH | c s n g Hm Hp IH] using scan_cases.
  - constructor; [|constructor]. now apply quiet_nil.
  - rewrite Hp. cbn [parts].
    destruct (first_part_prefix G m s) as (tail & Hs).
    destruct (parts (pieces m s)) as [|p r] eqn:E;
      [now apply parts_nonempty in E|].
    cbn [hd] in Hs. pose proof (Forall_inv IH) as Hq.
    pose proof (Forall_inv_tail IH) as Hr.
    constructor; [|exact Hr].
    apply quiet_cons; [|exact Hq].
    destruct Hm as [Hm | (g & Hm)]; [|now apply Hpos in Hm].
    apply (Hext (c :: p) tail). cbn. now rewrite <- Hs.
  - rewrite Hp. cbn [parts]. constructor; [now apply quiet_nil|exact IH].
Qed.

(** A text without a match is its only part. *)
Lemma parts_of_quiet (s : str) : quiet m s -> parts (pieces m s) = [s].
Proof.
  intros Hs.
  assert (H : pieces m (s ++ []) = map Gap s ++ pieces m []).
  { apply pieces_through. intros k Hk. rewrite app_nil_r.
    apply (Hs (firstn k s)). symmetry. apply firstn_skipn. }
  rewrite app_nil_r in H. rewrite H, parts_gaps. cbn.
  now rewrite app_nil_r.
Qed.

End Scan.

(** ** The separator and the tag as matchers *)

Lemma strip_prefix_ext (p x y r : str) :
  strip_prefix p x = Some r -> strip_prefix p (x ++ y) = Some (r ++ y).
Proof.
  intros H. apply strip_prefix_inv in H. subst x.
  rewrite <- app_assoc. apply strip_prefix_app.
Qed.

Lemma lit_at_ext (p x y : str) :
  lit_at p (x ++ y) = None -> lit_at p x = None.
Proof.
  unfold lit_at. destruct (strip_prefix p x) as [r|] eqn:E; [|reflexivity].
  now rewrite (strip_prefix_ext _ _ y _ E).
Qed.

Lemma lit_at_pos (p s : str) (g : unit) : p <> [] -> lit_at p s <> Some (0, g).
Proof.
  intros Hp. unfold lit_at. destruct (strip_prefix p s); [|discriminate].
  intros H. injection H as H. now destruct p.
Qed.

Lemma strip_classes_ext (fs : list (char -> bool)) (x y rest : str) :
  strip_classes fs x = Some rest ->
  strip_classes fs (x ++ y) = Some (rest ++ y).
Proof.
  revert x. induction fs as [|f fs IH]; intros x H.
  - cbn in H. injection H as <-. now destruct (x ++ y).
  - destruct x as [|c x]; [discriminate|]. cbn in H |- *.
    destruct (f c); [now apply IH|discriminate].
Qed.

Lemma tag_ext (x y : str) :
  match_at FLASHCARD_REGEX (x ++ y) = None ->
  match_at FLASHCARD_REGEX x = None.
Proof.
  rewrite !match_at_tag. unfold tag_at.
  destruct (strip_classes tag_classes x) as [rest|] eqn:E; [|reflexivity].
  now rewrite (strip_classes_ext _ _ y _ E).
Qed.

Lemma tag_pos (s : str) (g : captures) :
  match_at FLASHCARD_REGEX s <> Some (0, g).
Proof.
  rewrite match_at_tag. unfold tag_at.
  destruct (strip_classes tag_classes s); discriminate.
Qed.

Lemma separator_nonempty : FLASHCARD_SEPARATOR <> [].
Proof. discriminate. Qed.

Lemma quiet_strip (G : Type) (m : str -> option (nat * G)) (s : str) :
  (forall x y, m (x ++ y) = None -> m x = None) ->
  quiet m s -> quiet m (strip s).
Proof.
  intros Hext Hs. destruct (strip_split s) as (a & b & E & _).
  exact (quiet_within G m Hext s (strip s) a b Hs E).
Qed.

(** X2 -- Extracted cards hold no delimiter.  Neither the separator [---]
    nor the tag occurs anywhere in the front or in the back of a card
    that [_parse_flashcards] yields. *)
Theorem parsed_cards_hold_no_delimiter (content : str) (c : Flashcard) :
  In c (MarkdownFlashcardExtractor._parse_flashcards content) ->
  forall pre post,
    front c = pre ++ post \/ back c = pre ++ post ->
    lit_at FLASHCARD_SEPARATOR post = None
    /\ match_at FLASHCARD_REGEX post = None.
Proof.
  intros Hin.
  assert (H : (quiet (lit_at FLASHCARD_SEPARATOR) (front c)
               /\ quiet (match_at FLASHCARD_REGEX) (front c))
              /\ quiet (lit_at FLASHCARD_SEPARATOR) (back c)
                 /\ quiet (match_at FLASHCARD_REGEX) (back c)).
  { rewrite parse_blocks in Hin.
    apply in_flat_map in Hin as (block & Hb & Hc).
    assert (Hsep : quiet (lit_at FLASHCARD_SEPARATOR) block).
    { pose proof (parts_quiet unit (lit_at FLASHCARD_SEPARATOR)
                    (fun s g => lit_at_pos FLASHCARD_SEPARATOR s g
                                  separator_nonempty)
                    (lit_at_ext FLASHCARD_SEPARATOR) content eq_refl) as Hq.
      rewrite Forall_forall in Hq. now apply Hq. }
    pose proof (parts_quiet captures (match_at FLASHCARD_REGEX) tag_pos tag_ext
                  block eq_refl) as Htag.
    pose proof (parts_within captures (match_at FLASHCARD_REGEX) block)
      as Hwithin.
    unfold block_cards in Hc. fold (re_split FLASHCARD_REGEX block) in *.
    destruct (re_split FLASHCARD_REGEX block) as [|f [|b [|z l]]];
      try contradiction.
    destruct Hc as [<- | []]. cbn [front back Flashcard.init].
    pose proof (Forall_inv Htag) as Hf.
    pose proof (Forall_inv (Forall_inv_tail Htag)) as Hb'.
    destruct (Forall_inv Hwithin) as (pf & qf & Ef).
    destruct (Forall_inv (Forall_inv_tail Hwithin)) as (pb & qb & Eb).
    repeat split.
    - apply quiet_strip; [apply lit_at_ext|].
      exact (quiet_within unit _ (lit_at_ext _) block f pf qf Hsep Ef).
    - apply quiet_strip; [apply tag_ext|exact Hf].
    - apply quiet_strip; [apply lit_at_ext|].
      exact (quiet_within unit _ (lit_at_ext _) block b pb qb Hsep Eb).
    - apply quiet_strip; [apply tag_ext|exact Hb']. }
  destruct H as ((H1 & H2) & H3 & H4).
  intros pre post [E|E]; split.
  - exact (H1 pre post E).
  - exact (H2 pre post E).
  - exact (H3 pre post E).
  - exact (H4 pre post E).
Qed.

Lemma parsed_cards_hold_no_delimiter_witness :
  lit_at FLASHCARD_SEPARATOR (lit "nt1") = None
  /\ match_at FLASHCARD_REGEX (lit "nt1") = None.
Proof.
  refine (parsed_cards_hold_no_delimiter extraction_example
            (Flashcard.init (lit "front1") (lit "back1")) _
            (lit "fro") (lit "nt1") _).
  - vm_compute. now left.
  - left. reflexivity.
Defined.

(** X3 -- A document without the tag.  A document in which the tag
    matches nowhere, the empty document among them, yields no card. *)
Theorem untagged_document_has_no_card (content : str) :
  quiet (match_at FLASHCARD_REGEX) content ->
  MarkdownFlashcardExtractor._parse_flashcards content = [].
Proof.
  intros Hq. rewrite parse_blocks.
  pose proof (parts_within unit (lit_at FLASHCARD_SEPARATOR) content) as Hw.
  fold (split FLASHCARD_SEPARATOR content) in Hw.
  induction (split FLASHCARD_SEPARATOR content) as [|block l IH];
    [reflexivity|].
  destruct (Forall_inv Hw) as (pre & post & E).
  pose proof (Forall_inv_tail Hw) as Hl.
  cbn [flat_map]. rewrite (IH Hl), app_nil_r.
  unfold block_cards, re_split.
  rewrite (parts_of_quiet captures _ block
             (quiet_within captures _ tag_ext content block pre post Hq E)).
  reflexivity.
Qed.

Lemma untagged_document_has_no_card_witness :
  MarkdownFlashcardExtractor._parse_flashcards [] = []
  /\ MarkdownFlashcardExtractor._parse_flashcards (lit "a---b") = [].
Proof.
  split; apply untagged_document_has_no_card.
  - apply quiet_nil. reflexivity.
  - repeat (apply quiet_cons; [reflexivity|]). apply quiet_nil. reflexivity.
Defined.

(** X4 -- A document without separator.  A document in which [---] occurs
    nowhere is one block: it yields at most one card, the one of its two
    parts around the tag when the tag matches exactly once. *)
Theorem unseparated_document_is_one_block (content : str) :
  quiet (lit_at FLASHCARD_SEPARATOR) content ->
  split FLASHCARD_SEPARATOR content = [content]
  /\ MarkdownFlashcardExtractor._parse_flashcards content
     = match re_split FLASHCARD_REGEX content with
       | [f; b] => [Flashcard.init (strip f) (strip b)]
       | _ => []
       end
  /\ length (MarkdownFlashcardExtractor._parse_flashcards content) <= 1.
Proof.
  intros Hq.
  assert (Hs : split FLASHCARD_SEPARATOR content = [content])
    by exact (parts_of_quiet unit _ content Hq).
  split; [exact Hs|].
  unfold MarkdownFlashcardExtractor._parse_flashcards. rewrite Hs.
  cbn [flat_map]. rewrite app_nil_r. split; [reflexivity|].
  destruct (re_split FLASHCARD_REGEX content) as [|f [|b [|z l]]];
    cbn; lia.
Qed.

Lemma unseparated_document_is_one_block_witness :
  MarkdownFlashcardExtractor._parse_flashcards new_card
  = [Flashcard.init (lit "Q") (lit "A")].
Proof.
  refine (eq_trans
            (proj1 (proj2 (unseparated_document_is_one_block new_card _)))
            _).
  - unfold new_card.
    repeat (apply quiet_cons; [reflexivity|]). apply quiet_nil. reflexivity.
  - vm_compute. reflexivity.
Defined.

(** ** A run touches nothing but markers *)

Lemma hits_markers (s : str) :
  Forall (fun h => is_marker (fst h)) (hits (meta_pieces s)).
Proof.
  pattern s. apply text_ind; clear s.
  - constructor.
  - intros c s Hnone IH. now rewrite meta_pieces_gap.
  - intros t rest Ht IH. pose proof Ht as (id & sum & Hid & Hsum & ->).
    rewrite meta_pieces_marker by assumption. cbn [hits].
    constructor; [exact Ht|exact IH].
Qed.

Lemma marker_ids_rewrite (r : str -> str) (s : str) :
  keeps_markers r ->
  (forall t, is_marker t -> id_of (r t) = id_of t) ->
  marker_ids (rewrite_text r s) = marker_ids s.
Proof.
  intros Hr Hid. unfold marker_ids. rewrite hits_rewrite by exact Hr.
  rewrite map_map. cbn [fst].
  pose proof (hits_markers s) as Hm.
  induction (hits (meta_pieces s)) as [|h l IH]; [reflexivity|].
  cbn [map]. f_equal.
  - apply Hid. exact (Forall_inv Hm).
  - apply IH. exact (Forall_inv_tail Hm).
Qed.

(** The [replace] of an analysed card turns a marker into a marker of the
    same id. *)
Lemma analyzed_swap (E : Env) (f b t : str) :
  is_marker t ->
  is_marker (card_swap (Flashcard.analyze E (Flashcard.init f b)) t)
  /\ id_of (card_swap (Flashcard.analyze E (Flashcard.init f b)) t)
     = id_of t.
Proof.
  intros Ht. unfold card_swap.
  destruct (analyze_shape E f b)
    as [(_ & _ & Hm)
       | (p & id & sum & s & Hp & Hid & Hsum & Hb & Hm & Hnew & _)];
    rewrite Hm.
  - now destruct (state _).
  - destruct (state _); [|now split]. unfold swap.
    destruct (str_eqb t (marker id sum)) eqn:Eq; [|now split].
    apply str_eqb_eq in Eq. subst t. rewrite Hnew. split.
    + apply new_marker_is_marker; [exact Hid|apply card_sum_word].
    + rewrite !id_of_marker; auto. left. apply str_of_int_digits.
      apply card_sum_word.
Qed.

Lemma analyzed_chain (E : Env) (raw : list Flashcard) (t : str) :
  (forall c, In c raw -> c = Flashcard.init (front c) (back c)) ->
  is_marker t ->
  is_marker (chain (map (Flashcard.analyze E) raw) t)
  /\ id_of (chain (map (Flashcard.analyze E) raw) t) = id_of t.
Proof.
  unfold chain. revert t.
  induction raw as [|c raw IH]; intros t Hraw Ht; [now split|].
  cbn [map fold_left].
  rewrite (Hraw c (or_introl eq_refl)).
  destruct (analyzed_swap E (front c) (back c) t Ht) as (Hm & Hi).
  destruct (IH _ (fun c' Hc' => Hraw c' (or_intror Hc')) Hm) as (Hm' & Hi').
  split; [exact Hm'|]. now rewrite Hi'.
Qed.

(** The text [update_content] writes differs from the document in its
    markers only, and the markers keep their ids. *)
Lemma rewritten_document (E : Env) (doc data : str) :
  rewrite_markers
    (map (Flashcard.analyze E)
       (MarkdownFlashcardExtractor._parse_flashcards doc)) doc = Ok data ->
  erase data = erase doc /\ marker_ids data = marker_ids doc.
Proof.
  intros H.
  pose proof (rewrite_markers_ok E _ doc data (parse_init doc) H) as Hs.
  rewrite (rewrite_markers_settled _ doc Hs) in H. injection H as <-.
  split.
  - apply erase_rewrite. now apply keeps_markers_chain.
  - apply marker_ids_rewrite; [now apply keeps_markers_chain|].
    intros t Ht. now apply (analyzed_chain E _ t (parse_init doc)).
Qed.

Lemma make_cards_disk (E : Env) (anki : AnkiConnect) (file : str)
    (w w' : World) (r : result (list Flashcard * str)) :
  CardMarker.make_cards E anki file w = (r, w') -> disk w' = disk w.
Proof.
  unfold CardMarker.make_cards,
    MarkdownFlashcardExtractor.extract_flashcards, bind.
  rewrite read_file_content.
  destruct (content_of w file) as [doc|];
    [|intros H; now injection H as _ <-].
  cbn [ret].
  destruct (for_each (CardMarker.make_card E anki)
              (MarkdownFlashcardExtractor._parse_flashcards doc) w)
    as [[cards|e] w1] eqn:Ef; intros H; injection H as _ <-;
    exact (for_each_make_card_disk E anki _ w w1 _ Ef).
Qed.

Lemma sync_file_raise (E : Env) (anki : AnkiConnect) (file : str)
    (w w' : World) (e : exn) :
  sync_file E anki file w = (Raise e, w') -> disk w' = disk w.
Proof.
  unfold sync_file, bind.
  destruct (CardMarker.make_cards E anki file w) as [[[fl content]|e1] w1]
    eqn:Emk.
  - pose proof (make_cards_disk E anki file w w1 _ Emk) as D1.
    destruct (CardMarker.sync_medias E fl w1) as [[u|e2] w2] eqn:Esm.
    + pose proof (sync_medias_disk E fl w1 w2 _ Esm) as D2.
      unfold update_content, bind, lift.
      destruct (rewrite_markers fl content) as [data|e3].
      * destruct (negb (str_eqb data content)); [discriminate|].
        cbn [ret]. intros H. injection H as _ <-. congruence.
      * intros H. injection H as _ <-. congruence.
    + pose proof (sync_medias_disk E fl w1 w2 _ Esm) as D2.
      intros H. injection H as _ <-. congruence.
  - intros H. injection H as _ <-.
    exact (make_cards_disk E anki file w w1 _ Emk).
Qed.

Lemma kept_disk (files : list str) (w w' : World) :
  disk w' = disk w -> kept files w w'.
Proof.
  intros D. split; [now rewrite D|]. split.
  - intros file doc H. exists doc.
    now rewrite (content_of_disk w w' file D).
  - intros file _. now apply content_of_disk.
Qed.

Lemma kept_trans (files : list str) (w1 w2 w3 : World) :
  kept files w1 w2 -> kept files w2 w3 -> kept files w1 w3.
Proof.
  intros (N1 & C1 & O1) (N2 & C2 & O2). split; [congruence|]. split.
  - intros file doc H. destruct (C1 file doc H) as (d1 & H1 & E1 & I1).
    destruct (C2 file d1 H1) as (d2 & H2 & E2 & I2).
    exists d2. repeat split; congruence.
  - intros file Hf. rewrite O2, O1; auto.
Qed.

Lemma sync_file_kept (E : Env) (anki : AnkiConnect) (files : list str)
    (file : str) (w w' : World) (r : result unit) :
  In file files -> sync_file E anki file w = (r, w') -> kept files w w'.
Proof.
  intros Hin H. destruct r as [[]|e].
  - destruct (first_run_file E anki file w w' H)
      as (doc & data & Hdoc & Hrw & Hdata & Hother & Hnames).
    destruct (rewritten_document E doc data Hrw) as (He & Hi).
    split; [exact Hnames|]. split.
    + intros other d Hd.
      destruct (str_eqb other file) eqn:Eq.
      * apply str_eqb_eq in Eq. subst other.
        exists data. rewrite Hdoc in Hd. injection Hd as <-. auto.
      * apply str_eqb_neq in Eq. exists d. now rewrite Hother.
    + intros other Hf. apply Hother. intros ->. contradiction.
  - apply kept_disk. exact (sync_file_raise E anki file w w' e H).
Qed.

Lemma for_each_kept (E : Env) (anki : AnkiConnect) (files : list str)
    (l : list str) :
  incl l files ->
  forall (w w' : World) (r : result (list unit)),
    for_each (sync_file E anki) l w = (r, w') -> kept files w w'.
Proof.
  induction l as [|file l IH]; intros Hl w w' r H.
  - cbn in H. injection H as _ <-. now apply kept_disk.
  - cbn [for_each] in H. unfold bind at 1 in H.
    destruct (sync_file E anki file w) as [[u|e] w1] eqn:E1.
    + pose proof (sync_file_kept E anki files file w w1 _
                    (Hl file (or_introl eq_refl)) E1) as K1.
      unfold bind at 1 in H.
      destruct (for_each (sync_file E anki) l w1) as [[us|e] w2] eqn:E2.
      * cbn [ret] in H. injection H as _ <-.
        apply (kept_trans files w w1 w2 K1).
        apply (IH (fun x Hx => Hl x (or_intror Hx)) w1 w2 _ E2).
      * injection H as _ <-.
        apply (kept_trans files w w1 w2 K1).
        apply (IH (fun x Hx => Hl x (or_intror Hx)) w1 w2 _ E2).
    + injection H as _ <-.
      exact (sync_file_kept E anki files file w w1 _
               (Hl file (or_introl eq_refl)) E1).
Qed.

(** X5 -- A run rewrites markers and nothing else.  However a run of
    [main] ends, the folder has the entries it had; every document reads
    as before once the markers are erased, and holds markers of the same
    ids in the same order; an entry without a Markdown extension is left
    as it was. *)
Theorem run_rewrites_markers_only (E : Env) (deck model : str)
    (w w' : World) (r : result unit) :
  main E deck model w = (r, w') ->
  map fst (disk w') = map fst (disk w)
  /\ (forall file doc,
        content_of w file = Some doc ->
        exists doc',
          content_of w' file = Some doc'
          /\ erase doc' = erase doc /\ marker_ids doc' = marker_ids doc)
  /\ (forall file,
        endswith (lit ".md") file || endswith (lit ".markdown") file = false ->
        content_of w' file = content_of w file).
Proof.
  intros H. rewrite main_unfold in H.
  set (anki := {| deck_name := deck; model_name := model |}) in *.
  assert (K : kept (markdown_files w) w w').
  { unfold bind at 1 in H.
    destruct (prepare_deck E deck anki w) as [[u|e] w0] eqn:Ep.
    - pose proof (prepare_deck_world E deck anki w w0 _ Ep) as ->.
      unfold bind at 1 in H.
      destruct (for_each (sync_file E anki) (markdown_files w) _)
        as [[us|e] w1] eqn:Ef.
      + cbn [ret] in H. injection H as _ <-.
        apply (kept_trans _ w {| disk := disk w;
                                 posted := posted w ++ [deckNames] |} w1).
        * now apply kept_disk.
        * exact (for_each_kept E anki _ _ (incl_refl _) _ _ _ Ef).
      + injection H as _ <-.
        apply (kept_trans _ w {| disk := disk w;
                                 posted := posted w ++ [deckNames] |} w1).
        * now apply kept_disk.
        * exact (for_each_kept E anki _ _ (incl_refl _) _ _ _ Ef).
    - injection H as _ <-.
      pose proof (prepare_deck_world E deck anki w w0 _ Ep) as ->.
      now apply kept_disk. }
  destruct K as (N & C & O). split; [exact N|]. split; [exact C|].
  intros file Hext. apply O. unfold markdown_files.
  rewrite filter_In. intros [_ Hf]. unfold str, char in *. congruence.
Qed.

Lemma run_rewrites_markers_only_witness :
  exists doc',
    content_of
      (snd (main demo_env (lit "Default") (lit "Basic") stale_folder))
      (lit "a.md") = Some doc'
    /\ erase doc' = erase three_cards
    /\ marker_ids doc' = marker_ids three_cards.
Proof.
  refine (proj1 (proj2 (run_rewrites_markers_only demo_env (lit "Default")
                          (lit "Basic") stale_folder _ _ _))
            (lit "a.md") three_cards _).
  - apply surjective_pairing.
  - reflexivity.
Defined.

(** ** The requests of a run *)

Lemma analyze_render (E : Env) (f b : str) :
  let c := Flashcard.analyze E (Flashcard.init f b) in
  front c = f /\ back c = b
  /\ (state c = None
      \/ (front_html c = Some (Flashcard._convert_to_html E f)
          /\ back_html c = Some (Flashcard._convert_to_html E b)
          /\ medias c = Flashcard._extract_medias (Flashcard.init f b))).
Proof.
  cbv zeta. unfold Flashcard.analyze. cbn [back Flashcard.init].
  destruct (Flashcard._extract_anki_meta b) as [[id sum] meta].
  destruct id as [i|]; [destruct (negb _)|]; cbn;
    (split; [reflexivity|]); (split; [reflexivity|]);
    first [left; reflexivity | right; repeat split; reflexivity].
Qed.

Lemma int_of_str_digits (id : str) :
  digits id ->
  int_of_str id
  = if Nat.leb (length id) int_max_str_digits
    then Ok (digits_value id) else Raise ValueError.
Proof.
  intros [Hne Hd]. unfold int_of_str. destruct id; [congruence|].
  now rewrite Hd.
Qed.

(** What the body of the loop of [make_cards] does for one card. *)
Lemma make_card_step (E : Env) (anki : AnkiConnect) (f b : str)
    (w w' : World) (r : result Flashcard) :
  CardMarker.make_card E anki (Flashcard.init f b) w = (r, w') ->
  disk w' = disk w
  /\ ((posted w' = posted w
       /\ match r with
          | Ok c' => has_state c' = false
          | Raise e => e = ValueError
          end)
      \/ exists req,
           posted w' = posted w ++ [req]
           /\ card_request E anki
                (Flashcard.analyze E (Flashcard.init f b)) req
           /\ match r with
              | Ok c' => has_state c' = true /\ card_request E anki c' req
              | Raise e => e = RequestException
              end).
Proof.
  unfold CardMarker.make_card.
  destruct (analyze_render E f b) as (Hf & Hb & Hr).
  set (c := Flashcard.analyze E (Flashcard.init f b)) in *.
  destruct (state c) as [st|] eqn:Hst.
  2:{ cbn [ret]. intros H. injection H as <- <-. split; [reflexivity|].
      left. split; [reflexivity|]. unfold has_state. now rewrite Hst. }
  destruct Hr as [Hr | (Hfh & Hbh & _)]; [discriminate|].
  unfold CardMarker.sync_card. rewrite Hst.
  destruct st.
  - (* a card to create *)
    assert (Hreq : card_request E anki c
                     (addNote (deck_name anki) (model_name anki)
                        (front_html c) (back_html c))).
    { unfold card_request. rewrite Hf, Hb, Hst. auto. }
    unfold AnkiConnect.add_note, AnkiConnect.invoke, bind.
    destruct (fails (server E) (posted w) _).
    + intros H. injection H as <- <-. split; [reflexivity|]. right.
      eexists. split; [reflexivity|]. split; [exact Hreq|reflexivity].
    + destruct (note_id (server E) (posted w) _) as [new_id|];
        cbn [ret]; intros H; injection H as <- <-;
        (split; [reflexivity|]); right; eexists;
        (split; [reflexivity|]); (split; [exact Hreq|]);
        (split; [unfold has_state; cbn; now rewrite Hst|]);
        try exact Hreq.
      unfold card_request in *. cbn. rewrite Hst in *. exact Hreq.
  - (* a card to update *)
    assert (Hid : exists id, anki_id c = Some (IdText id) /\ digits id).
    { subst c.
      destruct (first_marker b)
        as [Hfree | (p & id & sum & s & Hp & Hd & Hsum & Hb')].
      - destruct (analyze_create E (Flashcard.init f b) Hfree) as (H1 & _).
        congruence.
      - destruct (analyze_marked E (Flashcard.init f b) p s id sum
                    Hd Hsum Hp Hb') as (Hi & _).
        now exists id. }
    destruct Hid as (id & Hid & Hd). rewrite Hid.
    unfold bind at 1, lift, int_of_id. rewrite (int_of_str_digits id Hd).
    destruct (Nat.leb (length id) int_max_str_digits) eqn:Hlen.
    + apply Nat.leb_le in Hlen.
      assert (Hreq : card_request E anki c
                       (updateNoteFields (digits_value id) (front_html c)
                          (back_html c))).
      { unfold card_request. rewrite Hf, Hb, Hst.
        split; [exact Hfh|]. split; [exact Hbh|]. now exists id. }
      unfold AnkiConnect.update_note, AnkiConnect.invoke, bind.
      destruct (fails (server E) (posted w) _).
      * intros H. injection H as <- <-. split; [reflexivity|]. right.
        eexists. split; [reflexivity|]. split; [exact Hreq|reflexivity].
      * cbn [ret]. intros H. injection H as <- <-.
        split; [reflexivity|]. right. eexists.
        split; [reflexivity|]. split; [exact Hreq|].
        split; [|exact Hreq]. unfold has_state. now rewrite Hst.
    + intros H. injection H as <- <-. split; [reflexivity|].
      left. split; reflexivity.
Qed.

Lemma card_request_run (E : Env) (anki : AnkiConnect) (c : Flashcard)
    (req : request) :
  card_request E anki c req ->
  run_request (deck_name anki) (model_name anki) req.
Proof.
  intros (Hf & Hb & H). destruct (state c) as [[|]|]; [| |contradiction].
  - subst req. rewrite Hf, Hb. cbn. auto.
  - destruct H as (id & _ & _ & _ & ->). rewrite Hf, Hb. exact I.
Qed.

Lemma for_each_make_card_step (E : Env) (anki : AnkiConnect)
    (raw : list Flashcard) :
  (forall c, In c raw -> c = Flashcard.init (front c) (back c)) ->
  forall (w w' : World) (r : result (list Flashcard)),
    for_each (CardMarker.make_card E anki) raw w = (r, w') ->
    disk w' = disk w
    /\ exists reqs,
         posted w' = posted w ++ reqs
         /\ Forall (run_request (deck_name anki) (model_name anki)) reqs
         /\ match r with
            | Ok cards =>
                length cards = length raw
                /\ Forall2 (card_request E anki) (filter has_state cards)
                     reqs
            | Raise _ => True
            end.
Proof.
  induction raw as [|c raw IH]; intros Hraw w w' r H.
  - cbn in H. injection H as <- <-. split; [reflexivity|].
    exists []. rewrite app_nil_r. repeat split; constructor.
  - cbn [for_each] in H. unfold bind at 1 in H.
    rewrite (Hraw c (or_introl eq_refl)) in H.
    destruct (CardMarker.make_card E anki _ w) as [[c'|e] w1] eqn:E1.
    + destruct (make_card_step E anki _ _ w w1 _ E1) as (D1 & S1).
      unfold bind at 1 in H.
      destruct (for_each (CardMarker.make_card E anki) raw w1)
        as [[cards|e] w2] eqn:E2;
        destruct (IH (fun x Hx => Hraw x (or_intror Hx)) w1 w2 _ E2)
          as (D2 & reqs & P2 & F2 & R2);
        cbn [ret] in H; injection H as <- <-;
        (split; [congruence|]).
      * destruct R2 as (L2 & R2).
        destruct S1 as [(P1 & Hs) | (req & P1 & _ & Hs & Hreq)].
        -- exists reqs. rewrite P2, P1. split; [reflexivity|].
           split; [exact F2|]. cbn [length filter]. rewrite Hs.
           split; [now f_equal|exact R2].
        -- exists (req :: reqs). rewrite P2, P1, <- app_assoc.
           split; [reflexivity|].
           split; [constructor;
                   [exact (card_request_run E anki c' req Hreq)|exact F2]|].
           cbn [length filter]. rewrite Hs.
           split; [now f_equal|now constructor].
      * destruct S1 as [(P1 & Hs) | (req & P1 & _ & Hs & Hreq)].
        -- exists reqs. rewrite P2, P1. auto.
        -- exists (req :: reqs). rewrite P2, P1, <- app_assoc.
           split; [reflexivity|].
           split; [constructor;
                   [exact (card_request_run E anki c' req Hreq)|exact F2]|].
           exact I.
    + injection H as <- <-.
      destruct (make_card_step E anki _ _ w w1 _ E1) as (D1 & S1).
      split; [exact D1|].
      destruct S1 as [(P1 & _) | (req & P1 & Hreq & _)].
      * exists []. rewrite app_nil_r. repeat split; auto.
      * exists [req]. split; [exact P1|]. split; [|exact I].
        constructor; [|constructor].
        exact (card_request_run E anki _ req Hreq).
Qed.

(** X6 -- The requests of [make_cards].  When [make_cards] returns, it
    has read the document, left the folder as it was and posted one
    request for each card that is not unchanged, in the order of the
    document and none besides: for a card to update the update of the
    note whose number the digits of the marker denote, for a card to
    create the creation in the deck and with the model of the run, each
    with the two rendered sides. *)
Theorem make_cards_requests (E : Env) (anki : AnkiConnect) (file : str)
    (w w' : World) (cards : list Flashcard) (doc : str) :
  CardMarker.make_cards E anki file w = (Ok (cards, doc), w') ->
  content_of w file = Some doc /\ disk w' = disk w
  /\ length cards
     = length (MarkdownFlashcardExtractor._parse_flashcards doc)
  /\ exists reqs,
       posted w' = posted w ++ reqs
       /\ Forall2 (card_request E anki) (filter has_state cards) reqs.
Proof.
  unfold CardMarker.make_cards,
    MarkdownFlashcardExtractor.extract_flashcards, bind.
  rewrite read_file_content.
  destruct (content_of w file) as [data|]; [|discriminate].
  cbn [ret].
  destruct (for_each (CardMarker.make_card E anki)
              (MarkdownFlashcardExtractor._parse_flashcards data) w)
    as [[cs|e] w1] eqn:Ef; [|discriminate].
  intros H. injection H as <- <- <-.
  destruct (for_each_make_card_step E anki _ (parse_init data) w w1 _ Ef)
    as (D & reqs & P & _ & L & R).
  split; [reflexivity|]. split; [exact D|]. split; [exact L|].
  now exists reqs.
Qed.

Lemma make_cards_requests_witness :
  exists reqs,
    posted (snd (CardMarker.make_cards demo_env demo_anki (lit "a.md")
                   stale_folder))
    = posted stale_folder ++ reqs
    /\ length reqs = 3.
Proof.
  destruct (make_cards_requests demo_env demo_anki (lit "a.md") stale_folder
              (snd (CardMarker.make_cards demo_env demo_anki (lit "a.md")
                      stale_folder))
              (map (Flashcard.analyze demo_env)
                 (MarkdownFlashcardExtractor._parse_flashcards three_cards))
              three_cards)
    as (_ & _ & _ & reqs & P & R).
  - vm_compute. reflexivity.
  - exists reqs. split; [exact P|].
    apply Forall2_length in R. rewrite <- R. vm_compute. reflexivity.
Defined.

(** X7 -- The update of a note.  For a card whose first marker carries
    the id [id] and not the text of the computed fingerprint, the loop of
    [make_cards] posts one request, the update of the note whose number
    the digits of [id] denote with the two rendered sides, and raises if
    that request fails; but an id of more than 4300 digits makes [int]
    raise [ValueError] before anything is posted. *)
Theorem update_card_request (E : Env) (anki : AnkiConnect)
    (f p id s : str) (sum : option str) (w : World) :
  marker_free p = true -> digits id -> sum_ok sum ->
  let b := p ++ marker id sum ++ s in
  let req := updateNoteFields (digits_value id)
               (Some (Flashcard._convert_to_html E f))
               (Some (Flashcard._convert_to_html E b)) in
  sum <> Some (str_of_int (Flashcard._generate_card_sum (Flashcard.init f b))) ->
  (length id <= int_max_str_digits ->
   CardMarker.make_card E anki (Flashcard.init f b) w
   = (if fails (server E) (posted w) req then Raise RequestException
      else Ok (Flashcard.analyze E (Flashcard.init f b)),
      {| disk := disk w; posted := posted w ++ [req] |}))
  /\ (int_max_str_digits < length id ->
      CardMarker.make_card E anki (Flashcard.init f b) w
      = (Raise ValueError, w)).
Proof.
  intros Hp Hid Hsum b req Hne.
  destruct (analyze_marked E (Flashcard.init f b) p s id sum Hid Hsum Hp
              eq_refl) as (Hi & _ & _ & _ & _ & _ & _ & Hupd).
  specialize (Hupd Hne).
  destruct (analyze_render E f b) as (_ & _ & [Hr | (Hfh & Hbh & _)]);
    [congruence|].
  unfold CardMarker.make_card, CardMarker.sync_card.
  fold b. rewrite Hupd, Hi. unfold bind at 1, lift, int_of_id.
  rewrite (int_of_str_digits id Hid). split; intros Hlen.
  - apply Nat.leb_le in Hlen. rewrite Hlen.
    unfold AnkiConnect.update_note, AnkiConnect.invoke, bind.
    rewrite Hfh, Hbh. fold req.
    now destruct (fails (server E) (posted w) req).
  - apply Nat.leb_gt in Hlen. now rewrite Hlen.
Qed.

Lemma update_card_request_witness :
  CardMarker.make_card demo_env demo_anki
    (Flashcard.init (lit "Q") (lit "A<!--Meta:id=012;sum=5-->"))
    (mkWorld [] [])
  = (Ok (Flashcard.analyze demo_env
           (Flashcard.init (lit "Q") (lit "A<!--Meta:id=012;sum=5-->"))),
     mkWorld []
       [updateNoteFields 12 (Some (lit "Q"))
          (Some (lit "A<!--Meta:id=012;sum=5-->"))]).
Proof.
  refine (proj1 (update_card_request demo_env demo_anki (lit "Q") (lit "A")
                   (lit "012") [] (Some (lit "5")) (mkWorld [] [])
                   eq_refl _ _ _) _).
  - split; [discriminate|reflexivity].
  - left. split; [discriminate|reflexivity].
  - vm_compute. discriminate.
  - vm_compute. lia.
Defined.

(** ** Media names *)

Lemma existsb_str_eqb_in (x : str) (l : list str) :
  existsb (str_eqb x) l = true <-> In x l.
Proof.
  rewrite existsb_exists. split.
  - intros (y & Hin & Heq). apply str_eqb_eq in Heq. now subst.
  - intros Hin. exists x. split; [exact Hin|apply str_eqb_refl].
Qed.

Lemma set_update_in (xs s : list str) (m : str) :
  In m (set_update s xs) <-> In m s \/ In m xs.
Proof.
  unfold set_update. revert s.
  induction xs as [|x xs IH]; intros s; cbn [fold_left].
  - cbn. tauto.
  - rewrite IH. destruct (existsb (str_eqb x) s) eqn:Ex.
    + apply existsb_str_eqb_in in Ex. cbn. split.
      * tauto.
      * intros [H|[<-|H]]; auto.
    + rewrite in_app_iff. cbn. tauto.
Qed.

Lemma set_update_NoDup (xs s : list str) :
  NoDup s -> NoDup (set_update s xs).
Proof.
  unfold set_update. revert s.
  induction xs as [|x xs IH]; intros s Hs; cbn [fold_left]; [exact Hs|].
  apply IH. destruct (existsb (str_eqb x) s) eqn:Ex; [exact Hs|].
  assert (Hx : ~ In x s).
  { intros H. apply existsb_str_eqb_in in H. congruence. }
  clear Ex. induction s as [|y s IHs]; cbn.
  - constructor; [intros []|constructor].
  - inversion Hs as [|? ? Hy Hs']; subst. constructor.
    + rewrite in_app_iff. cbn. intros [H|[H|[]]]; [contradiction|].
      subst. apply Hx. now left.
    + apply IHs; [exact Hs'|]. intros H. apply Hx. now right.
Qed.

(** The names [sync_medias] walks. *)
Lemma all_medias (cards : list Flashcard) (acc : list str) :
  NoDup acc ->
  NoDup (fold_left (fun acc c => set_update acc (medias c)) cards acc)
  /\ forall m,
       In m (fold_left (fun acc c => set_update acc (medias c)) cards acc)
       <-> In m acc \/ exists c, In c cards /\ In m (medias c).
Proof.
  revert acc. induction cards as [|c cards IH]; intros acc Hacc;
    cbn [fold_left].
  - split; [exact Hacc|]. intros m. split; [auto|].
    intros [H|(c & [] & _)]. exact H.
  - destruct (IH _ (set_update_NoDup (medias c) acc Hacc)) as (N & I).
    split; [exact N|]. intros m. rewrite I, set_update_in. split.
    + intros [[H|H]|(c' & Hc' & H)]; auto.
      * right. exists c. split; [now left|exact H].
      * right. exists c'. split; [now right|exact H].
    + intros [H|(c' & [<-|Hc'] & H)]; auto.
      right. now exists c'.
Qed.

Lemma last_in (A : Type) (l : list A) (d : A) : l <> [] -> In (last l d) l.
Proof.
  induction l as [|x l IH]; [congruence|]. intros _.
  destruct l as [|y l]; [now left|]. right. apply IH. discriminate.
Qed.

Lemma basename_no_slash (path : str) :
  ~ In 47%N (AnkiConnect.basename path).
Proof.
  unfold AnkiConnect.basename.
  assert (Hq : Forall (quiet (lit_at (lit "/"))) (split (lit "/") path)).
  { apply parts_quiet; [|apply lit_at_ext|reflexivity].
    intros s g. apply lit_at_pos. discriminate. }
  assert (Hl : quiet (lit_at (lit "/")) (last (split (lit "/") path) [])).
  { rewrite Forall_forall in Hq. apply Hq. apply last_in.
    apply parts_nonempty. }
  intros Hin. apply in_split in Hin as (pre & post & E).
  specialize (Hl pre (47%N :: post) E). discriminate.
Qed.

(** ** The last part of a split *)

Section LastPart.
Variable G : Type.

Lemma parts_length (ps : list (piece G)) :
  length (parts ps) = S (length (hits ps)).
Proof.
  induction ps as [|[c|t g] ps IH]; cbn [parts hits length].
  - reflexivity.
  - destruct (parts ps); cbn in *; lia.
  - now rewrite IH.
Qed.

Lemma last_cons (A : Type) (x d : A) (l : list A) :
  l <> [] -> last (x :: l) d = last l d.
Proof. destruct l; [congruence|reflexivity]. Qed.

(** The text is its last part, or ends with the last hit and the last
    part. *)
Lemma last_part_suffix (ps : list (piece G)) :
  (hits ps = [] /\ substitute (fun t _ => t) ps = last (parts ps) [])
  \/ exists pre t g,
       In (t, g) (hits ps)
       /\ substitute (fun t _ => t) ps = pre ++ t ++ last (parts ps) [].
Proof.
  induction ps as [|[c|t g] ps IH]; cbn [parts hits].
  - left. split; reflexivity.
  - pose proof (parts_length ps) as Hlen.
    destruct (parts ps) as [|p r] eqn:Ep; [discriminate|].
    destruct IH as [(Hh & Hs) | (pre & t & g & Hin & Hs)].
    + left. split; [exact Hh|]. rewrite Hh in Hlen.
      destruct r; [|discriminate]. cbn [last] in *.
      unfold substitute in *. cbn [flat_map app]. now rewrite Hs.
    + right. exists (c :: pre), t, g. split; [exact Hin|].
      assert (Hr : r <> []).
      { destruct (hits ps); [contradiction|]. destruct r; discriminate. }
      rewrite last_cons by exact Hr. rewrite last_cons in Hs by exact Hr.
      unfold substitute in *. cbn [flat_map app]. now rewrite Hs.
  - right. rewrite last_cons by apply parts_nonempty.
    destruct IH as [(Hh & Hs) | (pre & t' & g' & Hin & Hs)].
    + exists [], t, g. split; [now left|].
      unfold substitute in *. cbn [flat_map app]. now rewrite Hs.
    + exists (t ++ pre), t', g'. split; [now right|].
      unfold substitute in *. cbn [flat_map]. now rewrite Hs, <- app_assoc.
Qed.

End LastPart.

Lemma lit_at_hits (p s : str) (h : str * unit) :
  In h (hits (pieces (lit_at p) s)) -> fst h = p.
Proof.
  pattern s. apply (scan_cases unit (lit_at p)); clear s.
  - intros [].
  - intros c s _ Hp IH. rewrite Hp. exact IH.
  - intros c s n g Hm Hp IH. rewrite Hp. cbn [hits]. intros [<- | H].
    + cbn [fst]. unfold lit_at in Hm.
      destruct (strip_prefix p (c :: s)) as [r|] eqn:E; [|discriminate].
      injection Hm as Hn. apply strip_prefix_inv in E. rewrite E.
      apply firstn_exact. congruence.
    + now apply IH.
Qed.

(** The path is the name that [basename] returns after a folder part
    that is empty or ends with [/]. *)
Lemma basename_suffix (path : str) :
  exists folder,
    path = folder ++ AnkiConnect.basename path
    /\ (folder = [] \/ exists x, folder = x ++ lit "/").
Proof.
  unfold AnkiConnect.basename, split.
  pose proof (substitute_same unit (lit_at (lit "/")) path 0) as Hs.
  cbn [skipn] in Hs. fold (pieces (lit_at (lit "/")) path) in Hs.
  destruct (last_part_suffix unit (pieces (lit_at (lit "/")) path))
    as [(_ & H) | (pre & t & g & Hin & H)]; rewrite Hs in H.
  - exists []. split; [exact H|now left].
  - apply lit_at_hits in Hin. cbn [fst] in Hin. subst t.
    exists (pre ++ lit "/"). split; [now rewrite <- app_assoc|].
    right. now exists pre.
Qed.

(** ** The uploads of [sync_medias] *)

Lemma upload_run_request (E : Env) (deck model media : str) :
  Forall (run_request deck model) (upload E media).
Proof.
  unfold upload. destruct (attachment E media) as [[|d ds]|];
    constructor; [|constructor].
  cbn. split; [discriminate|apply basename_no_slash].
Qed.

Lemma media_loop (E : Env) (deck model : str) (names : list str) :
  forall (w w' : World) (r : result (list unit)),
    for_each
      (fun media =>
         match attachment E media with
         | Some ((_ :: _) as base64_attach) =>
             AnkiConnect.add_media_file E media base64_attach
         | _ => ret tt
         end) names w = (r, w') ->
    disk w' = disk w
    /\ exists reqs,
         posted w' = posted w ++ reqs
         /\ Forall (run_request deck model) reqs
         /\ match r with
            | Ok _ => reqs = flat_map (upload E) names
            | Raise e => e = RequestException
            end.
Proof.
  induction names as [|m names IH]; intros w w' r H.
  - cbn in H. injection H as <- <-. split; [reflexivity|].
    exists []. rewrite app_nil_r. repeat split. constructor.
  - cbn [for_each] in H. unfold bind at 1 in H.
    pose proof (upload_run_request E deck model m) as Hm.
    cbn [flat_map]. unfold upload at 1 in Hm. unfold upload at 1.
    destruct (attachment E m) as [[|d ds]|].
    + cbn [ret] in H. unfold bind at 1 in H.
      destruct (for_each _ names w) as [[us|e] w1] eqn:E1;
        destruct (IH w w1 _ E1) as (D & reqs & P & F & R);
        cbn [ret] in H; injection H as <- <-; (split; [exact D|]);
        exists reqs; auto.
    + unfold AnkiConnect.add_media_file, AnkiConnect.invoke in H.
      destruct (fails (server E) (posted w) _).
      * injection H as <- <-. split; [reflexivity|].
        eexists. split; [reflexivity|]. split; [exact Hm|reflexivity].
      * unfold bind at 1 in H.
        destruct (for_each _ names _) as [[us|e] w1] eqn:E1;
          destruct (IH _ w1 _ E1) as (D & reqs & P & F & R);
          cbn [ret] in H; injection H as <- <-; (split; [exact D|]);
          eexists; (split; [rewrite P; cbn [posted];
                            rewrite <- app_assoc; reflexivity|]);
          (split; [apply Forall_app; split; [exact Hm|exact F]|]);
          [now rewrite R|exact R].
    + cbn [ret] in H. unfold bind at 1 in H.
      destruct (for_each _ names w) as [[us|e] w1] eqn:E1;
        destruct (IH w w1 _ E1) as (D & reqs & P & F & R);
        cbn [ret] in H; injection H as <- <-; (split; [exact D|]);
        exists reqs; auto.
Qed.

Lemma sync_medias_step (E : Env) (deck model : str)
    (cards : list Flashcard) (w w' : World) (r : result unit) :
  CardMarker.sync_medias E cards w = (r, w') ->
  disk w' = disk w
  /\ exists reqs,
       posted w' = posted w ++ reqs
       /\ Forall (run_request deck model) reqs
       /\ match r with
          | Ok _ =>
              reqs = flat_map (upload E)
                       (fold_left (fun acc c => set_update acc (medias c))
                          cards [])
          | Raise e => e = RequestException
          end.
Proof.
  unfold CardMarker.sync_medias.
  destruct (fold_left _ cards []) as [|m names] eqn:Eall.
  - cbn [ret]. intros H. injection H as <- <-. split; [reflexivity|].
    exists []. rewrite app_nil_r. repeat split. constructor.
  - unfold bind.
    destruct (for_each _ (m :: names) w) as [[us|e] w1] eqn:E1;
      destruct (media_loop E deck model _ w w1 _ E1) as (D & reqs & P & F & R);
      cbn [ret]; intros H; injection H as <- <-; (split; [exact D|]);
      exists reqs; auto.
Qed.

(** X8 -- The uploads of a document.  When [sync_medias] returns, it has
    left the folder as it was and walked the media names of the cards,
    each name once however many cards hold it: for a name the resolver
    gives a non-empty content it has posted that content under the base
    name, and for a name the resolver does not know or gives an empty
    content it has posted nothing. *)
Theorem sync_medias_uploads (E : Env) (cards : list Flashcard)
    (w w' : World) :
  CardMarker.sync_medias E cards w = (Ok tt, w') ->
  exists names,
    NoDup names
    /\ (forall m, In m names <-> exists c, In c cards /\ In m (medias c))
    /\ disk w' = disk w
    /\ posted w' = posted w ++ flat_map (upload E) names.
Proof.
  intros H.
  destruct (sync_medias_step E [] [] cards w w' _ H) as (D & reqs & P & _ & R).
  destruct (all_medias cards [] (NoDup_nil _)) as (N & I).
  exists (fold_left (fun acc c => set_update acc (medias c)) cards []).
  split; [exact N|]. split.
  - intros m. rewrite I. split; [intros [[]|Hc]; exact Hc | now right].
  - split; [exact D|]. now rewrite P, R.
Qed.

Lemma sync_medias_uploads_witness :
  exists names,
    NoDup names
    /\ posted (snd (CardMarker.sync_medias
                      {| markdown := fun s => s; server := obliging_server;
                         attachment := fun m => Some (lit "QUJD") |}
                      [Flashcard.analyze demo_env
                         (Flashcard.init (lit "![[a.png]]")
                            (lit "![[a.png]] ![[img/b.png]]"))]
                      (mkWorld [] [])))
       = flat_map
           (upload {| markdown := fun s => s; server := obliging_server;
                      attachment := fun m => Some (lit "QUJD") |}) names.
Proof.
  destruct (sync_medias_uploads
              {| markdown := fun s => s; server := obliging_server;
                 attachment := fun m => Some (lit "QUJD") |}
              [Flashcard.analyze demo_env
                 (Flashcard.init (lit "![[a.png]]")
                    (lit "![[a.png]] ![[img/b.png]]"))]
              (mkWorld [] []) _ (surjective_pairing _))
    as (names & N & _ & _ & P).
  exists names. split; [exact N|exact P].
Defined.

(** X9 -- The name of an upload.  [add_media_file] posts the content
    under the base name of the media name: the text after its last [/],
    which holds no [/]. *)
Theorem add_media_file_name (E : Env) (media data : str) (w : World) :
  exists folder name,
    snd (AnkiConnect.add_media_file E media data w)
    = {| disk := disk w;
         posted := posted w ++ [storeMediaFile name data] |}
    /\ media = folder ++ name
    /\ ~ In 47%N name
    /\ (folder = [] \/ exists x, folder = x ++ lit "/").
Proof.
  destruct (basename_suffix media) as (folder & Hm & Hf).
  exists folder, (AnkiConnect.basename media).
  split; [|split; [exact Hm|split; [apply basename_no_slash|exact Hf]]].
  unfold AnkiConnect.add_media_file, AnkiConnect.invoke.
  now destruct (fails (server E) (posted w) _).
Qed.

(** ** The requests of a whole run *)

Lemma sent_refl (P : request -> Prop) (w : World) : sent P w w.
Proof. exists []. rewrite app_nil_r. split; [reflexivity|constructor]. Qed.

Lemma sent_trans (P : request -> Prop) (w1 w2 w3 : World) :
  sent P w1 w2 -> sent P w2 w3 -> sent P w1 w3.
Proof.
  intros (r1 & P1 & F1) (r2 & P2 & F2). exists (r1 ++ r2).
  rewrite P2, P1, app_assoc. split; [reflexivity|].
  apply Forall_app. now split.
Qed.

Lemma sent_posted (P : request -> Prop) (w w' : World) :
  posted w' = posted w -> sent P w w'.
Proof.
  intros H. exists []. rewrite app_nil_r. split; [exact H|constructor].
Qed.

Lemma update_content_posted (cards : list Flashcard) (content file : str)
    (w w' : World) (r : result unit) :
  update_content cards content file w = (r, w') -> posted w' = posted w.
Proof.
  unfold update_content, bind, lift.
  destruct (rewrite_markers cards content) as [data|e].
  - destruct (negb (str_eqb data content)); cbn;
      intros H; now injection H as _ <-.
  - intros H. now injection H as _ <-.
Qed.

Lemma make_cards_sent (E : Env) (anki : AnkiConnect) (file : str)
    (w w' : World) (r : result (list Flashcard * str)) :
  CardMarker.make_cards E anki file w = (r, w') ->
  sent (run_request (deck_name anki) (model_name anki)) w w'.
Proof.
  unfold CardMarker.make_cards,
    MarkdownFlashcardExtractor.extract_flashcards, bind.
  rewrite read_file_content.
  destruct (content_of w file) as [doc|];
    [|intros H; injection H as _ <-; apply sent_refl].
  cbn [ret].
  destruct (for_each (CardMarker.make_card E anki)
              (MarkdownFlashcardExtractor._parse_flashcards doc) w)
    as [[cards|e] w1] eqn:Ef; intros H; injection H as _ <-;
    destruct (for_each_make_card_step E anki _ (parse_init doc) w w1 _ Ef)
      as (_ & reqs & P & F & _); now exists reqs.
Qed.

Lemma sync_file_sent (E : Env) (anki : AnkiConnect) (file : str)
    (w w' : World) (r : result unit) :
  sync_file E anki file w = (r, w') ->
  sent (run_request (deck_name anki) (model_name anki)) w w'.
Proof.
  unfold sync_file, bind.
  destruct (CardMarker.make_cards E anki file w) as [[[fl content]|e1] w1]
    eqn:Emk; pose proof (make_cards_sent E anki file w w1 _ Emk) as S1.
  - destruct (CardMarker.sync_medias E fl w1) as [[u|e2] w2] eqn:Esm;
      destruct (sync_medias_step E (deck_name anki) (model_name anki)
                  fl w1 w2 _ Esm) as (_ & reqs & P & F & _);
      assert (S2 : sent (run_request (deck_name anki) (model_name anki))
                     w1 w2) by (now exists reqs).
    + intros H. apply update_content_posted in H.
      apply (sent_trans _ w w1 w'); [exact S1|].
      apply (sent_trans _ w1 w2 w'); [exact S2|now apply sent_posted].
    + intros H. injection H as _ <-.
      now apply (sent_trans _ w w1 w2).
  - intros H. now injection H as _ <-.
Qed.

Lemma for_each_sent (A B : Type) (P : request -> Prop) (body : A -> M B)
    (l : list A) :
  (forall x w w' r, body x w = (r, w') -> sent P w w') ->
  forall w w' r, for_each body l w = (r, w') -> sent P w w'.
Proof.
  intros Hb. induction l as [|x l IH]; intros w w' r H.
  - cbn in H. injection H as _ <-. apply sent_refl.
  - cbn [for_each] in H. unfold bind at 1 in H.
    destruct (body x w) as [[y|e] w1] eqn:E1.
    + unfold bind at 1 in H.
      destruct (for_each body l w1) as [[ys|e] w2] eqn:E2;
        cbn [ret] in H; injection H as _ <-;
        apply (sent_trans P w w1 w2); eauto.
    + injection H as _ <-. eauto.
Qed.

(** X10 -- The requests of a run.  However a run of [main] ends, it has
    posted the deck query first and once, never the creation of a deck,
    and after the query nothing but updates and creations of notes with
    both sides rendered, the creations in the deck and with the model of
    the run, and uploads of non-empty contents under names without
    [/]. *)
Theorem run_requests (E : Env) (deck model : str) (w w' : World)
    (r : result unit) :
  main E deck model w = (r, w') ->
  exists reqs,
    posted w' = posted w ++ deckNames :: reqs
    /\ Forall (run_request deck model) reqs
    /\ forall name, ~ In (createDeck name) (deckNames :: reqs).
Proof.
  intros H. rewrite main_unfold in H.
  set (anki := {| deck_name := deck; model_name := model |}) in *.
  assert (S : sent (run_request deck model)
                {| disk := disk w; posted := posted w ++ [deckNames] |} w').
  { unfold bind at 1 in H.
    destruct (prepare_deck E deck anki w) as [[u|e] w0] eqn:Ep;
      pose proof (prepare_deck_world E deck anki w w0 _ Ep) as ->.
    - unfold bind at 1 in H.
      destruct (for_each (sync_file E anki) (markdown_files w) _)
        as [[us|e] w1] eqn:Ef; cbn [ret] in H; injection H as _ <-;
        exact (for_each_sent _ _ _ _ _ (sync_file_sent E anki) _ _ _ Ef).
    - injection H as _ <-. apply sent_refl. }
  destruct S as (reqs & P & F). cbn [posted] in P.
  exists reqs. rewrite P, <- app_assoc. split; [reflexivity|].
  split; [exact F|].
  intros name [Hd|Hin]; [discriminate|].
  rewrite Forall_forall in F. exact (F _ Hin).
Qed.

Lemma run_requests_witness :
  exists reqs,
    posted (snd (main demo_env (lit "Default") (lit "Basic") stale_folder))
    = posted stale_folder ++ deckNames :: reqs
    /\ Forall (run_request (lit "Default") (lit "Basic")) reqs.
Proof.
  destruct (run_requests demo_env (lit "Default") (lit "Basic")
              stale_folder _ _ (surjective_pairing _))
    as (reqs & P & F & _).
  exists reqs. split; [exact P|exact F].
Defined.

(** ** The deck of a run *)

(** X11 -- When [prepare_deck] returns.  [prepare_deck] posts the deck
    query and nothing else; it returns exactly when the query succeeds
    and its answer lists the deck, and raises otherwise: the exception
    of the transport when the query fails, [TypeError] when the answer
    lists other decks, has no list or has [null] for it. *)
Theorem prepare_deck_outcome (E : Env) (name : str) (anki : AnkiConnect)
    (w : World) :
  snd (prepare_deck E name anki w)
  = {| disk := disk w; posted := posted w ++ [deckNames] |}
  /\ (fst (prepare_deck E name anki w) = Ok tt
      <-> fails (server E) (posted w) deckNames = false
          /\ exists names,
               deck_list (server E) (posted w) = Some (Some names)
               /\ In name names)
  /\ (fails (server E) (posted w) deckNames = true ->
      fst (prepare_deck E name anki w) = Raise RequestException)
  /\ (fails (server E) (posted w) deckNames = false ->
      (forall names, deck_list (server E) (posted w) = Some (Some names) ->
                     ~ In name names) ->
      fst (prepare_deck E name anki w) = Raise TypeError).
Proof.
  unfold prepare_deck, AnkiConnect.deck_names, AnkiConnect.invoke, bind.
  destruct (fails (server E) (posted w) deckNames) eqn:Ef.
  - cbn. split; [reflexivity|]. split; [|split; [reflexivity|discriminate]].
    split; [discriminate|]. intros [H _]. discriminate.
  - destruct (deck_list (server E) (posted w)) as [[names|]|] eqn:Ed;
      cbn [ret fst snd].
    + destruct (existsb (str_eqb name) names) eqn:Ex; cbn.
      * apply existsb_str_eqb_in in Ex.
        split; [reflexivity|]. split; [|split; [discriminate|]].
        -- split; [|reflexivity]. intros _. split; [reflexivity|].
           now exists names.
        -- intros _ H. now destruct (H names eq_refl).
      * assert (Hn : ~ In name names).
        { intros H. apply existsb_str_eqb_in in H. congruence. }
        split; [reflexivity|]. split; [|split; [discriminate|reflexivity]].
        split; [discriminate|]. intros (_ & l & Hl & Hin).
        injection Hl as <-. contradiction.
    + split; [reflexivity|]. split; [|split; [discriminate|reflexivity]].
      split; [discriminate|]. intros (_ & l & Hl & _). discriminate.
    + cbn. split; [reflexivity|].
      split; [|split; [discriminate|reflexivity]].
      split; [discriminate|]. intros (_ & l & Hl & _). discriminate.
Qed.

Lemma prepare_deck_outcome_witness :
  fst (prepare_deck demo_env (lit "Biology") demo_anki (mkWorld [] []))
  = Raise TypeError.
Proof.
  refine (proj2 (proj2 (proj2 (prepare_deck_outcome demo_env (lit "Biology")
                                 demo_anki (mkWorld [] [])))) eq_refl _).
  intros names H. injection H as <-. intros [H|[]]. discriminate H.
Defined.

(** [replace] of one character. *)
Lemma replace_char (c : char) (new s : str) :
  replace [c] new s
  = flat_map (fun x => if chr_eqb c x then new else [x]) s.
Proof.
  unfold replace. induction s as [|x s IH]; [reflexivity|].
  unfold pieces. cbn [pieces_from]. unfold lit_at at 1.
  cbn [strip_prefix]. destruct (chr_eqb c x) eqn:Ec.
  - cbn [length]. cbn [pieces_from substitute flat_map].
    fold (pieces (lit_at [c]) s). unfold substitute in IH.
    now rewrite IH, Ec.
  - cbn [substitute flat_map]. fold (pieces (lit_at [c]) s).
    unfold substitute in IH. now rewrite IH, Ec.
Qed.

(** X12 -- The deck of the command line.  A deck name that is given is
    passed to [main] as it is.  Without one the deck is the note path
    with every [/] turned into [::]: it holds no [/], and is the note
    path itself when that holds none. *)
Theorem deck_of_args_default (deck_name : option str) (note_path : str) :
  (forall name, deck_name = Some name ->
                deck_of_args deck_name note_path = name)
  /\ (deck_name = None ->
      deck_of_args deck_name note_path
      = flat_map (fun c => if chr_eqb 47%N c then lit "::" else [c])
          note_path
      /\ ~ In 47%N (deck_of_args deck_name note_path)
      /\ (~ In 47%N note_path ->
          deck_of_args deck_name note_path = note_path)).
Proof.
  split; [now intros name ->|]. intros ->. unfold deck_of_args.
  change (lit "/") with [47%N]. rewrite replace_char.
  split; [reflexivity|]. split.
  - rewrite in_flat_map. intros (c & _ & Hc).
    destruct (chr_eqb 47%N c) eqn:Ec.
    + destruct Hc as [H|[H|[]]]; discriminate.
    + destruct Hc as [H|[]]. rewrite H, chr_eqb_refl in Ec. discriminate.
  - induction note_path as [|c s IH]; [reflexivity|].
    intros Hn. cbn [flat_map]. destruct (chr_eqb 47%N c) eqn:Ec.
    + apply chr_eqb_eq in Ec. subst c. destruct Hn. now left.
    + cbn. f_equal. apply IH. intros H. apply Hn. now right.
Qed.

Lemma deck_of_args_default_witness :
  deck_of_args None (lit "notes/bio") = lit "notes::bio"
  /\ deck_of_args (Some (lit "Default")) (lit "notes/bio") = lit "Default".
Proof.
  split.
  - refine (eq_trans (proj1 (proj2 (deck_of_args_default None
                                      (lit "notes/bio")) eq_refl)) _).
    reflexivity.
  - exact (proj1 (deck_of_args_default (Some (lit "Default"))
                    (lit "notes/bio")) (lit "Default") eq_refl).
Defined.

(** ** The media of a card *)

(** X13 -- The media of a card.  After [analyze], an unchanged card
    holds no media name; a card to create or to update holds the names
    of the embeds of its front and of its back, each name once. *)
Theorem analyzed_card_medias (E : Env) (f b : str) :
  let c := Flashcard.analyze E (Flashcard.init f b) in
  (state c = None -> medias c = [])
  /\ (state c <> None ->
      NoDup (medias c)
      /\ forall m,
           In m (medias c)
           <-> In m (findall EMBED_FILENAME_REGEX f)
               \/ In m (findall EMBED_FILENAME_REGEX b)).
Proof.
  cbv zeta. split.
  - apply analyze_unchanged_medias.
  - intros Hst.
    destruct (analyze_render E f b) as (_ & _ & [H | (_ & _ & Hm)]);
      [contradiction|].
    rewrite Hm. unfold Flashcard._extract_medias.
    cbn [medias front back Flashcard.init]. split.
    + apply set_update_NoDup, set_update_NoDup. constructor.
    + intros m. rewrite !set_update_in. cbn. tauto.
Qed.

Lemma analyzed_card_medias_witness :
  medias (Flashcard.analyze demo_env
            (Flashcard.init (lit "Q") (lit "A<!--Meta:id=12;sum=3819048940-->")))
  = []
  /\ NoDup (medias (Flashcard.analyze demo_env
                      (Flashcard.init (lit "![[a.png]]")
                         (lit "![[a.png]] ![[b.png]]")))).
Proof.
  assert (H1 : state (Flashcard.analyze demo_env
                        (Flashcard.init (lit "Q")
                           (lit "A<!--Meta:id=12;sum=3819048940-->")))
               = None) by (vm_compute; reflexivity).
  assert (H2 : state (Flashcard.analyze demo_env
                        (Flashcard.init (lit "![[a.png]]")
                           (lit "![[a.png]] ![[b.png]]")))
               <> None) by (vm_compute; discriminate).
  split.
  - exact (proj1 (analyzed_card_medias demo_env (lit "Q")
                    (lit "A<!--Meta:id=12;sum=3819048940-->")) H1).
  - exact (proj1 (proj2 (analyzed_card_medias demo_env (lit "![[a.png]]")
                           (lit "![[a.png]] ![[b.png]]")) H2)).
Defined.

(** ** The embed pattern *)

Lemma strip_prefix_long (p x y : str) :
  length p <= length x ->
  strip_prefix p x = None -> strip_prefix p (x ++ y) = None.
Proof.
  revert x. induction p as [|a p IH]; intros x Hlen H; [discriminate|].
  destruct x as [|b x]; [cbn in Hlen; lia|].
  cbn in *. destruct (chr_eqb a b); [|reflexivity].
  apply IH; [lia|exact H].
Qed.

Lemma strip_prefix_short (p x y : str) :
  strip_prefix p (x ++ y) = None -> strip_prefix p x = None.
Proof.
  intros H. destruct (strip_prefix p x) as [r|] eqn:E; [|reflexivity].
  now rewrite (strip_prefix_ext _ _ y _ E) in H.
Qed.

Lemma embed_name_inv (s name rest : str) :
  embed_name s = Some (name, rest) ->
  s = name ++ lit "]]" ++ rest /\ embed_name_ok name.
Proof.
  revert name. induction s as [|c s IH]; intros name H.
  - cbn in H. discriminate.
  - cbn [embed_name] in H.
    destruct (strip_prefix (lit "]]") (c :: s)) as [r|] eqn:Ep.
    + injection H as <- <-. apply strip_prefix_inv in Ep.
      split; [exact Ep|]. split; [reflexivity|].
      intros [|x a] y b Hn; discriminate.
    + destruct (dot c) eqn:Hc; [|discriminate].
      destruct (embed_name s) as [[n r]|]; [|discriminate].
      injection H as <- <-.
      destruct (IH n eq_refl) as (-> & Hd & Hq).
      split; [reflexivity|]. split; [cbn; now rewrite Hc, Hd|].
      intros [|x a] y b Hn; cbn in Hn; injection Hn as <- Hn.
      * subst b.
        apply (strip_prefix_short _ (c :: n ++ lit "]]") r).
        cbn [app]. rewrite <- app_assoc. exact Ep.
      * exact (Hq a y b Hn).
Qed.

Lemma embed_name_intro (name rest : str) :
  embed_name_ok name ->
  embed_name (name ++ lit "]]" ++ rest) = Some (name, rest).
Proof.
  induction name as [|c n IH]; intros (Hd & Hq).
  - reflexivity.
  - cbn [app embed_name].
    assert (Hnone : strip_prefix (lit "]]") (c :: n ++ lit "]]" ++ rest)
                    = None).
    { change (c :: n ++ lit "]]" ++ rest)
        with ((c :: n) ++ lit "]]" ++ rest).
      rewrite app_assoc. apply strip_prefix_long.
      - rewrite length_app. cbn. lia.
      - exact (Hq [] c n eq_refl). }
    rewrite Hnone. cbn in Hd. apply andb_true_iff in Hd as [Hc Hd].
    rewrite Hc, IH; [reflexivity|].
    split; [exact Hd|]. intros a y b Hn.
    apply (Hq (c :: a) y b). cbn. now rewrite Hn.
Qed.

Lemma lazy_embed (A : Type) (k : str -> option A) (g : str -> str -> A)
    (s : str) :
  (forall s2, k s2 = match strip_prefix (lit "]]") s2 with
                     | Some r => Some (g s2 r)
                     | None => None
                     end) ->
  lazy dot k s
  = match embed_name s with
    | Some (name, rest) => Some (g (skipn (length name) s) rest)
    | None => None
    end.
Proof.
  intros Hk. induction s as [|c s IH].
  - cbn [lazy embed_name]. rewrite Hk. reflexivity.
  - cbn [lazy embed_name]. rewrite Hk.
    destruct (strip_prefix (lit "]]") (c :: s)) as [r|]; [reflexivity|].
    destruct (dot c); [|reflexivity]. rewrite IH.
    now destruct (embed_name s) as [[n r]|].
Qed.

(** The matcher on the embed pattern is the deterministic reader. *)
Lemma match_at_embed (s : str) :
  match_at EMBED_FILENAME_REGEX s
  = match embed_at s with
    | Some (name, rest) => Some (length s - length rest, [(1, name)])
    | None => None
    end.
Proof.
  unfold match_at, EMBED_FILENAME_REGEX, embed_at. cbn [run].
  rewrite run_Lit.
  destruct (strip_prefix (lit "![[") s) as [s1|] eqn:E1; [|reflexivity].
  rewrite (lazy_embed _ _
             (fun s2 r => (length s - length r,
                           [(1, firstn (length s1 - length s2) s1)]))).
  - destruct (embed_name s1) as [[name rest]|] eqn:En; [|reflexivity].
    apply embed_name_inv in En as (-> & _).
    rewrite length_skipn, !length_app.
    rewrite (firstn_exact name (lit "]]" ++ rest)); [reflexivity|lia].
  - intros s2. now rewrite run_Lit.
Qed.

Lemma embed_at_inv (s name rest : str) :
  embed_at s = Some (name, rest) ->
  s = embed name ++ rest /\ embed_name_ok name.
Proof.
  unfold embed_at, embed.
  destruct (strip_prefix (lit "![[") s) as [s1|] eqn:E1; [|discriminate].
  intros H. apply embed_name_inv in H as (-> & Hok).
  apply strip_prefix_inv in E1. split; [|exact Hok].
  now rewrite E1, <- !app_assoc.
Qed.

Lemma embed_at_intro (name rest : str) :
  embed_name_ok name -> embed_at (embed name ++ rest) = Some (name, rest).
Proof.
  intros Hok. unfold embed_at, embed. rewrite <- !app_assoc.
  rewrite strip_prefix_app. now apply embed_name_intro.
Qed.

Lemma hits_inv (G : Type) (m : str -> option (nat * G)) (s : str)
    (h : str * G) :
  In h (hits (pieces m s)) ->
  exists pre post n,
    s = pre ++ post /\ m post = Some (S n, snd h)
    /\ fst h = firstn (S n) post.
Proof.
  pattern s. apply (scan_cases G m); clear s.
  - intros [].
  - intros c s _ Hp IH. rewrite Hp. cbn [hits]. intros Hin.
    destruct (IH Hin) as (pre & post & n & -> & Hm & Hf).
    now exists (c :: pre), post, n.
  - intros c s n g Hm Hp IH. rewrite Hp. cbn [hits]. intros [<- | Hin].
    + now exists [], (c :: s), n.
    + destruct (IH Hin) as (pre & post & n' & Hs & Hm' & Hf).
      exists (c :: firstn n s ++ pre), post, n'.
      split; [|now split]. cbn. rewrite <- app_assoc, <- Hs.
      now rewrite firstn_skipn.
Qed.

(** X14 -- The names of the embeds.  Every name that [re.findall] finds
    with the embed pattern stands in the text between [![[] and []]]; it
    holds no line feed and no []]], and does not end with []]. *)
Theorem embed_names_found (text name : str) :
  In name (findall EMBED_FILENAME_REGEX text) ->
  (exists pre post, text = pre ++ lit "![[" ++ name ++ lit "]]" ++ post)
  /\ ~ In 10%N name
  /\ (forall a b, name <> a ++ lit "]]" ++ b)
  /\ (forall a, name <> a ++ lit "]").
Proof.
  unfold findall. rewrite in_map_iff. intros (h & Hn & Hin).
  apply hits_inv in Hin as (pre & post & n & Ht & Hm & Hf).
  rewrite match_at_embed in Hm.
  destruct (embed_at post) as [[nm rest]|] eqn:Ea; [|discriminate].
  injection Hm as Hlen Hg. rewrite <- Hg in Hn. cbn in Hn. subst nm.
  apply embed_at_inv in Ea as (Hp & Hd & Hq).
  split; [|split; [|split]].
  - exists pre, rest. rewrite Ht, Hp. unfold embed.
    now rewrite <- !app_assoc.
  - intros H10. rewrite forallb_forall in Hd. specialize (Hd _ H10).
    discriminate.
  - intros a b Hab. specialize (Hq a 93%N (93%N :: b) Hab). discriminate.
  - intros a Hab. specialize (Hq a 93%N [] Hab). discriminate.
Qed.

Lemma embed_names_found_witness :
  ~ In 10%N (lit "a]x").
Proof.
  refine (proj1 (proj2 (embed_names_found (lit "see ![[a]x]]]] ![[b]]")
                          (lit "a]x") _))).
  vm_compute. now left.
Defined.

(** ** [_convert_to_html] *)

(** X15 -- Embeds in the rendering.  [_convert_to_html] returns the
    rendering of [markdown2] as it is when no embed stands in it; and
    where the rendering holds a first embed, it puts the image tag of
    the name in its place, keeps what stands before and converts what
    follows likewise. *)
Theorem convert_to_html_embeds (E : Env) (text : str) :
  (quiet (match_at EMBED_FILENAME_REGEX) (markdown E text) ->
   Flashcard._convert_to_html E text = markdown E text)
  /\ forall (pre name post : str) (E' : Env) (text' : str),
       markdown E text = pre ++ embed name ++ post ->
       markdown E' text' = post ->
       embed_name_ok name ->
       (forall a c b, pre = a ++ c :: b ->
          match_at EMBED_FILENAME_REGEX (c :: b ++ embed name ++ post)
          = None) ->
       Flashcard._convert_to_html E text
       = pre ++ img name ++ Flashcard._convert_to_html E' text'.
Proof.
  unfold Flashcard._convert_to_html, sub. split.
  - intros Hq.
    assert (H : pieces (match_at EMBED_FILENAME_REGEX) (markdown E text ++ [])
                = map Gap (markdown E text)
                  ++ pieces (match_at EMBED_FILENAME_REGEX) []).
    { apply pieces_through. intros k Hk. rewrite app_nil_r.
      apply (Hq (firstn k (markdown E text))). symmetry.
      apply firstn_skipn. }
    rewrite app_nil_r in H. rewrite H, app_nil_r.
    apply substitute_gaps.
  - intros pre name post E' text' Hm Hm' Hok Hpre.
    rewrite Hm, Hm'.
    rewrite pieces_through.
    2:{ intros k Hk.
        destruct (skipn k pre) as [|c b] eqn:Es.
        - apply (f_equal (@length char)) in Es.
          rewrite length_skipn in Es. cbn in Es. lia.
        - apply (Hpre (firstn k pre) c b). rewrite <- Es. symmetry.
          apply firstn_skipn. }
    rewrite (pieces_hit captures _ (embed name) post [(1, name)]).
    + rewrite substitute_app, substitute_gaps. cbn [substitute flat_map].
      cbn [group Nat.eqb]. unfold img. now rewrite <- !app_assoc.
    + discriminate.
    + rewrite match_at_embed, embed_at_intro by exact Hok.
      rewrite length_app. f_equal. f_equal. lia.
Qed.

Lemma convert_to_html_embeds_witness :
  Flashcard._convert_to_html demo_env (lit "a ![[d.png]] b")
  = lit "a " ++ img (lit "d.png")
    ++ Flashcard._convert_to_html demo_env (lit " b").
Proof.
  refine (proj2 (convert_to_html_embeds demo_env (lit "a ![[d.png]] b"))
            (lit "a ") (lit "d.png") (lit " b") demo_env (lit " b")
            eq_refl eq_refl _ _).
  - split; [reflexivity|].
    intros a c b H.
    repeat (destruct a as [|? a];
            [injection H as <- <-; reflexivity|injection H as _ H]).
    destruct a; discriminate H.
  - intros a c b H.
    repeat (destruct a as [|? a];
            [injection H as <- <-; reflexivity|injection H as _ H]).
    destruct a; discriminate H.
Defined.

(** ** The attachment dictionary *)

Lemma str_eqb_sym (a b : str) : str_eqb a b = str_eqb b a.
Proof.
  destruct (str_eqb a b) eqn:E1, (str_eqb b a) eqn:E2; try reflexivity.
  - apply str_eqb_eq in E1. subst. now rewrite str_eqb_refl in E2.
  - apply str_eqb_eq in E2. subst. now rewrite str_eqb_refl in E1.
Qed.

Lemma dict_get_set (d : dict) (k v k' : str) :
  dict_get (dict_set d k v) k'
  = if str_eqb k k' then Some v else dict_get d k'.
Proof.
  unfold dict_get. induction d as [|[x y] d IH]; cbn [dict_set find].
  - cbn [fst]. now destruct (str_eqb k k').
  - destruct (str_eqb x k) eqn:Exk; cbn [find fst].
    + apply str_eqb_eq in Exk. subst x.
      destruct (str_eqb k k'); reflexivity.
    + destruct (str_eqb x k') eqn:Exk'.
      * apply str_eqb_eq in Exk'. subst x.
        rewrite (str_eqb_sym k k'), Exk. reflexivity.
      * exact IH.
Qed.

(** The files of one folder of the walk. *)
Lemma add_files_get (V : Vault) (root : str) (files : list str) (d : dict)
    (k : str) :
  dict_get
    (fold_left (fun d filename => dict_set d filename
                                    (stored_path V root filename))
       files d) k
  = if existsb (str_eqb k) files then Some (stored_path V root k)
    else dict_get d k.
Proof.
  revert d. induction files as [|f files IH]; intros d; [reflexivity|].
  cbn [fold_left existsb]. rewrite IH, dict_get_set.
  destruct (existsb (str_eqb k) files); [now rewrite orb_true_r|].
  rewrite orb_false_r. destruct (str_eqb f k) eqn:Efk.
  - apply str_eqb_eq in Efk. subst f. now rewrite str_eqb_refl.
  - destruct (str_eqb k f) eqn:Ekf; [|reflexivity].
    apply str_eqb_eq in Ekf. subst f. now rewrite str_eqb_refl in Efk.
Qed.

Lemma walk_get (V : Vault) (pairs : list (str * list str)) (d : dict)
    (k : str) :
  (forall root files, In (root, files) pairs -> ~ In k files) ->
  dict_get
    (fold_left
       (fun d root_files =>
          fold_left (fun d filename => dict_set d filename
                                         (stored_path V (fst root_files)
                                            filename))
            (snd root_files) d) pairs d) k
  = dict_get d k.
Proof.
  revert d. induction pairs as [|[root files] pairs IH]; intros d H;
    [reflexivity|].
  cbn [fold_left]. rewrite IH.
  - cbn [fst snd]. rewrite (add_files_get V root files d k).
    destruct (existsb (str_eqb k) files) eqn:Ex; [|reflexivity].
    apply existsb_str_eqb_in in Ex.
    now destruct (H root files (or_introl eq_refl)).
  - intros r f Hin. apply (H r f). now right.
Qed.

(** X16 -- The attachment dictionary.  With a folder configured,
    [_build_attachment_dict] walks that folder under the vault: a file
    name that the walk does not meet is not in the dictionary, and a
    name it meets is mapped to the path of the file of that name it
    meets last. *)
Theorem attachment_dict_lookup (V : Vault) (folder : str) :
  AttachmentManager._extract_attachment_folder_path V
  = Done (JString folder) ->
  folder <> [] ->
  exists d,
    AttachmentManager._build_attachment_dict V = Done d
    /\ (forall filename,
          (forall root files,
             In (root, files) (walk V (path_join (vault_path V) folder)) ->
             ~ In filename files) ->
          dict_get d filename = None)
    /\ (forall before root files after filename,
          walk V (path_join (vault_path V) folder)
          = before ++ (root, files) :: after ->
          In filename files ->
          (forall r f, In (r, f) after -> ~ In filename f) ->
          dict_get d filename
          = Some (relpath V (path_join root filename) (vault_path V))).
Proof.
  intros Hcfg Hne. unfold AttachmentManager._build_attachment_dict.
  rewrite Hcfg. destruct folder as [|c folder]; [congruence|].
  cbn [truthy negb]. eexists. split; [reflexivity|]. split.
  - intros filename H.
    exact (walk_get V _ [] filename H).
  - intros before root files after filename Hw Hin Hafter.
    rewrite Hw, fold_left_app. cbn [fold_left].
    rewrite (walk_get V after _ filename Hafter). cbn [fst snd].
    rewrite (add_files_get V root files _ filename).
    apply existsb_str_eqb_in in Hin. now rewrite Hin.
Qed.

Lemma attachment_dict_lookup_witness :
  exists d,
    AttachmentManager._build_attachment_dict
      {| vault_path := lit "/v";
         app_json :=
           Loaded (JObject [(lit "attachmentFolderPath",
                             JString (lit "att"))]);
         walk := fun _ => [(lit "/v/att", [lit "a.png"]);
                           (lit "/v/att/old", [lit "a.png"])];
         relpath := fun path start => skipn 3 path;
         read_bytes := fun _ => None |} = Done d
    /\ dict_get d (lit "a.png") = Some (lit "att/old/a.png").
Proof.
  destruct (attachment_dict_lookup
              {| vault_path := lit "/v";
                 app_json :=
                   Loaded (JObject [(lit "attachmentFolderPath",
                                     JString (lit "att"))]);
                 walk := fun _ => [(lit "/v/att", [lit "a.png"]);
                                   (lit "/v/att/old", [lit "a.png"])];
                 relpath := fun path start => skipn 3 path;
                 read_bytes := fun _ => None |}
              (lit "att") eq_refl ltac:(discriminate))
    as (d & Hd & _ & H).
  exists d. split; [exact Hd|].
  refine (H [(lit "/v/att", [lit "a.png"])] (lit "/v/att/old")
            [lit "a.png"] [] (lit "a.png") eq_refl _ _).
  - now left.
  - intros r f [].
Defined.

(** X17 -- A vault without attachment folder.  When the configuration
    file is missing or is not JSON, or is an object without the folder
    setting or with one that counts as false (the empty text among
    them), the dictionary is empty and no file name resolves; and when
    it is JSON but not an object, or the setting is something that
    counts as true and is not a text, the first look-up raises and the
    cache stays empty. *)
Theorem attachment_folder_unset (V : Vault) (filename : str) :
  (app_json V = NotFound \/ app_json V = NotJson
   \/ (exists members,
         app_json V = Loaded (JObject members)
         /\ forall e,
              find (fun e => str_eqb (fst e) (lit "attachmentFolderPath"))
                members = Some e ->
              truthy (snd e) = false) ->
   AttachmentManager.get_file_base64_content V None filename
   = (Done None, Some []))
  /\ (forall v, app_json V = Loaded v ->
                (forall members, v <> JObject members) ->
      AttachmentManager.get_file_base64_content V None filename
      = (Fail AttributeError, None))
  /\ (forall members e,
        app_json V = Loaded (JObject members) ->
        find (fun e => str_eqb (fst e) (lit "attachmentFolderPath"))
          members = Some e ->
        truthy (snd e) = true ->
        (forall s, snd e <> JString s) ->
        AttachmentManager.get_file_base64_content V None filename
        = (Fail PathTypeError, None)).
Proof.
  unfold AttachmentManager.get_file_base64_content,
    AttachmentManager.attachment_dict,
    AttachmentManager._build_attachment_dict,
    AttachmentManager._extract_attachment_folder_path.
  split; [|split].
  - intros [-> | [-> | (members & -> & H)]]; try reflexivity.
    destruct (find _ members) as [e|]; [|reflexivity].
    now rewrite (H e eq_refl).
  - intros v -> Hv. destruct v; try reflexivity.
    now destruct (Hv members).
  - intros members e -> -> Ht Hs. rewrite Ht. cbn [negb].
    destruct (snd e) eqn:Ev; try reflexivity.
    now destruct (Hs s).
Qed.

Lemma attachment_folder_unset_witness :
  AttachmentManager.get_file_base64_content
    {| vault_path := lit "/v";
       app_json := Loaded (JObject [(lit "attachmentFolderPath",
                                     JString [])]);
       walk := fun _ => [(lit "/v", [lit "a.png"])];
       relpath := fun path start => path;
       read_bytes := fun _ => Some [65%Z] |} None (lit "a.png")
  = (Done None, Some []).
Proof.
  refine (proj1 (attachment_folder_unset _ (lit "a.png")) _).
  right. right. eexists. split; [reflexivity|].
  intros e H. injection H as <-. reflexivity.
Defined.

(** X18 -- The dictionary is built once.  The first look-up that builds
    the dictionary caches it; every later look-up answers from that
    dictionary, whatever the vault holds by then: it reads the file at
    the cached path, and gives nothing for a name that was not there at
    the first look-up.  A look-up that raises leaves the cache empty. *)
Theorem attachment_dict_cached (V V' : Vault) (cache : option dict)
    (r : outcome dict) :
  AttachmentManager.attachment_dict V None = (r, cache) ->
  match r with
  | Done d =>
      cache = Some d
      /\ AttachmentManager.attachment_dict V' cache = (Done d, cache)
      /\ forall filename,
           AttachmentManager.get_file_base64_content V' cache filename
           = (Done (resolver V' d filename), cache)
  | Fail _ => cache = None
  end.
Proof.
  unfold AttachmentManager.attachment_dict.
  destruct (AttachmentManager._build_attachment_dict V) as [d|e];
    intros H; injection H as <- <-; [|reflexivity].
  split; [reflexivity|]. split; [reflexivity|].
  intros filename.
  unfold AttachmentManager.get_file_base64_content,
    AttachmentManager.attachment_dict, resolver.
  destruct (dict_get d filename) as [rel|]; [|reflexivity].
  now destruct (read_bytes V' _).
Qed.

Lemma attachment_dict_cached_witness :
  AttachmentManager.get_file_base64_content
    {| vault_path := lit "/v"; app_json := NotFound;
       walk := fun _ => [(lit "/v/att", [lit "new.png"])];
       relpath := fun path start => path;
       read_bytes := fun _ => Some [65%Z] |}
    (Some [(lit "a.png", lit "att/a.png")]) (lit "new.png")
  = (Done None, Some [(lit "a.png", lit "att/a.png")]).
Proof.
  refine (proj2 (proj2 (attachment_dict_cached
                          {| vault_path := lit "/v";
                             app_json :=
                               Loaded (JObject
                                         [(lit "attachmentFolderPath",
                                           JString (lit "att"))]);
                             walk := fun _ => [(lit "/v/att",
                                                [lit "a.png"])];
                             relpath := fun path start => skipn 3 path;
                             read_bytes := fun _ => None |}
                          _ (Some [(lit "a.png", lit "att/a.png")])
                          (Done [(lit "a.png", lit "att/a.png")]) eq_refl))
            (lit "new.png")).
Defined.

(** ** [base64.b64encode] *)

Lemma below_forall (n : nat) (P : Z -> bool) :
  forallb P (map Z.of_nat (seq 0 n)) = true ->
  forall z, (0 <= z < Z.of_nat n)%Z -> P z = true.
Proof.
  intros H z Hz. rewrite forallb_forall in H. apply H.
  rewrite in_map_iff. exists (Z.to_nat z). split; [lia|].
  apply in_seq. lia.
Qed.

Lemma list_ind3 (A : Type) (P : list A -> Prop) :
  P [] -> (forall a, P [a]) -> (forall a b, P [a; b]) ->
  (forall a b c l, P l -> P (a :: b :: c :: l)) ->
  forall l, P l.
Proof.
  intros H0 H1 H2 H3 l.
  assert (H : P l /\ (forall a, P (a :: l)) /\ forall a b, P (a :: b :: l)).
  { induction l as [|x l (IH0 & IH1 & IH2)]; [auto|].
    split; [apply IH1|]. split; [intros a; apply IH2|].
    intros a b. apply H3. exact IH0. }
  apply H.
Qed.

Local Open Scope Z_scope.

Lemma b64_index_char (i : Z) :
  0 <= i < 64 ->
  b64_index (b64_char i) = i /\ chr_eqb (b64_char i) 61%N = false
  /\ In (b64_char i) b64_alphabet.
Proof.
  intros Hi.
  assert (H : (Z.eqb (b64_index (b64_char i)) i
               && negb (chr_eqb (b64_char i) 61%N)
               && existsb (chr_eqb (b64_char i)) b64_alphabet)%bool = true).
  { apply (below_forall 64
             (fun i => (Z.eqb (b64_index (b64_char i)) i
                        && negb (chr_eqb (b64_char i) 61%N)
                        && existsb (chr_eqb (b64_char i)) b64_alphabet)%bool));
      [vm_compute; reflexivity|exact Hi]. }
  apply andb_true_iff in H as [H H3]. apply andb_true_iff in H as [H1 H2].
  split; [now apply Z.eqb_eq|]. split; [now apply negb_true_iff|].
  apply existsb_exists in H3 as (x & Hx & Ex).
  apply chr_eqb_eq in Ex. now rewrite Ex.
Qed.

Lemma lor_16 (x y : Z) :
  0 <= x < 4 -> 0 <= y < 16 -> Z.lor (Z.shiftl x 4) y = 16 * x + y.
Proof.
  intros Hx Hy.
  assert (H : forallb (fun y => Z.eqb (Z.lor (Z.shiftl x 4) y) (16 * x + y))
                (map Z.of_nat (seq 0 16)) = true).
  { apply (below_forall 4
             (fun x => forallb
                         (fun y => Z.eqb (Z.lor (Z.shiftl x 4) y)
                                     (16 * x + y))
                         (map Z.of_nat (seq 0 16))));
      [vm_compute; reflexivity|exact Hx]. }
  apply Z.eqb_eq.
  exact (below_forall 16 _ H y Hy).
Qed.

Lemma lor_4 (x y : Z) :
  0 <= x < 16 -> 0 <= y < 4 -> Z.lor (Z.shiftl x 2) y = 4 * x + y.
Proof.
  intros Hx Hy.
  assert (H : forallb (fun y => Z.eqb (Z.lor (Z.shiftl x 2) y) (4 * x + y))
                (map Z.of_nat (seq 0 4)) = true).
  { apply (below_forall 16
             (fun x => forallb
                         (fun y => Z.eqb (Z.lor (Z.shiftl x 2) y)
                                     (4 * x + y))
                         (map Z.of_nat (seq 0 4))));
      [vm_compute; reflexivity|exact Hx]. }
  apply Z.eqb_eq.
  exact (below_forall 4 _ H y Hy).
Qed.

(** The four sextets of three bytes. *)
Lemma sextets (a b c : Z) :
  byte_ok a -> byte_ok b -> byte_ok c ->
  Z.shiftr a 2 = a / 4
  /\ Z.shiftl (Z.land a 3) 4 = 16 * (a mod 4)
  /\ Z.lor (Z.shiftl (Z.land a 3) 4) (Z.shiftr b 4) = 16 * (a mod 4) + b / 16
  /\ Z.shiftl (Z.land b 15) 2 = 4 * (b mod 16)
  /\ Z.lor (Z.shiftl (Z.land b 15) 2) (Z.shiftr c 6) = 4 * (b mod 16) + c / 64
  /\ Z.land c 63 = c mod 64.
Proof.
  unfold byte_ok. intros Ha Hb Hc.
  assert (S2 : Z.shiftr a 2 = a / 4)
    by (rewrite Z.shiftr_div_pow2; [reflexivity|lia]).
  assert (S4 : Z.shiftr b 4 = b / 16)
    by (rewrite Z.shiftr_div_pow2; [reflexivity|lia]).
  assert (S6 : Z.shiftr c 6 = c / 64)
    by (rewrite Z.shiftr_div_pow2; [reflexivity|lia]).
  assert (L3 : Z.land a 3 = a mod 4)
    by (change 3 with (Z.ones 2); rewrite Z.land_ones; [reflexivity|lia]).
  assert (L15 : Z.land b 15 = b mod 16)
    by (change 15 with (Z.ones 4); rewrite Z.land_ones; [reflexivity|lia]).
  assert (L63 : Z.land c 63 = c mod 64)
    by (change 63 with (Z.ones 6); rewrite Z.land_ones; [reflexivity|lia]).
  rewrite S2, S4, S6, L3, L15, L63.
  pose proof (Z.mod_pos_bound a 4 ltac:(lia)).
  pose proof (Z.mod_pos_bound b 16 ltac:(lia)).
  assert (0 <= b / 16 < 16)
    by (split; [apply Z.div_pos; lia|apply Z.div_lt_upper_bound; lia]).
  assert (0 <= c / 64 < 4)
    by (split; [apply Z.div_pos; lia|apply Z.div_lt_upper_bound; lia]).
  repeat split.
  - rewrite Z.shiftl_mul_pow2 by lia. change (2 ^ 4) with 16. lia.
  - now apply lor_16.
  - rewrite Z.shiftl_mul_pow2 by lia. change (2 ^ 2) with 4. lia.
  - now apply lor_4.
Qed.

Lemma sextet_bounds (a b c : Z) :
  byte_ok a -> byte_ok b -> byte_ok c ->
  0 <= a / 4 < 64 /\ 0 <= 16 * (a mod 4) < 64
  /\ 0 <= 16 * (a mod 4) + b / 16 < 64
  /\ 0 <= 4 * (b mod 16) < 64 /\ 0 <= 4 * (b mod 16) + c / 64 < 64
  /\ 0 <= c mod 64 < 64.
Proof.
  unfold byte_ok. intros Ha Hb Hc.
  pose proof (Z.mod_pos_bound a 4 ltac:(lia)).
  pose proof (Z.mod_pos_bound b 16 ltac:(lia)).
  pose proof (Z.mod_pos_bound c 64 ltac:(lia)).
  assert (0 <= a / 4 < 64)
    by (split; [apply Z.div_pos; lia|apply Z.div_lt_upper_bound; lia]).
  assert (0 <= b / 16 < 16)
    by (split; [apply Z.div_pos; lia|apply Z.div_lt_upper_bound; lia]).
  assert (0 <= c / 64 < 4)
    by (split; [apply Z.div_pos; lia|apply Z.div_lt_upper_bound; lia]).
  lia.
Qed.

Lemma byte_0 : byte_ok 0.
Proof. unfold byte_ok. lia. Qed.

(** X19 -- The content of an upload.  The text [b64encode] gives for the
    bytes of a file reads back as those bytes; so two files with the
    same encoding are the same, and only the empty file has the empty
    encoding. *)
Theorem b64encode_round_trip (bs : list byte) :
  Forall byte_ok bs ->
  b64decode (b64encode bs) = bs
  /\ (forall bs', Forall byte_ok bs' -> b64encode bs' = b64encode bs ->
                  b64decode (b64encode bs') = bs' -> bs' = bs)
  /\ (b64encode bs = [] <-> bs = []).
Proof.
  intros Hbs.
  assert (Hrt : b64decode (b64encode bs) = bs).
  { revert Hbs. pattern bs. apply list_ind3; clear bs.
    - reflexivity.
    - intros a Ha. apply Forall_inv in Ha.
      destruct (sextets a 0 0 Ha byte_0 byte_0) as (E0 & E1 & _).
      destruct (sextet_bounds a 0 0 Ha byte_0 byte_0) as (B0 & B1 & _).
      cbn [b64encode b64decode]. rewrite E0, E1.
      destruct (b64_index_char _ B0) as (I0 & _).
      destruct (b64_index_char _ B1) as (I1 & _).
      rewrite I0, I1. cbn [chr_eqb]. rewrite N.eqb_refl.
      f_equal. unfold byte_ok in Ha. Z.div_mod_to_equations. lia.
    - intros a b Hab. pose proof (Forall_inv Hab) as Ha.
      pose proof (Forall_inv (Forall_inv_tail Hab)) as Hb.
      destruct (sextets a b 0 Ha Hb byte_0) as (E0 & _ & E1 & E2 & _).
      destruct (sextet_bounds a b 0 Ha Hb byte_0) as (B0 & _ & B1 & B2 & _).
      cbn [b64encode b64decode]. rewrite E0, E1, E2.
      destruct (b64_index_char _ B0) as (I0 & _).
      destruct (b64_index_char _ B1) as (I1 & _).
      destruct (b64_index_char _ B2) as (I2 & N2 & _).
      rewrite I0, I1, I2, N2. cbn [chr_eqb]. rewrite N.eqb_refl.
      unfold byte_ok in Ha, Hb.
      repeat f_equal; Z.div_mod_to_equations; lia.
    - intros a b c l IH Hl. pose proof (Forall_inv Hl) as Ha.
      pose proof (Forall_inv (Forall_inv_tail Hl)) as Hb.
      pose proof (Forall_inv (Forall_inv_tail (Forall_inv_tail Hl))) as Hc.
      pose proof (Forall_inv_tail (Forall_inv_tail (Forall_inv_tail Hl)))
        as Hl'.
      destruct (sextets a b c Ha Hb Hc) as (E0 & _ & E1 & _ & E2 & E3).
      destruct (sextet_bounds a b c Ha Hb Hc)
        as (B0 & _ & B1 & _ & B2 & B3).
      cbn [b64encode b64decode]. rewrite E0, E1, E2, E3.
      destruct (b64_index_char _ B0) as (I0 & _).
      destruct (b64_index_char _ B1) as (I1 & _).
      destruct (b64_index_char _ B2) as (I2 & N2 & _).
      destruct (b64_index_char _ B3) as (I3 & N3 & _).
      rewrite I0, I1, I2, I3, N2, N3, (IH Hl').
      unfold byte_ok in Ha, Hb, Hc.
      repeat f_equal; Z.div_mod_to_equations; lia. }
  split; [exact Hrt|]. split.
  - intros bs' _ He Hrt'. rewrite <- Hrt, <- Hrt'. now rewrite He.
  - split; [|now intros ->].
    intros He. rewrite <- Hrt, He. reflexivity.
Qed.

Lemma b64encode_round_trip_witness :
  b64decode (b64encode [65; 66; 67; 255]) = [65; 66; 67; 255].
Proof.
  refine (proj1 (b64encode_round_trip [65; 66; 67; 255] _)).
  repeat (apply Forall_cons; [unfold byte_ok; lia|]). apply Forall_nil.
Defined.

Local Close Scope Z_scope.

(** X20 -- The shape of an upload.  The encoding of [n] bytes has four
    characters for every three bytes begun, all of the base64 alphabet
    or the padding [=]. *)
Theorem b64encode_shape (bs : list byte) :
  Forall byte_ok bs ->
  length (b64encode bs) = 4 * ((length bs + 2) / 3)
  /\ Forall (fun c => In c b64_alphabet \/ c = 61%N) (b64encode bs).
Proof.
  pattern bs. apply list_ind3; clear bs.
  - intros _. split; [reflexivity|apply Forall_nil].
  - intros a Ha. apply Forall_inv in Ha.
    destruct (sextets a 0%Z 0%Z Ha byte_0 byte_0) as (E0 & E1 & _).
    destruct (sextet_bounds a 0%Z 0%Z Ha byte_0 byte_0) as (B0 & B1 & _).
    cbn [b64encode]. rewrite E0, E1. split; [reflexivity|].
    repeat (apply Forall_cons;
            [lazymatch goal with
             | |- _ \/ 61%N = 61%N => right; reflexivity
             | _ => left; now apply b64_index_char
             end|]).
    apply Forall_nil.
  - intros a b Hab. pose proof (Forall_inv Hab) as Ha.
    pose proof (Forall_inv (Forall_inv_tail Hab)) as Hb.
    destruct (sextets a b 0%Z Ha Hb byte_0) as (E0 & _ & E1 & E2 & _).
    destruct (sextet_bounds a b 0%Z Ha Hb byte_0) as (B0 & _ & B1 & B2 & _).
    cbn [b64encode]. rewrite E0, E1, E2. split; [reflexivity|].
    repeat (apply Forall_cons;
            [lazymatch goal with
             | |- _ \/ 61%N = 61%N => right; reflexivity
             | _ => left; now apply b64_index_char
             end|]).
    apply Forall_nil.
  - intros a b c l IH Hl. pose proof (Forall_inv Hl) as Ha.
    pose proof (Forall_inv (Forall_inv_tail Hl)) as Hb.
    pose proof (Forall_inv (Forall_inv_tail (Forall_inv_tail Hl))) as Hc.
    pose proof (Forall_inv_tail (Forall_inv_tail (Forall_inv_tail Hl)))
      as Hl'.
    destruct (IH Hl') as (IHlen & IHall).
    destruct (sextets a b c Ha Hb Hc) as (E0 & _ & E1 & _ & E2 & E3).
    destruct (sextet_bounds a b c Ha Hb Hc) as (B0 & _ & B1 & _ & B2 & B3).
    cbn [b64encode]. rewrite E0, E1, E2, E3. split.
    + cbn [length]. rewrite IHlen.
      replace (S (S (S (length l))) + 2) with ((length l + 2) + 1 * 3)
        by lia.
      rewrite Nat.div_add by discriminate. lia.
    + repeat (apply Forall_cons; [left; now apply b64_index_char|]).
      exact IHall.
Qed.

Lemma b64encode_shape_witness :
  length (b64encode [65; 66; 67; 255]%Z) = 8.
Proof.
  refine (proj1 (b64encode_shape [65; 66; 67; 255]%Z _)).
  repeat (apply Forall_cons; [unfold byte_ok; lia|]). apply Forall_nil.
Defined.

(** ** The model of the library calls of the attachment manager, on values
    computed by CPython 3.11 *)

Example b64encode_values :
  b64encode [65; 66; 67; 255]%Z = lit "QUJD/w=="
  /\ b64encode [104; 105]%Z = lit "aGk="
  /\ b64encode [251; 255; 191]%Z = lit "+/+/"
  /\ b64encode [] = [].
Proof. repeat split; vm_compute; reflexivity. Qed.

Example path_join_values :
  path_join (lit "/v") (lit "att") = lit "/v/att"
  /\ path_join (lit "/v/") (lit "att") = lit "/v/att"
  /\ path_join (lit "/v") (lit "/abs") = lit "/abs"
  /\ path_join [] (lit "att") = lit "att"
  /\ path_join (lit "/v") [] = lit "/v/".
Proof. repeat split; vm_compute; reflexivity. Qed.

Example basename_values :
  AnkiConnect.basename (lit "img/a.png") = lit "a.png"
  /\ AnkiConnect.basename (lit "img/") = []
  /\ AnkiConnect.basename (lit "/x//y") = lit "y".
Proof. repeat split; vm_compute; reflexivity. Qed.

Lemma b64encode_nonempty (b : byte) (bs : list byte) :
  exists c cs, b64encode (b :: bs) = c :: cs.
Proof. destruct bs as [|b1 [|b2 l]]; cbn [b64encode]; eauto. Qed.

Lemma lookup_cached (V : Vault) (d : dict) (filename : str) :
  AttachmentManager.get_file_base64_content V (Some d) filename
  = (Done (resolver V d filename), Some d).
Proof.
  unfold AttachmentManager.get_file_base64_content,
    AttachmentManager.attachment_dict, resolver.
  destruct (dict_get d filename) as [rel|]; [|reflexivity].
  now destruct (read_bytes V _).
Qed.

Lemma upload_resolved (E : Env) (V : Vault) (d : dict) (media : str)
    (req : request) :
  attachment E media = resolver V d media ->
  In req (upload E media)
  <-> exists relative b bs,
        dict_get d media = Some relative
        /\ read_bytes V (path_join (vault_path V) relative) = Some (b :: bs)
        /\ req = storeMediaFile (AnkiConnect.basename media)
                   (b64encode (b :: bs)).
Proof.
  intros HE. unfold upload. rewrite HE. unfold resolver.
  destruct (dict_get d media) as [rel|].
  - destruct (read_bytes V (path_join (vault_path V) rel)) as [[|b bs]|]
      eqn:Eb; cbn [option_map].
    + cbn [b64encode]. split; [intros []|].
      intros (r & b & bs & Hr & Hb & _). injection Hr as Hr. subst r.
      rewrite Eb in Hb. discriminate.
    + destruct (b64encode_nonempty b bs) as (c & cs & Hc). rewrite Hc.
      split.
      * intros [<- | []]. exists rel, b, bs. now rewrite Hc.
      * intros (r & b' & bs' & Hr & Hb & ->). injection Hr as Hr. subst r.
        rewrite Eb in Hb. injection Hb as <- <-. rewrite Hc. now left.
    + split; [intros []|].
      intros (r & b & bs & Hr & Hb & _). injection Hr as Hr. subst r.
      rewrite Eb in Hb. discriminate.
  - split; [intros []|].
    intros (r & b & bs & Hr & _). discriminate.
Qed.

(** X21 -- Which attachments are uploaded.  Let the resolver of the run
    be a manager whose dictionary is built.  When [sync_medias] returns,
    the requests it has posted are exactly the uploads of the media names
    of the cards that are keys of the dictionary and whose file, at the
    path of the dictionary, is read and is not empty, each with the base
    name and the encoding of the bytes of the file: a name that is not in
    the dictionary, a file that cannot be read and an empty file are
    passed over. *)
Theorem resolved_uploads (E : Env) (V : Vault) (d : dict)
    (cards : list Flashcard) (w w' : World) :
  (forall m,
     fst (AttachmentManager.get_file_base64_content V (Some d) m)
     = Done (attachment E m)) ->
  CardMarker.sync_medias E cards w = (Ok tt, w') ->
  exists reqs,
    posted w' = posted w ++ reqs
    /\ forall req,
         In req reqs
         <-> exists media relative b bs,
               (exists c, In c cards /\ In media (medias c))
               /\ dict_get d media = Some relative
               /\ read_bytes V (path_join (vault_path V) relative)
                  = Some (b :: bs)
               /\ req = storeMediaFile (AnkiConnect.basename media)
                          (b64encode (b :: bs)).
Proof.
  intros HE H.
  assert (HE' : forall m, attachment E m = resolver V d m).
  { intros m. specialize (HE m). rewrite lookup_cached in HE.
    cbn [fst] in HE. now injection HE as ->. }
  destruct (sync_medias_step E [] [] cards w w' _ H) as (_ & reqs & P & _ & R).
  destruct (all_medias cards [] (NoDup_nil _)) as (_ & I).
  exists reqs. split; [exact P|]. intros req. rewrite R, in_flat_map. split.
  - intros (media & Hm & Hreq).
    apply (upload_resolved E V d media req (HE' media)) in Hreq
      as (rel & b & bs & Hd & Hb & ->).
    exists media, rel, b, bs. split; [|auto].
    apply I in Hm as [[]|Hc]. exact Hc.
  - intros (media & rel & b & bs & Hc & Hd & Hb & ->).
    exists media. split; [apply I; now right|].
    apply (upload_resolved E V d media _ (HE' media)).
    now exists rel, b, bs.
Qed.

Lemma resolved_uploads_witness :
  exists reqs,
    posted
      (snd (CardMarker.sync_medias
              {| markdown := fun s => s; server := obliging_server;
                 attachment :=
                   resolver
                     {| vault_path := lit "/v"; app_json := NotFound;
                        walk := fun _ => [];
                        relpath := fun path start => path;
                        read_bytes := fun _ => Some [104; 105]%Z |}
                     [(lit "a.png", lit "att/a.png")] |}
              [Flashcard.analyze demo_env
                 (Flashcard.init (lit "![[a.png]]") (lit "![[b.png]]"))]
              (mkWorld [] [])))
    = [] ++ reqs
    /\ In (storeMediaFile (lit "a.png") (lit "aGk=")) reqs.
Proof.
  destruct (resolved_uploads
              {| markdown := fun s => s; server := obliging_server;
                 attachment :=
                   resolver
                     {| vault_path := lit "/v"; app_json := NotFound;
                        walk := fun _ => [];
                        relpath := fun path start => path;
                        read_bytes := fun _ => Some [104; 105]%Z |}
                     [(lit "a.png", lit "att/a.png")] |}
              {| vault_path := lit "/v"; app_json := NotFound;
                 walk := fun _ => [];
                 relpath := fun path start => path;
                 read_bytes := fun _ => Some [104; 105]%Z |}
              [(lit "a.png", lit "att/a.png")]
              [Flashcard.analyze demo_env
                 (Flashcard.init (lit "![[a.png]]") (lit "![[b.png]]"))]
              (mkWorld [] []) _
              (fun m => f_equal fst (lookup_cached _ _ m))
              (surjective_pairing _))
    as (reqs & P & I).
  exists reqs. split; [exact P|]. apply I.
  exists (lit "a.png"), (lit "att/a.png"), 104%Z, [105%Z].
  split; [|repeat split].
  eexists. split; [now left|]. vm_compute. now left.
Defined.

(** ** The register of the CRC moves one-to-one *)

Local Open Scope Z_scope.

Lemma word_bit_32 (a : Z) : word a -> Z.testbit a 32 = false.
Proof.
  unfold word. intros [H0 H1].
  destruct (Z.eq_dec a 0) as [->|Hn]; [apply Z.bits_0|].
  apply Z.bits_above_log2; [exact H0|].
  apply Z.log2_lt_pow2; lia.
Qed.

Lemma crc_shift_top (a : Z) :
  word a -> Z.testbit (crc_shift a) 31 = Z.testbit a 0.
Proof.
  intros Ha. unfold crc_shift.
  destruct (Z.testbit a 0) eqn:E.
  - rewrite Z.lxor_spec, Z.shiftr_spec by lia.
    change (31 + 1) with 32. now rewrite word_bit_32.
  - rewrite Z.shiftr_spec by lia.
    change (31 + 1) with 32. now apply word_bit_32.
Qed.

Lemma lxor_cancel_r (a b c : Z) : Z.lxor a c = Z.lxor b c -> a = b.
Proof.
  intros H. apply (f_equal (fun x => Z.lxor x c)) in H.
  now rewrite !Z.lxor_assoc, Z.lxor_nilpotent, !Z.lxor_0_r in H.
Qed.

Lemma lxor_cancel_l (a b c : Z) : Z.lxor c a = Z.lxor c b -> a = b.
Proof.
  rewrite (Z.lxor_comm c a), (Z.lxor_comm c b). apply lxor_cancel_r.
Qed.

Lemma crc_shift_inj (a b : Z) :
  word a -> word b -> crc_shift a = crc_shift b -> a = b.
Proof.
  intros Ha Hb H.
  assert (H0 : Z.testbit a 0 = Z.testbit b 0).
  { rewrite <- (crc_shift_top a Ha), <- (crc_shift_top b Hb). now rewrite H. }
  assert (Hs : Z.shiftr a 1 = Z.shiftr b 1).
  { unfold crc_shift in H. rewrite <- H0 in H.
    destruct (Z.testbit a 0); [now apply lxor_cancel_r in H|exact H]. }
  apply Z.bits_inj'. intros n Hn.
  destruct (Z.eq_dec n 0) as [->|Hpos]; [exact H0|].
  replace n with ((n - 1) + 1) by lia.
  rewrite <- !Z.shiftr_spec by lia. now rewrite Hs.
Qed.

Lemma iter_crc_shift_word (n : nat) (a : Z) :
  word a -> word (Nat.iter n crc_shift a).
Proof.
  intros Ha. induction n as [|n IH]; [exact Ha|].
  cbn [Nat.iter]. now apply crc_shift_word.
Qed.

Lemma iter_crc_shift_inj (n : nat) (a b : Z) :
  word a -> word b ->
  Nat.iter n crc_shift a = Nat.iter n crc_shift b -> a = b.
Proof.
  intros Ha Hb. induction n as [|n IH]; [auto|].
  cbn [Nat.iter]. intros H. apply IH.
  apply crc_shift_inj; auto using iter_crc_shift_word.
Qed.

Lemma land_255_word (b : Z) : word (Z.land b 255).
Proof.
  unfold word. change 255 with (Z.ones 8). rewrite Z.land_ones by lia.
  pose proof (Z.mod_pos_bound b (2 ^ 8)). lia.
Qed.

Lemma crc_byte_inj_state (a b x : Z) :
  word a -> word b -> crc_byte a x = crc_byte b x -> a = b.
Proof.
  intros Ha Hb H. unfold crc_byte in H.
  apply iter_crc_shift_inj in H;
    [|apply lxor_word; auto using land_255_word ..].
  now apply lxor_cancel_r in H.
Qed.

Lemma crc_fold_word (bs : list byte) (a : Z) :
  word a -> word (fold_left crc_byte bs a).
Proof.
  revert a. induction bs as [|b bs IH]; intros a Ha; [exact Ha|].
  cbn [fold_left]. apply IH. now apply crc_byte_word.
Qed.

Lemma crc_fold_inj (bs : list byte) (a b : Z) :
  word a -> word b ->
  fold_left crc_byte bs a = fold_left crc_byte bs b -> a = b.
Proof.
  revert a b. induction bs as [|x bs IH]; intros a b Ha Hb H; [exact H|].
  cbn [fold_left] in H.
  apply IH in H; auto using crc_byte_word.
  now apply crc_byte_inj_state in H.
Qed.

Local Close Scope Z_scope.

Lemma encode_utf8_app (a b : str) :
  encode_utf8 (a ++ b) = encode_utf8 a ++ encode_utf8 b.
Proof. unfold encode_utf8. apply flat_map_app. Qed.

(** ** A changed window changes the CRC *)

Local Open Scope Z_scope.

Ltac bitwise :=
  apply Z.bits_inj'; intros ?n ?Hn;
  rewrite ?Z.lxor_spec, ?Z.land_spec;
  repeat match goal with
         | |- context [Z.testbit ?x ?n] =>
             destruct (Z.testbit x n)
         end; reflexivity.

Lemma lxor_swap (x y p : Z) :
  Z.lxor (Z.lxor x p) (Z.lxor y p) = Z.lxor x y.
Proof. bitwise. Qed.

Lemma lxor_mid_l (x y p : Z) : Z.lxor (Z.lxor x p) y = Z.lxor (Z.lxor x y) p.
Proof. bitwise. Qed.

Lemma lxor_mid_r (x y p : Z) : Z.lxor x (Z.lxor y p) = Z.lxor (Z.lxor x y) p.
Proof. bitwise. Qed.

(** The register moves linearly. *)
Lemma crc_shift_lxor (a b : Z) :
  crc_shift (Z.lxor a b) = Z.lxor (crc_shift a) (crc_shift b).
Proof.
  unfold crc_shift. rewrite Z.lxor_spec, Z.shiftr_lxor.
  destruct (Z.testbit a 0), (Z.testbit b 0); cbn [xorb].
  - symmetry. apply lxor_swap.
  - symmetry. apply lxor_mid_l.
  - symmetry. apply lxor_mid_r.
  - reflexivity.
Qed.

Lemma iter_crc_shift_lxor (n : nat) (a b : Z) :
  Nat.iter n crc_shift (Z.lxor a b)
  = Z.lxor (Nat.iter n crc_shift a) (Nat.iter n crc_shift b).
Proof.
  induction n as [|n IH]; [reflexivity|].
  rewrite !Nat.iter_succ. now rewrite IH, crc_shift_lxor.
Qed.

Lemma land_lxor_255 (d e : Z) :
  Z.land (Z.lxor d e) 255 = Z.lxor (Z.land d 255) (Z.land e 255).
Proof.
  apply Z.bits_inj'. intros n Hn.
  rewrite !Z.lxor_spec, !Z.land_spec, !Z.lxor_spec.
  destruct (Z.testbit d n), (Z.testbit e n), (Z.testbit 255 n); reflexivity.
Qed.

Lemma crc_byte_lxor (a b d e : Z) :
  crc_byte (Z.lxor a b) (Z.lxor d e)
  = Z.lxor (crc_byte a d) (crc_byte b e).
Proof.
  unfold crc_byte. rewrite <- iter_crc_shift_lxor. f_equal.
  rewrite land_lxor_255. bitwise.
Qed.

Lemma crc_fold_lxor (ds es : list byte) :
  length ds = length es ->
  forall a b,
    fold_left crc_byte (map (fun p => Z.lxor (fst p) (snd p)) (combine ds es))
      (Z.lxor a b)
    = Z.lxor (fold_left crc_byte ds a) (fold_left crc_byte es b).
Proof.
  revert es. induction ds as [|d ds IH]; intros [|e es] Hlen a b;
    try discriminate; [reflexivity|].
  cbn [combine map fold_left fst snd]. rewrite crc_byte_lxor.
  apply IH. now injection Hlen.
Qed.

(** Eight shifts of a register whose low byte is zero. *)
Lemma crc_shift_double (y : Z) : crc_shift (2 * y) = y.
Proof.
  unfold crc_shift. rewrite Z.testbit_even_0.
  rewrite Z.shiftr_div_pow2 by lia. change (2 ^ 1) with 2.
  rewrite Z.mul_comm. apply Z.div_mul. lia.
Qed.

Lemma iter8_high (h : Z) : Nat.iter 8 crc_shift (256 * h) = h.
Proof.
  replace (256 * h) with (2 * (2 * (2 * (2 * (2 * (2 * (2 * (2 * h))))))))
    by lia.
  unfold Nat.iter. cbn [nat_rect]. now rewrite !crc_shift_double.
Qed.

Lemma split_low_byte (y : Z) :
  0 <= y ->
  y = Z.lxor (Z.land y 255) (256 * Z.shiftr y 8).
Proof.
  intros Hy. apply Z.bits_inj'. intros n Hn.
  rewrite Z.lxor_spec, Z.land_spec.
  change 255 with (Z.ones 8). change 256 with (2 ^ 8).
  rewrite Z.mul_comm, <- Z.shiftl_mul_pow2 by lia.
  destruct (Z.lt_ge_cases n 8) as [Hlt|Hge].
  - rewrite Z.ones_spec_low, Z.shiftl_spec_low by lia.
    now rewrite andb_true_r, xorb_false_r.
  - rewrite Z.ones_spec_high, Z.shiftl_spec, Z.shiftr_spec by lia.
    rewrite andb_false_r, xorb_false_l. f_equal. lia.
Qed.

(** The table of the byte-wise CRC: every entry but the first is at least
    [2^24]. *)
Lemma table_big (x : Z) :
  0 < x < 256 -> 2 ^ 24 <= Nat.iter 8 crc_shift x.
Proof.
  intros Hx.
  assert (H : (Z.eqb x 0 || Z.leb (2 ^ 24) (Nat.iter 8 crc_shift x))%bool
              = true).
  { apply (below_forall 256
             (fun x => (Z.eqb x 0
                        || Z.leb (2 ^ 24) (Nat.iter 8 crc_shift x))%bool));
      [vm_compute; reflexivity|lia]. }
  apply orb_true_iff in H as [H|H]; [apply Z.eqb_eq in H; lia|].
  now apply Z.leb_le.
Qed.

Lemma land_255_bound (d : Z) : 0 <= Z.land d 255 < 256.
Proof.
  change 255 with (Z.ones 8). rewrite Z.land_ones by lia.
  apply Z.mod_pos_bound. lia.
Qed.

Lemma shiftr_small (b k : Z) : 0 <= k -> 0 <= b < 2 ^ k -> Z.shiftr b k = 0.
Proof.
  intros Hk Hb. rewrite Z.shiftr_div_pow2 by lia. now apply Z.div_small.
Qed.

(** A register at or above [2^24] stays there when a smaller value is
    added to it. *)
Lemma lxor_big (a b : Z) :
  0 <= b < 2 ^ 24 -> 2 ^ 24 <= a -> 2 ^ 24 <= Z.lxor a b.
Proof.
  intros Hb Ha.
  assert (H0 : 0 <= Z.lxor a b) by (apply Z.lxor_nonneg; lia).
  assert (Hs : Z.shiftr (Z.lxor a b) 24 = Z.shiftr a 24).
  { rewrite Z.shiftr_lxor, (shiftr_small b 24) by lia. apply Z.lxor_0_r. }
  rewrite !Z.shiftr_div_pow2 in Hs by lia.
  assert (1 <= a / 2 ^ 24) by (apply Z.div_le_lower_bound; lia).
  destruct (Z.lt_ge_cases (Z.lxor a b) (2 ^ 24)) as [Hlt|Hge]; [|exact Hge].
  rewrite Z.div_small in Hs by lia. lia.
Qed.

(** One byte taken into a register at or above [2^k]. *)
Lemma crc_byte_big (y d k : Z) :
  word y -> 8 <= k <= 24 -> 2 ^ k <= y -> 2 ^ (k - 8) <= crc_byte y d.
Proof.
  intros Hy Hk Hbig. unfold crc_byte.
  pose proof (land_255_bound d) as Hd.
  set (z := Z.lxor y (Z.land d 255)).
  assert (Hz : word z) by (apply lxor_word; [exact Hy|apply land_255_word]).
  assert (Hhi : Z.shiftr z 8 = Z.shiftr y 8).
  { unfold z. rewrite Z.shiftr_lxor, (shiftr_small (Z.land d 255) 8) by
      (change (2 ^ 8) with 256; lia).
    apply Z.lxor_0_r. }
  rewrite (split_low_byte z) by (unfold word in Hz; lia).
  rewrite iter_crc_shift_lxor, iter8_high, Hhi.
  unfold word in Hy.
  assert (Hy8 : 2 ^ (k - 8) <= Z.shiftr y 8 < 2 ^ 24).
  { rewrite Z.shiftr_div_pow2 by lia. split.
    - apply Z.div_le_lower_bound; [lia|].
      rewrite <- Z.pow_add_r by lia. replace (8 + (k - 8)) with k by lia.
      exact Hbig.
    - apply Z.div_lt_upper_bound; [lia|].
      change (2 ^ 8 * 2 ^ 24) with (2 ^ 32). lia. }
  pose proof (land_255_bound z) as Hlo.
  destruct (Z.eq_dec (Z.land z 255) 0) as [E0|Hn0].
  - rewrite E0. change (Nat.iter 8 crc_shift 0) with 0.
    rewrite Z.lxor_0_l. lia.
  - assert (Ht : 2 ^ 24 <= Nat.iter 8 crc_shift (Z.land z 255))
      by (apply table_big; lia).
    assert (2 ^ 24 <= Z.lxor (Nat.iter 8 crc_shift (Z.land z 255))
                        (Z.shiftr y 8)).
    { apply lxor_big; [|exact Ht].
      assert (0 <= 2 ^ (k - 8)) by (apply Z.pow_nonneg; lia). lia. }
    assert (2 ^ (k - 8) <= 2 ^ 24) by (apply Z.pow_le_mono_r; lia).
    lia.
Qed.

Lemma crc_fold_big (ds : list byte) :
  forall y k,
    word y -> 8 * Z.of_nat (length ds) <= k <= 24 -> 2 ^ k <= y ->
    2 ^ (k - 8 * Z.of_nat (length ds)) <= fold_left crc_byte ds y.
Proof.
  induction ds as [|d ds IH]; intros y k Hy Hk Hbig.
  - cbn [length fold_left]. now replace (k - 8 * Z.of_nat 0) with k by lia.
  - cbn [fold_left]. cbn [length] in *.
    replace (k - 8 * Z.of_nat (S (length ds)))
      with ((k - 8) - 8 * Z.of_nat (length ds)) by lia.
    apply IH.
    + now apply crc_byte_word.
    + lia.
    + apply crc_byte_big; [exact Hy|lia|exact Hbig].
Qed.

(** From the zero register, at most four bytes lead back to zero only if
    they are all zero. *)
Lemma crc_fold_zero (ds : list byte) :
  (length ds <= 4)%nat ->
  fold_left crc_byte ds 0 = 0 ->
  Forall (fun d => Z.land d 255 = 0) ds.
Proof.
  induction ds as [|d ds IH]; intros Hlen H; [constructor|].
  cbn [fold_left length] in *.
  pose proof (land_255_bound d) as Hd.
  destruct (Z.eq_dec (Z.land d 255) 0) as [E0|Hn0].
  - constructor; [exact E0|]. apply IH; [lia|].
    unfold crc_byte in H. rewrite E0 in H. exact H.
  - exfalso.
    assert (Hw : word (crc_byte 0 d))
      by (apply crc_byte_word; unfold word; lia).
    assert (Hb : 2 ^ 24 <= crc_byte 0 d).
    { unfold crc_byte. rewrite Z.lxor_0_l. apply table_big. lia. }
    pose proof (crc_fold_big ds (crc_byte 0 d) 24 Hw ltac:(lia) Hb) as Hf.
    rewrite H in Hf.
    assert (0 < 2 ^ (24 - 8 * Z.of_nat (length ds)))
      by (apply Z.pow_pos_nonneg; lia).
    lia.
Qed.

Lemma byte_lxor_zero (a b : Z) :
  byte_ok a -> byte_ok b -> Z.land (Z.lxor a b) 255 = 0 -> a = b.
Proof.
  unfold byte_ok. intros Ha Hb H. rewrite land_lxor_255 in H.
  change 255 with (Z.ones 8) in H. rewrite !Z.land_ones in H by lia.
  rewrite !Z.mod_small in H by (change (2 ^ 8) with 256; lia).
  now apply Z.lxor_eq.
Qed.

Lemma crc32_window (p q u u' : list byte) :
  length u = length u' -> (length u <= 4)%nat ->
  Forall byte_ok u -> Forall byte_ok u' -> u <> u' ->
  crc32 (p ++ u ++ q) <> crc32 (p ++ u' ++ q).
Proof.
  intros Hlen H4 Hu Hu' Hne H. apply Hne. clear Hne.
  unfold crc32 in H. apply lxor_cancel_r in H.
  rewrite !fold_left_app in H. unfold byte in *.
  assert (Hs : word (fold_left crc_byte p 4294967295))
    by (apply crc_fold_word; unfold word; lia).
  remember (fold_left crc_byte p 4294967295) as s eqn:Es in *. clear Es.
  apply crc_fold_inj in H; try (apply crc_fold_word; exact Hs).
  assert (Hz : fold_left crc_byte
                 (map (fun p => Z.lxor (fst p) (snd p)) (combine u u')) 0
               = 0).
  { pose proof (crc_fold_lxor u u' Hlen s s) as HL. unfold byte in HL.
    rewrite H in HL. rewrite !Z.lxor_nilpotent in HL. exact HL. }
  apply crc_fold_zero in Hz.
  2:{ rewrite length_map, length_combine. lia. }
  clear H Hs H4. revert u' Hlen Hu' Hz.
  induction u as [|a u IH]; intros [|b u'] Hlen Hu' Hz;
    try discriminate; [reflexivity|].
  cbn [combine map fst snd] in Hz.
  f_equal.
  - apply byte_lxor_zero;
      [exact (Forall_inv Hu)|exact (Forall_inv Hu')|exact (Forall_inv Hz)].
  - apply IH; [exact (Forall_inv_tail Hu)|now injection Hlen
               |exact (Forall_inv_tail Hu')|exact (Forall_inv_tail Hz)].
Qed.

Local Close Scope Z_scope.

(** ** The bytes of a character *)

Local Open Scope Z_scope.

Lemma lor_lead (lead n : nat) (t : Z) :
  forallb (fun t => Z.eqb (Z.lor (Z.of_nat lead) t) (Z.of_nat lead + t))
    (map Z.of_nat (seq 0 n)) = true ->
  0 <= t < Z.of_nat n -> Z.lor (Z.of_nat lead) t = Z.of_nat lead + t.
Proof.
  intros H Ht. apply Z.eqb_eq.
  exact (below_forall n _ H t Ht).
Qed.

Lemma utf8_char_bytes (c : char) :
  let z := Z.of_N c in
  utf8_char c
  = if z <? 128 then [z]
    else if z <? 2048 then [192 + z / 64; 128 + z mod 64]
    else if z <? 65536 then
      [224 + z / 4096; 128 + (z / 64) mod 64; 128 + z mod 64]
    else
      [240 + (z / 262144) mod 8; 128 + (z / 4096) mod 64;
       128 + (z / 64) mod 64; 128 + z mod 64].
Proof.
  cbv zeta. unfold utf8_char.
  assert (Hz : 0 <= Z.of_N c) by lia.
  set (z := Z.of_N c) in *.
  assert (L63 : forall a, 0 <= a -> Z.lor 128 (Z.land a 63) = 128 + a mod 64).
  { intros a Ha. change 63 with (Z.ones 6). rewrite Z.land_ones by lia.
    apply (lor_lead 128 64); [vm_compute; reflexivity|].
    apply Z.mod_pos_bound. lia. }
  assert (S6 : Z.shiftr z 6 = z / 64)
    by (rewrite Z.shiftr_div_pow2; [reflexivity|lia]).
  assert (S12 : Z.shiftr z 12 = z / 4096)
    by (rewrite Z.shiftr_div_pow2; [reflexivity|lia]).
  assert (S18 : Z.shiftr z 18 = z / 262144)
    by (rewrite Z.shiftr_div_pow2; [reflexivity|lia]).
  assert (D6 : 0 <= z / 64) by (apply Z.div_pos; lia).
  assert (D12 : 0 <= z / 4096) by (apply Z.div_pos; lia).
  destruct (z <? 128) eqn:E1; [reflexivity|].
  apply Z.ltb_ge in E1.
  destruct (z <? 2048) eqn:E2.
  - apply Z.ltb_lt in E2. rewrite S6, (L63 z Hz). f_equal.
    apply (lor_lead 192 32); [vm_compute; reflexivity|].
    split; [exact D6|apply Z.div_lt_upper_bound; lia].
  - apply Z.ltb_ge in E2. destruct (z <? 65536) eqn:E3.
    + apply Z.ltb_lt in E3. rewrite S6, S12, (L63 z Hz), (L63 _ D6).
      f_equal.
      apply (lor_lead 224 16); [vm_compute; reflexivity|].
      split; [exact D12|apply Z.div_lt_upper_bound; lia].
    + rewrite S6, S12, S18, (L63 z Hz), (L63 _ D6), (L63 _ D12). f_equal.
      change 7 with (Z.ones 3). rewrite Z.land_ones by lia.
      apply (lor_lead 240 8); [vm_compute; reflexivity|].
      apply Z.mod_pos_bound. lia.
Qed.

Lemma utf8_char_ok (c : char) :
  Forall byte_ok (utf8_char c) /\ (length (utf8_char c) <= 4)%nat.
Proof.
  rewrite utf8_char_bytes. cbv zeta.
  assert (Hz : 0 <= Z.of_N c) by lia.
  set (z := Z.of_N c) in *.
  pose proof (Z.mod_pos_bound z 64 ltac:(lia)).
  pose proof (Z.mod_pos_bound (z / 64) 64 ltac:(lia)).
  pose proof (Z.mod_pos_bound (z / 4096) 64 ltac:(lia)).
  pose proof (Z.mod_pos_bound (z / 262144) 8 ltac:(lia)).
  destruct (z <? 128) eqn:E1; [apply Z.ltb_lt in E1|apply Z.ltb_ge in E1].
  { split; [|cbn; lia]. repeat constructor; lia. }
  destruct (z <? 2048) eqn:E2; [apply Z.ltb_lt in E2|apply Z.ltb_ge in E2].
  { assert (0 <= z / 64 < 32)
      by (split; [apply Z.div_pos; lia|apply Z.div_lt_upper_bound; lia]).
    split; [|cbn; lia].
    repeat (apply Forall_cons; [unfold byte_ok; lia|]). apply Forall_nil. }
  destruct (z <? 65536) eqn:E3; [apply Z.ltb_lt in E3|apply Z.ltb_ge in E3].
  { assert (0 <= z / 4096 < 16)
      by (split; [apply Z.div_pos; lia|apply Z.div_lt_upper_bound; lia]).
    split; [|cbn; lia].
    repeat (apply Forall_cons; [unfold byte_ok; lia|]). apply Forall_nil. }
  split; [|cbn; lia].
  repeat (apply Forall_cons; [unfold byte_ok; lia|]). apply Forall_nil.
Qed.

(** Two code points with the same bytes are the same. *)
Lemma utf8_char_inj (x y : char) :
  (x < 1114112)%N -> (y < 1114112)%N ->
  utf8_char x = utf8_char y -> x = y.
Proof.
  intros Hx Hy. rewrite !utf8_char_bytes. cbv zeta.
  assert (Hzx : 0 <= Z.of_N x < 1114112) by lia.
  assert (Hzy : 0 <= Z.of_N y < 1114112) by lia.
  intros H. apply N2Z.inj.
  set (a := Z.of_N x) in *. set (b := Z.of_N y) in *.
  clearbody a b. clear Hx Hy x y.
  destruct (a <? 128) eqn:A1; [apply Z.ltb_lt in A1|apply Z.ltb_ge in A1];
    [|destruct (a <? 2048) eqn:A2;
        [apply Z.ltb_lt in A2|apply Z.ltb_ge in A2;
         destruct (a <? 65536) eqn:A3;
           [apply Z.ltb_lt in A3|apply Z.ltb_ge in A3]]];
    (destruct (b <? 128) eqn:B1; [apply Z.ltb_lt in B1|apply Z.ltb_ge in B1];
     [|destruct (b <? 2048) eqn:B2;
         [apply Z.ltb_lt in B2|apply Z.ltb_ge in B2;
          destruct (b <? 65536) eqn:B3;
            [apply Z.ltb_lt in B3|apply Z.ltb_ge in B3]]]);
    try discriminate H;
    pose proof (f_equal (fun l => nth 0 l 0) H) as H0;
    pose proof (f_equal (fun l => nth 1 l 0) H) as H1;
    pose proof (f_equal (fun l => nth 2 l 0) H) as H2;
    pose proof (f_equal (fun l => nth 3 l 0) H) as H3;
    cbn [nth] in H0, H1, H2, H3; clear H;
    Z.div_mod_to_equations; lia.
Qed.

Local Close Scope Z_scope.

(** X22 -- A changed character is seen.  Two cards whose summed texts
    (the front followed by the back without markers, stripped) differ in
    one character, exchanged for another whose UTF-8 encoding has the
    same length, have different fingerprints; and so have, in general,
    two cards whose summed bytes differ only inside a window of at most
    four bytes. *)
Theorem changed_character_changes_fingerprint (c c' : Flashcard) :
  (forall (p q : str) (x y : char),
     (x < 1114112)%N -> (y < 1114112)%N -> x <> y ->
     length (utf8_char x) = length (utf8_char y) ->
     front c ++ strip (erase (back c)) = p ++ x :: q ->
     front c' ++ strip (erase (back c')) = p ++ y :: q ->
     Flashcard._generate_card_sum c <> Flashcard._generate_card_sum c')
  /\ (forall p q u u' : list byte,
        encode_utf8 (front c ++ strip (erase (back c))) = p ++ u ++ q ->
        encode_utf8 (front c' ++ strip (erase (back c'))) = p ++ u' ++ q ->
        length u = length u' -> length u <= 4 ->
        Forall byte_ok u -> Forall byte_ok u' -> u <> u' ->
        Flashcard._generate_card_sum c <> Flashcard._generate_card_sum c').
Proof.
  assert (W : forall p q u u' : list byte,
             encode_utf8 (front c ++ strip (erase (back c))) = p ++ u ++ q ->
             encode_utf8 (front c' ++ strip (erase (back c')))
             = p ++ u' ++ q ->
             length u = length u' -> length u <= 4 ->
             Forall byte_ok u -> Forall byte_ok u' -> u <> u' ->
             Flashcard._generate_card_sum c
             <> Flashcard._generate_card_sum c').
  { intros p q u u' Hc Hc' Hlen H4 Hu Hu' Hne.
    unfold Flashcard._generate_card_sum. fold (erase (back c)).
    fold (erase (back c')). rewrite Hc, Hc'.
    now apply crc32_window. }
  split; [|exact W].
  intros p q x y Hx Hy Hne Hlen Hc Hc'.
  apply (W (encode_utf8 p) (encode_utf8 q) (utf8_char x) (utf8_char y)).
  - rewrite Hc. change (x :: q) with ([x] ++ q).
    rewrite !encode_utf8_app. unfold encode_utf8 at 2. cbn [flat_map].
    now rewrite app_nil_r.
  - rewrite Hc'. change (y :: q) with ([y] ++ q).
    rewrite !encode_utf8_app. unfold encode_utf8 at 2. cbn [flat_map].
    now rewrite app_nil_r.
  - exact Hlen.
  - apply utf8_char_ok.
  - apply utf8_char_ok.
  - apply utf8_char_ok.
  - intros H. apply Hne. now apply utf8_char_inj.
Qed.

Lemma changed_character_changes_fingerprint_witness :
  Flashcard._generate_card_sum
    (Flashcard.init ([233%N] ++ lit "t" ++ [233%N]) (lit "A<!--Meta:id=1-->"))
  <> Flashcard._generate_card_sum
       (Flashcard.init ([233%N] ++ lit "t" ++ [960%N])
          (lit "A<!--Meta:id=1-->")).
Proof.
  refine (proj1 (changed_character_changes_fingerprint
                   (Flashcard.init ([233%N] ++ lit "t" ++ [233%N])
                      (lit "A<!--Meta:id=1-->"))
                   (Flashcard.init ([233%N] ++ lit "t" ++ [960%N])
                      (lit "A<!--Meta:id=1-->")))
            ([233%N] ++ lit "t") (lit "A") 233%N 960%N _ _ _ _ _ _).
  - reflexivity.
  - reflexivity.
  - discriminate.
  - reflexivity.
  - vm_compute. reflexivity.
  - vm_compute. reflexivity.
Defined.
